(** * The agent runtime core of my-ai-office

    A shallow embedding of the class [BaseAgent] of core/base-agent.ts (its
    text follows the launch manager in src/launch-manager.ts, lines 669 to
    867) with the types of types/index.ts: the extraction protocol
    ([parseResponse]), the prompt builder ([buildSystemPrompt]), the tool
    dispatcher ([executeTools]) and the turn loop ([chat]).

    JavaScript strings are sequences of UTF-16 code units; the two regular
    expressions of [parseResponse] carry no [u] flag, so they and [trim]
    work code unit by code unit.  A string is therefore a [list N]. *)

From Stdlib Require Import String Ascii.
From Stdlib Require Import List NArith Bool Arith Lia Permutation Sorted.
Import ListNotations.

Set Implicit Arguments.

(** ** Strings *)

Definition jsstring := list N.

(** An ASCII literal of the source as code units. *)
Definition lit (s : string) : jsstring :=
  map N_of_ascii (list_ascii_of_string s).

Definition jseqb (a b : jsstring) : bool :=
  if list_eq_dec N.eq_dec a b then true else false.

Fixpoint strip_prefix (l s : jsstring) : option jsstring :=
  match l with
  | [] => Some s
  | a :: l' =>
      match s with
      | c :: s' => if N.eqb a c then strip_prefix l' s' else None
      | [] => None
      end
  end.

(** [\w] without the [u] and [i] flags: [A-Za-z0-9_]. *)
Definition word_char (c : N) : bool :=
  ((65 <=? c) && (c <=? 90) || (97 <=? c) && (c <=? 122)
   || (48 <=? c) && (c <=? 57) || (c =? 95))%N.

(** LineTerminator: LF, CR, LS, PS. *)
Definition line_terminator (c : N) : bool :=
  ((c =? 10) || (c =? 13) || (c =? 8232) || (c =? 8233))%N.

(** [.] without the [s] flag: anything but a line terminator. *)
Definition dot (c : N) : bool := negb (line_terminator c).

(** WhiteSpace and LineTerminator, the code units [trim] strips. *)
Definition white_space (c : N) : bool :=
  ((c =? 9) || (c =? 10) || (c =? 11) || (c =? 12) || (c =? 13) || (c =? 32)
   || (c =? 160) || (c =? 5760) || (8192 <=? c) && (c <=? 8202)
   || (c =? 8232) || (c =? 8233) || (c =? 8239) || (c =? 8287)
   || (c =? 12288) || (c =? 65279))%N.

Fixpoint trimStart (s : jsstring) : jsstring :=
  match s with
  | c :: s' => if white_space c then trimStart s' else s
  | [] => []
  end.

Definition trimEnd (s : jsstring) : jsstring := rev (trimStart (rev s)).

Definition trim (s : jsstring) : jsstring := trimEnd (trimStart s).

(** ** The regular-expression fragment of the source

    Both expressions are a sequence of literals and quantified character
    classes, some of them inside a capture group:
    [\[DELEGATE:(\w+)\]] and [\[REMEMBER:(\w+)\|(.*?)\]].  The matcher
    below is a backtracking matcher for that fragment with the priorities
    of the language: a greedy quantifier tries the longest run first, a
    lazy one the shortest. *)

Inductive item : Type :=
| Lit (l : jsstring)
| Plus (cls : N -> bool) (capture : bool)        (* cls+   or (cls+)   *)
| LazyStar (cls : N -> bool) (capture : bool).   (* cls*?  or (cls*?)  *)

Definition regex := list item.

Section Matcher.
Variable R : Type.

(** [cls*] then the continuation [k]; [acc] is what the quantifier has
    consumed so far, last code unit first. *)
Fixpoint greedy_star (cls : N -> bool) (k : jsstring -> jsstring -> option R)
         (acc s : jsstring) : option R :=
  match s with
  | c :: s' =>
      if cls c then
        match greedy_star cls k (c :: acc) s' with
        | Some r => Some r
        | None => k (rev acc) s
        end
      else k (rev acc) s
  | [] => k (rev acc) s
  end.

(** [cls*?] then the continuation [k]. *)
Fixpoint lazy_star (cls : N -> bool) (k : jsstring -> jsstring -> option R)
         (acc s : jsstring) : option R :=
  match k (rev acc) s with
  | Some r => Some r
  | None =>
      match s with
      | c :: s' => if cls c then lazy_star cls k (c :: acc) s' else None
      | [] => None
      end
  end.
End Matcher.

(** A match anchored at the head of [s]: the captures, in order, and the
    text after the match.  [caps] holds the captures made so far, last
    first. *)
Fixpoint match_here (p : regex) (caps : list jsstring) (s : jsstring)
  : option (list jsstring * jsstring) :=
  match p with
  | [] => Some (rev caps, s)
  | Lit l :: p' =>
      match strip_prefix l s with
      | Some s' => match_here p' caps s'
      | None => None
      end
  | Plus cls cap :: p' =>
      match s with
      | c :: s' =>
          if cls c then
            greedy_star cls
              (fun m rest =>
                 match_here p' (if cap then (c :: m) :: caps else caps) rest)
              [] s'
          else None
      | [] => None
      end
  | LazyStar cls cap :: p' =>
      lazy_star cls
        (fun m rest => match_here p' (if cap then m :: caps else caps) rest)
        [] s
  end.

(** What [exec] returns: [index], the matched text [m[0]] and the groups
    [m[1]], [m[2]], ... *)
Record MatchResult : Type := mkMatch {
  index : nat;
  matched : jsstring;
  groups : list jsstring
}.

Definition matched_length (s rest : jsstring) : nat := length s - length rest.

(** [s.match(re)] for a non-global [re]: the leftmost match. [i] is the
    position of [s] in the whole string. *)
Fixpoint search (p : regex) (i : nat) (s : jsstring) : option MatchResult :=
  match match_here p [] s with
  | Some (caps, rest) =>
      Some (mkMatch i (firstn (matched_length s rest) s) caps)
  | None =>
      match s with
      | [] => None
      | _ :: s' => search p (S i) s'
      end
  end.

Definition String_match (p : regex) (s : jsstring) : option MatchResult :=
  search p 0 s.

(** [s.matchAll(re)] for a global [re]: every match, left to right, each
    search resuming where the previous match ended (one code unit further
    after an empty match).  [skip] counts the code units of the previous
    match that are still to be passed over. *)
Fixpoint matchAll_from (p : regex) (i skip : nat) (s : jsstring)
  : list MatchResult :=
  match skip with
  | S k =>
      match s with
      | [] => []
      | _ :: s' => matchAll_from p (S i) k s'
      end
  | 0 =>
      match match_here p [] s with
      | Some (caps, rest) =>
          let n := matched_length s rest in
          mkMatch i (firstn n s) caps ::
            match s with
            | [] => []
            | _ :: s' => matchAll_from p (S i) (pred n) s'
            end
      | None =>
          match s with
          | [] => []
          | _ :: s' => matchAll_from p (S i) 0 s'
          end
      end
  end.

Definition String_matchAll (p : regex) (s : jsstring) : list MatchResult :=
  matchAll_from p 0 0 s.

(** [s.replace(re, '')] for a global [re]: the text outside the matches. *)
Fixpoint remove_from (p : regex) (skip : nat) (s : jsstring) : jsstring :=
  match skip with
  | S k =>
      match s with
      | [] => []
      | _ :: s' => remove_from p k s'
      end
  | 0 =>
      match match_here p [] s with
      | Some (_, rest) =>
          let n := matched_length s rest in
          match s with
          | [] => []
          | c :: s' =>
              (if Nat.eqb n 0 then [c] else []) ++ remove_from p (pred n) s'
          end
      | None =>
          match s with
          | [] => []
          | c :: s' => c :: remove_from p 0 s'
          end
      end
  end.

Definition String_replace_empty (p : regex) (s : jsstring) : jsstring :=
  remove_from p 0 s.

(** ** Types (types/index.ts) *)

Inductive AgentRole : Type :=
| orchestrator | dev | research | comms | workflow.

Definition AgentRole_eqb (a b : AgentRole) : bool :=
  match a, b with
  | orchestrator, orchestrator | dev, dev | research, research
  | comms, comms | workflow, workflow => true
  | _, _ => false
  end.

(** [Omit<Memory, 'id' | 'createdAt'>].  The type of [mem_type] is a cast in
    the source: at run time it is whatever word the directive carried. *)
Record MemoryInput : Type := mkMemoryInput {
  mem_type : jsstring;
  mem_content : jsstring;
  mem_metadata : list (jsstring * jsstring);
  mem_agentRole : option AgentRole
}.

(** [AgentResponse]; [delegateTo] is a cast as well. *)
Record AgentResponse : Type := mkAgentResponse {
  content : jsstring;
  delegateTo : option jsstring;
  memoriesToStore : option (list MemoryInput)
}.

(** ** The extraction protocol: [parseResponse] *)

Definition DELEGATE_capture : regex :=
  [Lit (lit "[DELEGATE:"); Plus word_char true; Lit (lit "]")].

Definition REMEMBER_capture : regex :=
  [Lit (lit "[REMEMBER:"); Plus word_char true; Lit (lit "|");
   LazyStar dot true; Lit (lit "]")].

Definition DELEGATE_plain : regex :=
  [Lit (lit "[DELEGATE:"); Plus word_char false; Lit (lit "]")].

Definition REMEMBER_plain : regex :=
  [Lit (lit "[REMEMBER:"); Plus word_char false; Lit (lit "|");
   LazyStar dot false; Lit (lit "]")].

(** [m[n]] for [n >= 1]; a group that exists always took part here. *)
Definition group (n : nat) (m : MatchResult) : jsstring :=
  nth (pred n) (groups m) [].

Definition parseResponse (role : AgentRole) (text : jsstring) : AgentResponse :=
  let delegateMatch := String_match DELEGATE_capture text in
  let memoryMatches := String_matchAll REMEMBER_capture text in
  let memories :=
    map (fun m => mkMemoryInput (group 1 m) (group 2 m) [] (Some role))
        memoryMatches in
  let cleanText :=
    trim (String_replace_empty REMEMBER_plain
            (String_replace_empty DELEGATE_plain text)) in
  mkAgentResponse
    cleanText
    (match delegateMatch with Some m => Some (group 1 m) | None => None end)
    (if Nat.ltb 0 (length memories) then Some memories else None).

(** ** The store (memory/database.ts) *)

Inductive TurnRole : Type := user | assistant.

(** [Message] without its timestamp, as [chat] hands it to the store. *)
Record Message : Type := mkMessage {
  msg_role : TurnRole;
  msg_content : jsstring;
  msg_agentRole : option AgentRole
}.

Record UserPreference : Type := mkPreference {
  pref_key : jsstring;
  pref_value : jsstring;
  pref_category : jsstring;
  learnedAt : nat
}.

Record Memory : Type := mkMemory {
  mem_id : nat;
  mem_fields : MemoryInput;
  createdAt : nat
}.

Record Turn : Type := mkTurn {
  turn_session : jsstring;
  turn_message : Message;
  turn_timestamp : nat
}.

(** Modelled from the spec: memory/database.ts is missing.  The store holds
    the rows of section 3: memories and conversation turns are append-only
    and kept oldest first, preferences hold one row per key, and [clock]
    supplies identifiers and timestamps. *)
Record Store : Type := mkStore {
  clock : nat;
  memories : list Memory;
  preferences : list UserPreference;
  turns : list Turn
}.

(** Modelled from the spec: [appendTurn(sessionId, turn)] of the missing
    memory/database.ts, an append to the session log. *)
Definition saveConversationMessage (sessionId : jsstring) (m : Message)
           (s : Store) : Store :=
  mkStore (S (clock s)) (memories s) (preferences s)
          (turns s ++ [mkTurn sessionId m (clock s)]).

(** Modelled from the spec: [getHistory(sessionId)] of the missing
    memory/database.ts; the whole history of the session in chronological
    order, oldest first. *)
Definition getConversationHistory (sessionId : jsstring) (s : Store)
  : list Message :=
  map turn_message
      (filter (fun t => jseqb (turn_session t) sessionId) (turns s)).

(** Modelled from the spec: [write(record)] of the missing
    memory/database.ts, an append of an immutable memory row. *)
Definition saveMemory (m : MemoryInput) (s : Store) : Store :=
  mkStore (S (clock s)) (memories s ++ [mkMemory (clock s) m (clock s)])
          (preferences s) (turns s).

Definition option_filter (A : Type) (eqb : A -> A -> bool) (f : option A)
           (x : option A) : bool :=
  match f with
  | None => true
  | Some a => match x with Some b => eqb a b | None => false end
  end.

(** Modelled from the spec: [read(filterByKind?, filterByRole?, limit)] of
    the missing memory/database.ts; most recent first, at most [limit]. *)
Definition getMemories (kind : option jsstring) (role : option AgentRole)
           (limit : nat) (s : Store) : list Memory :=
  firstn limit
    (filter (fun m =>
               option_filter jseqb kind (Some (mem_type (mem_fields m)))
               && option_filter AgentRole_eqb role (mem_agentRole (mem_fields m)))
            (rev (memories s))).

(** Modelled from the spec: [listPreferences()] of the missing
    memory/database.ts; every current preference, whatever the role. *)
Definition getAllPreferences (s : Store) : list UserPreference :=
  preferences s.

(** ** Thrown values and the result of a computation *)

(** What [catch (error)] can receive: an [Error] with its [message], or any
    other value, given by its [String(error)]. *)
Inductive Exn : Type :=
| ErrorObject (message : jsstring)
| ThrownValue (rendering : jsstring).

Inductive Result (A : Type) : Type :=
| Ok (a : A)
| Throw (e : Exn)
| OutOfFuel.
Arguments Throw {A} e.
Arguments OutOfFuel {A}.

(** ** [buildSystemPrompt]: grouping in a plain object

    [grouped] starts as [{}], an object whose prototype is
    [Object.prototype]: reading a key it does not own falls back on the
    prototype, and [Object.entries] lists array-index keys first, in
    ascending order, then the other keys in creation order. *)

Definition Object_prototype_keys : list jsstring :=
  map lit ["constructor"; "__defineGetter__"; "__defineSetter__";
           "hasOwnProperty"; "__lookupGetter__"; "__lookupSetter__";
           "isPrototypeOf"; "propertyIsEnumerable"; "toString"; "valueOf";
           "__proto__"; "toLocaleString"]%string.

Definition inherited (k : jsstring) : bool :=
  existsb (jseqb k) Object_prototype_keys.

(** The own properties of [grouped], in creation order. *)
Definition Grouped := list (jsstring * list UserPreference).

Fixpoint own (k : jsstring) (o : Grouped) : option (list UserPreference) :=
  match o with
  | [] => None
  | (k', v) :: o' => if jseqb k k' then Some v else own k o'
  end.

Fixpoint push_to (k : jsstring) (p : UserPreference) (o : Grouped) : Grouped :=
  match o with
  | [] => []
  | (k', v) :: o' =>
      if jseqb k k' then (k', v ++ [p]) :: o' else (k', v) :: push_to k p o'
  end.

Definition push_TypeError : Exn :=
  ErrorObject (lit "acc[p.category].push is not a function").

(** The body of the [reduce] callback. *)
Definition group_step (acc : Grouped) (p : UserPreference) : Result Grouped :=
  match own (pref_category p) acc with
  | Some _ => Ok (push_to (pref_category p) p acc)
  | None =>
      if inherited (pref_category p) then Throw push_TypeError
      else Ok (acc ++ [(pref_category p, [p])])
  end.

Fixpoint reduce_group (ps : list UserPreference) (acc : Grouped)
  : Result Grouped :=
  match ps with
  | [] => Ok acc
  | p :: ps' =>
      match group_step acc p with
      | Ok acc' => reduce_group ps' acc'
      | Throw e => Throw e
      | OutOfFuel => OutOfFuel
      end
  end.

Definition digit (c : N) : bool := ((48 <=? c) && (c <=? 57))%N.

Definition decimal_value (k : jsstring) : N :=
  fold_left (fun n c => (10 * n + (c - 48))%N) k 0%N.

(** An array index: the canonical decimal numeral of an integer below
    [2^32 - 1]. *)
Definition array_index (k : jsstring) : option N :=
  match k with
  | [] => None
  | c :: k' =>
      if forallb digit k && (negb (N.eqb c 48) || Nat.eqb (length k') 0)
         && Nat.leb (length k) 10 && (decimal_value k <? 4294967295)%N
      then Some (decimal_value k) else None
  end.

Fixpoint insert_index (A : Type) (e : N * A) (l : list (N * A)) : list (N * A) :=
  match l with
  | [] => [e]
  | e' :: l' => if (fst e <=? fst e')%N then e :: l else e' :: insert_index e l'
  end.

Definition index_keys (o : Grouped) : list (N * (jsstring * list UserPreference)) :=
  flat_map (fun kv => match array_index (fst kv) with
                      | Some n => [(n, kv)]
                      | None => []
                      end) o.

Definition is_array_index (k : jsstring) : bool :=
  match array_index k with Some _ => true | None => false end.

Definition Object_entries (o : Grouped) : Grouped :=
  map snd (fold_right (@insert_index _) [] (index_keys o))
  ++ filter (fun kv => negb (is_array_index (fst kv))) o.

Definition pref_line (p : UserPreference) : jsstring :=
  lit "- " ++ pref_key p ++ lit ": " ++ pref_value p ++ [10%N].

Definition category_section (kv : jsstring * list UserPreference) : jsstring :=
  [10%N] ++ lit "### " ++ fst kv ++ [10%N] ++ flat_map pref_line (snd kv).

Definition memory_line (m : Memory) : jsstring :=
  lit "- [" ++ mem_type (mem_fields m) ++ lit "] "
  ++ mem_content (mem_fields m) ++ [10%N].

Definition preferences_header : jsstring :=
  [10%N; 10%N] ++ lit "## User Preferences (learned over time)" ++ [10%N].

Definition recent_header : jsstring :=
  [10%N; 10%N] ++ lit "## Recent Context" ++ [10%N].

Definition recent_section (recentMemories : list Memory) : jsstring :=
  if Nat.ltb 0 (length recentMemories)
  then recent_header ++ flat_map memory_line (firstn 10 recentMemories)
  else [].

(** [buildSystemPrompt] as a function of the store it reads. *)
Definition buildSystemPrompt_of (systemPrompt : jsstring) (role : AgentRole)
           (s : Store) : Result jsstring :=
  let preferences := getAllPreferences s in
  let recentMemories := getMemories None (Some role) 20 s in
  let prompt := systemPrompt in
  match (if Nat.ltb 0 (length preferences) then
           match reduce_group preferences [] with
           | Ok grouped =>
               Ok (prompt ++ preferences_header
                   ++ flat_map category_section (Object_entries grouped))
           | Throw e => Throw e
           | OutOfFuel => OutOfFuel
           end
         else Ok prompt) with
  | Ok prompt => Ok (prompt ++ recent_section recentMemories)
  | Throw e => Throw e
  | OutOfFuel => OutOfFuel
  end.

(** ** The runtime: backend messages, tools and the turn loop *)

Section Runtime.

(** [Input]: the JSON values ([Record<string, unknown>]) of tool inputs and
    schemas.  [Env]: what a tool reaches besides the store (files, the
    network).  [Backend]: the state of the completion service, with
    [create] for [client.messages.create]. *)
Variables Input Env Backend : Type.

Record ToolUseBlock : Type := mkToolUse {
  tu_id : jsstring;
  tu_name : jsstring;
  tu_input : Input
}.

Inductive ContentBlock : Type :=
| text_block (text : jsstring)
| tool_use_block (b : ToolUseBlock)
| other_block.

Record ToolResultBlockParam : Type := mkToolResult {
  tool_use_id : jsstring;
  tr_content : jsstring;
  is_error : option bool
}.

Inductive MessageContent : Type :=
| text_content (s : jsstring)
| block_content (bs : list ContentBlock)
| tool_results (rs : list ToolResultBlockParam).

Record MessageParam : Type := mkMessageParam {
  mp_role : TurnRole;
  mp_content : MessageContent
}.

Record ToolDecl : Type := mkToolDecl {
  td_name : jsstring;
  td_description : jsstring;
  input_schema : Input
}.

Record Request : Type := mkRequest {
  req_model : jsstring;
  max_tokens : N;
  system : jsstring;
  req_messages : list MessageParam;
  req_tools : option (list ToolDecl)
}.

Inductive StopReason : Type :=
| end_turn | max_tokens_reached | stop_sequence | tool_use.

Record Response : Type := mkResponse {
  stop_reason : StopReason;
  resp_content : list ContentBlock
}.

Variable create : Request -> Backend -> (Response + Exn) * Backend.

Record Tool : Type := mkTool {
  tool_name : jsstring;
  tool_description : jsstring;
  inputSchema : Input;
  execute : Input -> Store * Env -> (jsstring + Exn) * (Store * Env)
}.

Record AgentConfig : Type := mkConfig {
  cfg_name : jsstring;
  cfg_role : AgentRole;
  cfg_description : jsstring;
  systemPrompt : jsstring;
  cfg_model : option jsstring;
  cfg_tools : option (list Tool)
}.

(** The world a turn runs in.  [invoked] and [sent] are not in the source:
    they log, oldest first, the tool calls executed and the requests sent,
    so that order and content can be stated. *)
Record World : Type := mkWorld {
  store : Store;
  env : Env;
  backend : Backend;
  invoked : list ToolUseBlock;
  sent : list Request
}.

Definition M (A : Type) : Type := World -> Result A * World.

Definition ret (A : Type) (a : A) : M A := fun w => (Ok a, w).

Definition bind (A B : Type) (m : M A) (f : A -> M B) : M B :=
  fun w =>
    match m w with
    | (Ok a, w') => f a w'
    | (Throw e, w') => (Throw e, w')
    | (OutOfFuel, w') => (OutOfFuel, w')
    end.

Definition throw (A : Type) (e : Exn) : M A := fun w => (Throw e, w).

Definition out_of_fuel (A : Type) : M A := fun w => (OutOfFuel, w).

(** [try { body } catch (error) { handler }] *)
Definition try_catch (A : Type) (body : M A) (handler : Exn -> M A) : M A :=
  fun w =>
    match body w with
    | (Throw e, w') => handler e w'
    | r => r
    end.

Notation "x <- m ;; k" := (bind m (fun x => k))
  (at level 61, m at next level, right associativity).
Notation "m ;;; k" := (bind m (fun _ => k))
  (at level 61, right associativity).

Definition read_store (A : Type) (f : Store -> A) : M A :=
  fun w => (Ok (f (store w)), w).

Definition write_store (f : Store -> Store) : M unit :=
  fun w => (Ok tt, mkWorld (f (store w)) (env w) (backend w) (invoked w) (sent w)).

(** [await this.client.messages.create(request)] *)
Definition messages_create (request : Request) : M Response :=
  fun w =>
    let '(r, b) := create request (backend w) in
    let w' := mkWorld (store w) (env w) b (invoked w) (sent w ++ [request]) in
    match r with
    | inl response => (Ok response, w')
    | inr e => (Throw e, w')
    end.

(** [await tool.execute(toolCall.input)] *)
Definition invoke (tool : Tool) (toolCall : ToolUseBlock) : M jsstring :=
  fun w =>
    let '(r, (s, e)) := execute tool (tu_input toolCall) (store w, env w) in
    let w' := mkWorld s e (backend w) (invoked w ++ [toolCall]) (sent w) in
    match r with
    | inl result => (Ok result, w')
    | inr error => (Throw error, w')
    end.

Definition buildSystemPrompt (config : AgentConfig) : M jsstring :=
  fun w => (buildSystemPrompt_of (systemPrompt config) (cfg_role config) (store w), w).

(** [this.config.tools?.find(t => t.name === toolCall.name)] *)
Definition find_tool (config : AgentConfig) (name : jsstring) : option Tool :=
  match cfg_tools config with
  | Some ts => find (fun t => jseqb (tool_name t) name) ts
  | None => None
  end.

(** [error instanceof Error ? error.message : String(error)] *)
Definition describe (error : Exn) : jsstring :=
  match error with
  | ErrorObject message => message
  | ThrownValue rendering => rendering
  end.

(** The [for] loop of [executeTools]; [results] is the array built so far. *)
Fixpoint executeTools_loop (config : AgentConfig) (toolCalls : list ToolUseBlock)
         (results : list ToolResultBlockParam) : M (list ToolResultBlockParam) :=
  match toolCalls with
  | [] => ret results
  | toolCall :: rest =>
      match find_tool config (tu_name toolCall) with
      | Some tool =>
          block <- try_catch
                     (result <- invoke tool toolCall ;;
                      ret (mkToolResult (tu_id toolCall) result None))
                     (fun error =>
                        ret (mkToolResult (tu_id toolCall)
                               (lit "Error: " ++ describe error) (Some true))) ;;
          executeTools_loop config rest (results ++ [block])
      | None => executeTools_loop config rest results
      end
  end.

Definition executeTools (config : AgentConfig) (toolCalls : list ToolUseBlock)
  : M (list ToolResultBlockParam) :=
  executeTools_loop config toolCalls [].

Definition default_model : jsstring := lit "claude-sonnet-4-20250514".

(** [this.config.model || 'claude-sonnet-4-20250514'] *)
Definition model_of (config : AgentConfig) : jsstring :=
  match cfg_model config with
  | Some (c :: m) => c :: m
  | _ => default_model
  end.

Definition api_tools (config : AgentConfig) : list ToolDecl :=
  match cfg_tools config with
  | Some ts => map (fun t => mkToolDecl (tool_name t) (tool_description t) (inputSchema t)) ts
  | None => []
  end.

(** The argument of both [create] calls. *)
Definition request_for (config : AgentConfig) (tools : list ToolDecl)
           (messages : list MessageParam) : M Request :=
  sys <- buildSystemPrompt config ;;
  ret (mkRequest (model_of config) 4096 sys messages
                 (if Nat.ltb 0 (length tools) then Some tools else None)).

Definition content_is (c : MessageContent) (userMessage : jsstring) : bool :=
  match c with
  | text_content s => jseqb s userMessage
  | _ => false
  end.

(** The message list [chat] starts from: the replayed history, and the
    current message when it is not already the last entry. *)
Definition initial_messages (history : list Message) (userMessage : jsstring)
  : list MessageParam :=
  let messages := map (fun m => mkMessageParam (msg_role m) (text_content (msg_content m))) history in
  if Nat.eqb (length messages) 0
     || negb (content_is (mp_content (last messages (mkMessageParam user (text_content [])))) userMessage)
  then messages ++ [mkMessageParam user (text_content userMessage)]
  else messages.

Definition tool_use_blocks (bs : list ContentBlock) : list ToolUseBlock :=
  flat_map (fun b => match b with tool_use_block t => [t] | _ => [] end) bs.

Definition is_tool_use (r : StopReason) : bool :=
  match r with tool_use => true | _ => false end.

(** One pass through the body of the [while] loop. *)
Definition tool_round (config : AgentConfig) (tools : list ToolDecl)
           (messages : list MessageParam) (response : Response)
  : M (list MessageParam * Response) :=
  let toolUseBlocks := tool_use_blocks (resp_content response) in
  toolResults <- executeTools config toolUseBlocks ;;
  let messages := messages ++ [mkMessageParam assistant (block_content (resp_content response))] in
  let messages := messages ++ [mkMessageParam user (tool_results toolResults)] in
  request <- request_for config tools messages ;;
  response <- messages_create request ;;
  ret (messages, response).

(** [while (response.stop_reason === 'tool_use')]; the source puts no
    bound on the rounds, [fuel] bounds them here. *)
Fixpoint tool_loop (fuel : nat) (config : AgentConfig) (tools : list ToolDecl)
         (messages : list MessageParam) (response : Response)
  : M (list MessageParam * Response) :=
  if is_tool_use (stop_reason response) then
    match fuel with
    | 0 => out_of_fuel _
    | S fuel' =>
        next <- tool_round config tools messages response ;;
        tool_loop fuel' config tools (fst next) (snd next)
    end
  else ret (messages, response).

(** [response.content.find(block => block.type === 'text')?.text || ''] *)
Definition response_text (response : Response) : jsstring :=
  match find (fun b => match b with text_block _ => true | _ => false end)
             (resp_content response) with
  | Some (text_block t) => t
  | _ => []
  end.

Fixpoint store_memories (ms : list MemoryInput) : M unit :=
  match ms with
  | [] => ret tt
  | memory :: rest => write_store (saveMemory memory) ;;; store_memories rest
  end.

Definition chat (fuel : nat) (config : AgentConfig) (sessionId : jsstring)
           (userMessage : jsstring) : M AgentResponse :=
  write_store (saveConversationMessage sessionId
                 (mkMessage user userMessage None)) ;;;
  history <- read_store (getConversationHistory sessionId) ;;
  let messages := initial_messages history userMessage in
  let tools := api_tools config in
  request <- request_for config tools messages ;;
  response <- messages_create request ;;
  final <- tool_loop fuel config tools messages response ;;
  let responseText := response_text (snd final) in
  write_store (saveConversationMessage sessionId
                 (mkMessage assistant responseText (Some (cfg_role config)))) ;;;
  let agentResponse := parseResponse (cfg_role config) responseText in
  match memoriesToStore agentResponse with
  | Some ms => store_memories ms
  | None => ret tt
  end ;;;
  ret agentResponse.

End Runtime.

(** ** Vocabulary of the statements *)

(** The same expression without its capture groups. *)
Definition erase (p : regex) : regex :=
  map (fun it => match it with
                 | Lit l => Lit l
                 | Plus cls _ => Plus cls false
                 | LazyStar cls _ => LazyStar cls false
                 end) p.

(** The span of a match: where it starts and how long it is. *)
Definition span (m : MatchResult) : nat * nat := (index m, length (matched m)).

Definition in_span (j : nat) (sp : nat * nat) : bool :=
  Nat.leb (fst sp) j && Nat.ltb j (fst sp + snd sp).

(** The code units of [s] whose position satisfies [f]; [i] is the position
    of the head of [s]. *)
Fixpoint keep_from (f : nat -> bool) (i : nat) (s : jsstring) : jsstring :=
  match s with
  | [] => []
  | c :: s' => (if f i then [c] else []) ++ keep_from f (S i) s'
  end.

(** [s] without the code units that lie in one of [spans]. *)
Definition delete_spans (spans : list (nat * nat)) (s : jsstring) : jsstring :=
  keep_from (fun j => negb (existsb (in_span j) spans)) 0 s.

Definition delegate_directive (token : jsstring) : jsstring :=
  lit "[DELEGATE:" ++ token ++ lit "]".

Definition remember_directive (kind text : jsstring) : jsstring :=
  lit "[REMEMBER:" ++ kind ++ lit "|" ++ text ++ lit "]".

(** One or more word characters. *)
Definition word_token (t : jsstring) : Prop :=
  t <> [] /\ forallb word_char t = true.

(** Free text up to the next closing bracket, on one line. *)
Definition free_text (t : jsstring) : Prop :=
  forallb dot t = true /\ ~ In 93%N t.

(** No preference category is the name of a property that a plain object
    inherits. *)
Definition plain_categories (s : Store) : Prop :=
  forallb (fun p => negb (inherited (pref_category p))) (preferences s) = true.

(** A scripted backend: it answers the requests with the responses of the
    script, in order, whatever the request, and fails once the script is
    exhausted. *)
Definition scripted (Input : Type) (request : Request Input)
           (script : list (Response Input))
  : (Response Input + Exn) * list (Response Input) :=
  match script with
  | r :: script' => (inl r, script')
  | [] => (inr (ErrorObject (lit "script exhausted")), [])
  end.

(** A response that asks for tools, and a final answer. *)
Definition asks (Input : Type) (calls : list (ToolUseBlock Input)) : Response Input :=
  mkResponse tool_use (map (@tool_use_block Input) calls).

Definition answers (Input : Type) (text : jsstring) : Response Input :=
  mkResponse end_turn [text_block Input text].

(** Whether the registry of the role holds a tool of that name. *)
Definition registered (Input Env : Type) (config : AgentConfig Input Env)
           (toolCall : ToolUseBlock Input) : bool :=
  match find_tool config (tu_name toolCall) with
  | Some _ => true
  | None => false
  end.

(** The replayed history, as [chat] maps it. *)
Definition replayed (Input : Type) (history : list Message)
  : list (MessageParam Input) :=
  map (fun m => mkMessageParam (msg_role m) (text_content Input (msg_content m)))
      history.

(** A property of the store that no tool of the role breaks. *)
Definition tools_preserve (Input Env : Type) (config : AgentConfig Input Env)
           (P : Store -> Prop) : Prop :=
  forall tool name input st,
    find_tool config name = Some tool ->
    P (fst st) -> P (fst (snd (execute tool input st))).

(** The block that [executeTools] pushes for a call, from what the tool
    returned or threw. *)
Definition result_block (Input : Type) (toolCall : ToolUseBlock Input)
           (r : jsstring + Exn) : ToolResultBlockParam :=
  match r with
  | inl result => mkToolResult (tu_id toolCall) result None
  | inr error =>
      mkToolResult (tu_id toolCall) (lit "Error: " ++ describe error) (Some true)
  end.

(** The request of a round: [create]'s argument for a given prompt. *)
Definition request_with (Input Env : Type) (config : AgentConfig Input Env)
           (sys : jsstring) (messages : list (MessageParam Input))
  : Request Input :=
  mkRequest (model_of config) 4096 sys messages
            (if Nat.ltb 0 (length (api_tools config))
             then Some (api_tools config) else None).

(** The message list after a round: the request of the backend and the
    results of the tools are appended. *)
Definition round_messages (Input : Type) (messages : list (MessageParam Input))
           (response : Response Input) (results : list ToolResultBlockParam)
  : list (MessageParam Input) :=
  (messages ++ [mkMessageParam assistant (block_content (resp_content response))])
  ++ [mkMessageParam user (tool_results Input results)].

(** A small agent to run the turn on: two tools, one that answers and one
    that throws, over tool inputs and an environment that carry nothing,
    against a scripted backend. *)
Definition echo_tool : Tool unit unit :=
  mkTool (lit "echo") (lit "answers ok") tt
         (fun _ st => (inl (lit "ok"), st)).

Definition failing_tool : Tool unit unit :=
  mkTool (lit "fail") (lit "always throws") tt
         (fun _ st => (inr (ErrorObject (lit "boom")), st)).

Definition sample_config : AgentConfig unit unit :=
  mkConfig (lit "Dev") dev (lit "Writes code") (lit "You are the dev agent.")
           None (Some [echo_tool; failing_tool]).

Definition sample_world (script : list (Response unit))
  : World unit unit (list (Response unit)) :=
  mkWorld (mkStore 0 [] [] []) tt script [] [].

Definition call (id name : string) : ToolUseBlock unit :=
  mkToolUse (lit id) (lit name) tt.


(** ** The launch dashboard: summaries of milestones and outreach

    The summary route of web/server.ts and [printDashboard] and [askAI] of
    launch-manager.ts count the rows that the database returned.  A status
    column may hold NULL. *)

Record MilestoneRow : Type := mkMilestone {
  milestone_id : nat;
  milestone_title : jsstring;
  milestone_status : option jsstring
}.

Record ContactRow : Type := mkContact {
  contact_id : nat;
  contact_name : jsstring;
  contact_channel : jsstring;
  contact_status : option jsstring
}.

(** [status === 'literal'] *)
Definition status_is (literal : string) (status : option jsstring) : bool :=
  match status with
  | Some s => jseqb s (lit literal)
  | None => false
  end.

(** [['responded', 'interested', 'converted'].includes(status)] *)
Definition status_in (literals : list string) (status : option jsstring) : bool :=
  existsb (fun l => status_is l status) literals.

Record MilestoneSummary : Type := mkMilestoneSummary {
  milestones_total : nat;
  milestones_completed : nat;
  milestones_inProgress : nat;
  milestones_pending : nat
}.

Definition milestone_summary (milestones : list MilestoneRow) : MilestoneSummary :=
  mkMilestoneSummary
    (length milestones)
    (length (filter (fun m => status_is "completed" (milestone_status m)) milestones))
    (length (filter (fun m => status_is "in_progress" (milestone_status m)) milestones))
    (length (filter (fun m => status_is "pending" (milestone_status m)) milestones)).

Record OutreachSummary : Type := mkOutreachSummary {
  outreach_total : nat;
  outreach_contacted : nat;
  outreach_responded : nat;
  outreach_converted : nat
}.

Definition outreach_summary (contacts : list ContactRow) : OutreachSummary :=
  mkOutreachSummary
    (length contacts)
    (length (filter (fun c => negb (status_is "not_contacted" (contact_status c)))
                    contacts))
    (length (filter (fun c => status_in ["responded"; "interested"; "converted"]%string
                                        (contact_status c))
                    contacts))
    (length (filter (fun c => status_is "converted" (contact_status c)) contacts)).


(** ** Tool inputs

    The input of a tool is a JSON object, and the tools read its fields
    with a cast.  What matters of a value is whether it is a string, whether
    it is truthy and what [String(value)] gives; for numbers, arrays and
    objects the last two are carried by the value. *)

Inductive Value : Type :=
| VUndefined
| VNull
| VBool (b : bool)
| VString (s : jsstring)
| VOther (is_truthy : bool) (rendering : jsstring).

(** The own properties of the input object, a key occurring once. *)
Definition ToolInput := list (jsstring * Value).

Fixpoint field_of (key : jsstring) (input : ToolInput) : Value :=
  match input with
  | [] => VUndefined
  | (k, v) :: input' => if jseqb k key then v else field_of key input'
  end.

(** [input.key], for the keys of the source, none of which is inherited. *)
Definition field (key : string) (input : ToolInput) : Value :=
  field_of (lit key) input.

Definition truthy (v : Value) : bool :=
  match v with
  | VUndefined | VNull => false
  | VBool b => b
  | VString [] => false
  | VString (_ :: _) => true
  | VOther t _ => t
  end.

(** [String(v)], as a template literal and [includes] convert. *)
Definition ToString (v : Value) : jsstring :=
  match v with
  | VUndefined => lit "undefined"
  | VNull => lit "null"
  | VBool true => lit "true"
  | VBool false => lit "false"
  | VString s => s
  | VOther _ r => r
  end.

(** [v === 'literal'] *)
Definition strict_eq (v : Value) (literal : string) : bool :=
  match v with
  | VString s => jseqb s (lit literal)
  | _ => false
  end.

(** [a || b] on strings *)
Definition or_else (a b : jsstring) : jsstring :=
  match a with
  | [] => b
  | _ :: _ => a
  end.

(** [parts.join(separator)] *)
Fixpoint join (separator : jsstring) (parts : list jsstring) : jsstring :=
  match parts with
  | [] => []
  | [p] => p
  | p :: parts' => p ++ separator ++ join separator parts'
  end.

Definition text_of_lines (lines : list string) : jsstring :=
  join [10%N] (map lit lines).

Definition quote : jsstring := [34%N].

(** ** The dev agent (agents/dev-agent.ts) *)

Section DevAgent.

(** [Env] is what the tools reach: the shell and the file system.
    [execAsync command cwd timeout] is the promisified [exec], resolving to
    [stdout] and [stderr]; [readFile], [writeFile] and [readdir] are those of
    fs/promises, an entry of a directory being whether it is a directory and
    its name.  [schema] gives the input schema of a tool by its name. *)
Variable Env : Type.
Variable schema : string -> ToolInput.
Variable execAsync :
  Value -> Value -> N -> Env -> (jsstring * jsstring + Exn) * Env.
Variable readFile : Value -> Env -> (jsstring + Exn) * Env.
Variable writeFile : Value -> Value -> Env -> (unit + Exn) * Env.
Variable readdir : Value -> Env -> (list (bool * jsstring) + Exn) * Env.

Definition DEV_AGENT_PROMPT : jsstring :=
  text_of_lines
    ["You're my dev assistant. I'm your boss. Ship code fast.";
     "";
     "RULES:";
     "- Show code, not explanations";
     "- Fix it, don't diagnose it"]%string
  ++ [10%N] ++ lit "- No " ++ quote ++ lit "Here's how you could..." ++ quote
  ++ lit " - just do it" ++ [10%N]
  ++ text_of_lines
       ["- If you need specifics, ask ONE question";
        "";
        "You can run commands, read/write files, search code."]%string.

Definition run_command : Tool ToolInput Env :=
  mkTool (lit "run_command")
         (lit "Execute a shell command and return the output")
         (schema "run_command")
         (fun input st =>
            match execAsync (field "command" input) (field "cwd" input) 30000
                            (snd st) with
            | (inl (stdout, stderr), e) =>
                (inl (or_else stdout
                        (or_else stderr (lit "Command completed successfully"))),
                 (fst st, e))
            | (inr error, e) =>
                (inl (lit "Error: " ++ describe error), (fst st, e))
            end).

Definition read_file : Tool ToolInput Env :=
  mkTool (lit "read_file") (lit "Read the contents of a file")
         (schema "read_file")
         (fun input st =>
            match readFile (field "path" input) (snd st) with
            | (inl content, e) => (inl content, (fst st, e))
            | (inr error, e) =>
                (inl (lit "Error reading file: " ++ describe error), (fst st, e))
            end).

Definition write_file : Tool ToolInput Env :=
  mkTool (lit "write_file") (lit "Write content to a file")
         (schema "write_file")
         (fun input st =>
            match writeFile (field "path" input) (field "content" input)
                            (snd st) with
            | (inl _, e) =>
                (inl (lit "File written successfully: "
                      ++ ToString (field "path" input)),
                 (fst st, e))
            | (inr error, e) =>
                (inl (lit "Error writing file: " ++ describe error), (fst st, e))
            end).

Definition list_directory : Tool ToolInput Env :=
  mkTool (lit "list_directory") (lit "List files and directories in a path")
         (schema "list_directory")
         (fun input st =>
            match readdir (field "path" input) (snd st) with
            | (inl entries, e) =>
                (inl (join [10%N]
                        (map (fun entry : bool * jsstring =>
                                (if fst entry then lit "[DIR]" else lit "[FILE]")
                                ++ lit " " ++ snd entry)
                             entries)),
                 (fst st, e))
            | (inr error, e) =>
                (inl (lit "Error: " ++ describe error), (fst st, e))
            end).

Definition search_code : Tool ToolInput Env :=
  mkTool (lit "search_code") (lit "Search for a pattern in files using grep")
         (schema "search_code")
         (fun input st =>
            let typeFlag :=
              if truthy (field "fileType" input)
              then lit "--include=" ++ quote ++ lit "*."
                   ++ ToString (field "fileType" input) ++ quote
              else [] in
            let command :=
              lit "grep -rn " ++ typeFlag ++ lit " " ++ quote
              ++ ToString (field "pattern" input) ++ quote ++ lit " " ++ quote
              ++ ToString (field "path" input) ++ quote
              ++ lit " 2>/dev/null | head -50" in
            match execAsync (VString command) VUndefined 10000 (snd st) with
            | (inl (stdout, _), e) =>
                (inl (or_else stdout (lit "No matches found")), (fst st, e))
            | (inr _, e) => (inl (lit "No matches found"), (fst st, e))
            end).

(** [createTools()] *)
Definition dev_tools : list (Tool ToolInput Env) :=
  [run_command; read_file; write_file; list_directory; search_code].

(** The configuration that the constructor of [DevAgent] passes on. *)
Definition DevAgent_config : AgentConfig ToolInput Env :=
  mkConfig (lit "Dev") dev
           (lit "Software development partner for coding, debugging, and architecture")
           DEV_AGENT_PROMPT
           (Some (lit "claude-sonnet-4-20250514"))
           (Some dev_tools).

End DevAgent.


(** ** The workflow agent: [update_task] (agents/workflow-agent.ts) *)

(** [Task] of types/index.ts; dates are instants. *)
Record Task : Type := mkTask {
  task_id : jsstring;
  task_description : jsstring;
  task_status : jsstring;
  task_assignedTo : option AgentRole;
  task_result : option jsstring;
  task_createdAt : nat;
  task_completedAt : option nat
}.

(** The second argument of [updateTask]. *)
Record TaskUpdate : Type := mkTaskUpdate {
  update_status : Value;
  update_result : Value;
  update_completedAt : option nat
}.

(** [s.includes(part)] *)
Fixpoint includes (s part : jsstring) : bool :=
  match strip_prefix part s with
  | Some _ => true
  | None =>
      match s with
      | [] => false
      | _ :: s' => includes s' part
      end
  end.

Section WorkflowAgent.

(** [getTasks] and [updateTask] belong to the missing memory/database.ts
    and are taken as they come: [getTasks ()] reads the tasks or throws,
    [updateTask id update] writes or throws.  [now] is [new Date()]. *)
Variable Env : Type.
Variable schema : string -> ToolInput.
Variable getTasks : Store * Env -> list Task + Exn.
Variable updateTask :
  jsstring -> TaskUpdate -> Store * Env -> (unit + Exn) * (Store * Env).
Variable now : Store * Env -> nat.

Definition workflow_update_task : Tool ToolInput Env :=
  mkTool (lit "update_task") (lit "Update task status")
         (schema "update_task")
         (fun input st =>
            let taskIdPart := ToString (field "taskId" input) in
            match getTasks st with
            | inr error => (inr error, st)
            | inl tasks =>
                match find (fun t => includes (task_id t) taskIdPart) tasks with
                | None => (inl (lit "Task not found: " ++ taskIdPart), st)
                | Some task =>
                    match updateTask (task_id task)
                            (mkTaskUpdate
                               (field "status" input)
                               (field "result" input)
                               (if strict_eq (field "status" input) "completed"
                                then Some (now st) else None))
                            st with
                    | (inl _, st') =>
                        (inl (lit "Task updated: " ++ task_description task
                              ++ lit " -> " ++ ToString (field "status" input)),
                         st')
                    | (inr error, st') => (inr error, st')
                    end
                end
            end).

End WorkflowAgent.


(** ** The team chat of the office (index.ts, [chatWithTeam]) *)

(** The keys of [AGENTS] and the [name] of each entry. *)
Definition agent_key (role : AgentRole) : jsstring :=
  match role with
  | orchestrator => lit "orchestrator"
  | dev => lit "dev"
  | research => lit "research"
  | comms => lit "comms"
  | workflow => lit "workflow"
  end.

Definition agent_name (role : AgentRole) : jsstring :=
  match role with
  | orchestrator => lit "Orchestrator"
  | dev => lit "Dev"
  | research => lit "Research"
  | comms => lit "Comms"
  | workflow => lit "Workflow"
  end.

(** What [AGENTS[key]] gives: one of the five entries, a value inherited
    from [Object.prototype] (truthy, and without an [Agent]), or
    [undefined]. *)
Inductive AgentsEntry : Type :=
| AgentInfo (role : AgentRole)
| InheritedValue
| NoEntry.

Definition AGENTS_lookup (key : jsstring) : AgentsEntry :=
  match find (fun role => jseqb key (agent_key role))
             [orchestrator; dev; research; comms; workflow] with
  | Some role => AgentInfo role
  | None => if inherited key then InheritedValue else NoEntry
  end.

Definition not_a_constructor : Exn :=
  ErrorObject (lit "agentInfo.Agent is not a constructor").

Section TeamChat.

(** [team role] is the configuration that the agent class of [role] passes
    to [BaseAgent]; the agents of one office share the backend and the
    session.  [toLowerCase] is [String.prototype.toLowerCase].  A call of
    [console.log] is recorded by its arguments, the colours left out. *)
Variables Input Env Backend : Type.
Variable create : Request Input -> Backend -> (Response Input + Exn) * Backend.
Variable team : AgentRole -> AgentConfig Input Env.
Variable toLowerCase : jsstring -> jsstring.

Definition thinking : list jsstring := [[10%N] ++ lit "Thinking..." ++ [10%N]].

Definition says (label text : jsstring) : list jsstring := [label; text].

Definition delegating (target : jsstring) : list jsstring :=
  [[10%N] ++ lit "[Delegating to " ++ target ++ lit " agent...]"].

Definition failed (error : Exn) : list jsstring :=
  [lit "Error: " ++ describe error].

(** One pass of [prompt] in [chatWithTeam] on the message that the user
    typed: [None] when the message is [back] in whatever case, on which
    [prompt] returns at once; otherwise what is printed, in order, before
    [prompt] calls itself again. *)
Definition chatWithTeam_turn (fuel : nat) (sessionId message : jsstring)
  : M Input Env Backend (option (list (list jsstring))) :=
  fun w =>
    if jseqb (toLowerCase message) (lit "back") then (Ok None, w)
    else
      match chat create fuel (team orchestrator) sessionId message w with
      | (Ok response, w1) =>
          let printed := [thinking; says (lit "Orchestrator:") (content response)] in
          match delegateTo response with
          | Some (c :: target) =>
              let printed := printed ++ [delegating (c :: target)] in
              match AGENTS_lookup (c :: target) with
              | AgentInfo role =>
                  match chat create fuel (team role) sessionId message w1 with
                  | (Ok delegatedResponse, w2) =>
                      (Ok (Some (printed
                                 ++ [says ([10%N] ++ agent_name role ++ lit ":")
                                          (content delegatedResponse);
                                     [[]]])),
                       w2)
                  | (Throw error, w2) => (Ok (Some (printed ++ [failed error])), w2)
                  | (OutOfFuel, w2) => (OutOfFuel, w2)
                  end
              | InheritedValue =>
                  (Ok (Some (printed ++ [failed not_a_constructor])), w1)
              | NoEntry => (Ok (Some (printed ++ [[[]]])), w1)
              end
          | _ => (Ok (Some (printed ++ [[[]]])), w1)
          end
      | (Throw error, w1) => (Ok (Some [thinking; failed error]), w1)
      | (OutOfFuel, w1) => (OutOfFuel, w1)
      end.

End TeamChat.


(** ** The research agent: text of a fetched page (agents/research-agent.ts)

    [fetch_url] turns the page into text with four global replacements, a
    [trim] and a [slice].  The first two expressions carry the [i] flag and
    a greedy star, which the fragment above lacks; their letters are ASCII,
    for which ignoring case is comparing after [a-z] is mapped to [A-Z]. *)

Definition upper_ascii (c : N) : N :=
  if ((97 <=? c) && (c <=? 122))%N then (c - 32)%N else c.

Fixpoint strip_prefix_ci (l s : jsstring) : option jsstring :=
  match l with
  | [] => Some s
  | a :: l' =>
      match s with
      | c :: s' =>
          if N.eqb (upper_ascii a) (upper_ascii c) then strip_prefix_ci l' s'
          else None
      | [] => None
      end
  end.

Inductive iitem : Type :=
| ICase (l : jsstring)             (* literal, case ignored *)
| IStar (cls : N -> bool)          (* cls*  *)
| ILazyStar (cls : N -> bool).     (* cls*? *)

(** A match anchored at the head of [s]: the text after it. *)
Fixpoint match_here_i (p : list iitem) (s : jsstring) : option jsstring :=
  match p with
  | [] => Some s
  | ICase l :: p' =>
      match strip_prefix_ci l s with
      | Some s' => match_here_i p' s'
      | None => None
      end
  | IStar cls :: p' => greedy_star cls (fun _ rest => match_here_i p' rest) [] s
  | ILazyStar cls :: p' => lazy_star cls (fun _ rest => match_here_i p' rest) [] s
  end.

(** [s.replace(re, replacement)] for a global [re] given by its anchored
    matcher and a replacement without [$]: as [remove_from], with the
    replacement put in the place of each match. *)
Fixpoint replace_from (m : jsstring -> option jsstring) (replacement : jsstring)
         (skip : nat) (s : jsstring) : jsstring :=
  match skip with
  | S k =>
      match s with
      | [] => []
      | _ :: s' => replace_from m replacement k s'
      end
  | 0 =>
      match m s with
      | Some rest =>
          let n := matched_length s rest in
          replacement ++
          match s with
          | [] => []
          | c :: s' =>
              (if Nat.eqb n 0 then [c] else [])
              ++ replace_from m replacement (pred n) s'
          end
      | None =>
          match s with
          | [] => []
          | c :: s' => c :: replace_from m replacement 0 s'
          end
      end
  end.

Definition String_replace (m : jsstring -> option jsstring)
           (replacement s : jsstring) : jsstring :=
  replace_from m replacement 0 s.

Definition regex_matcher (p : regex) (s : jsstring) : option jsstring :=
  option_map snd (match_here p [] s).

Definition not_gt (c : N) : bool := negb (N.eqb c 62).

Definition any_unit (c : N) : bool := true.

(** [/<script[^>]*>[\s\S]*?<\/script>/gi] and its sibling for [style] *)
Definition SCRIPT_element : list iitem :=
  [ICase (lit "<script"); IStar not_gt; ICase (lit ">"); ILazyStar any_unit;
   ICase (lit "</script>")].

Definition STYLE_element : list iitem :=
  [ICase (lit "<style"); IStar not_gt; ICase (lit ">"); ILazyStar any_unit;
   ICase (lit "</style>")].

(** [/<[^>]+>/g] and [/\s+/g] *)
Definition TAG : regex := [Lit (lit "<"); Plus not_gt false; Lit (lit ">")].

Definition SPACES : regex := [Plus white_space false].

(** The conversion in [fetch_url], applied to the body of the response. *)
Definition html_to_text (html : jsstring) : jsstring :=
  firstn 10000
    (trim
       (String_replace (regex_matcher SPACES) (lit " ")
          (String_replace (regex_matcher TAG) (lit " ")
             (String_replace (match_here_i STYLE_element) []
                (String_replace (match_here_i SCRIPT_element) [] html))))).

(** The text holds white space only as single spaces; [after_space] tells
    whether the unit before the text is a space. *)
Fixpoint single_spaced (after_space : bool) (s : jsstring) : bool :=
  match s with
  | [] => true
  | c :: s' =>
      if white_space c
      then N.eqb c 32 && negb after_space && single_spaced true s'
      else single_spaced false s'
  end.


(** The text after the first [>], when there is one. *)
Fixpoint after_gt (s : jsstring) : option jsstring :=
  match s with
  | [] => None
  | c :: s' => if N.eqb c 62 then Some s' else after_gt s'
  end.

(** No tag, as [TAG] understands it, starts anywhere in the text. *)
Fixpoint tag_free (s : jsstring) : bool :=
  match regex_matcher TAG s with
  | Some _ => false
  | None =>
      match s with
      | [] => true
      | _ :: s' => tag_free s'
      end
  end.


(** ** Fixtures for the workflow agent and the team chat

    A task list of two, an [updateTask] that bumps the clock of the store so
    that a write shows, and an office whose agents have no tools. *)

Definition sample_tasks : list Task :=
  [mkTask (lit "task_17_ab") (lit "Write the report") (lit "pending")
          None None 3 None;
   mkTask (lit "task_18_cd") (lit "Send the invoice") (lit "pending")
          (Some workflow) None 4 None].

Definition sample_getTasks (st : Store * unit) : list Task + Exn :=
  inl sample_tasks.

Definition sample_updateTask (id : jsstring) (update : TaskUpdate)
           (st : Store * unit) : (unit + Exn) * (Store * unit) :=
  (inl tt,
   (mkStore (S (clock (fst st))) (memories (fst st)) (preferences (fst st))
            (turns (fst st)),
    snd st)).

Definition sample_now (st : Store * unit) : nat := clock (fst st).

(** Lower case for ASCII letters, as [toLowerCase] gives on them. *)
Definition ascii_toLowerCase (s : jsstring) : jsstring :=
  map (fun c => if ((65 <=? c) && (c <=? 90))%N then (c + 32)%N else c) s.

Definition sample_team (role : AgentRole) : AgentConfig unit unit :=
  mkConfig (agent_name role) role (lit "An agent of the office")
           (lit "You are an agent.") None None.


(** ** The workflow agent: [list_tasks] (agents/workflow-agent.ts)

    The tool groups the tasks by status in a plain object, with the idiom
    that [buildSystemPrompt] uses for the categories, and prints the groups
    in the order of [Object.entries]. *)

(** The own properties of [grouped], in creation order. *)
Definition TaskGroups := list (jsstring * list Task).

Fixpoint status_own (k : jsstring) (o : TaskGroups) : option (list Task) :=
  match o with
  | [] => None
  | (k', v) :: o' => if jseqb k k' then Some v else status_own k o'
  end.

Fixpoint status_push (k : jsstring) (t : Task) (o : TaskGroups) : TaskGroups :=
  match o with
  | [] => []
  | (k', v) :: o' =>
      if jseqb k k' then (k', v ++ [t]) :: o' else (k', v) :: status_push k t o'
  end.

Definition status_push_TypeError : Exn :=
  ErrorObject (lit "acc[status].push is not a function").

(** The body of the [reduce] callback. *)
Definition status_step (acc : TaskGroups) (t : Task) : TaskGroups + Exn :=
  match status_own (task_status t) acc with
  | Some _ => inl (status_push (task_status t) t acc)
  | None =>
      if inherited (task_status t) then inr status_push_TypeError
      else inl (acc ++ [(task_status t, [t])])
  end.

Fixpoint group_by_status (tasks : list Task) (acc : TaskGroups)
  : TaskGroups + Exn :=
  match tasks with
  | [] => inl acc
  | t :: tasks' =>
      match status_step acc t with
      | inl acc' => group_by_status tasks' acc'
      | inr error => inr error
      end
  end.

(** [Object.entries(grouped)] *)
Definition status_entries (o : TaskGroups) : TaskGroups :=
  map snd
      (fold_right (@insert_index _) []
         (flat_map (fun kv => match array_index (fst kv) with
                              | Some n => [(n, kv)]
                              | None => []
                              end) o))
  ++ filter (fun kv => negb (is_array_index (fst kv))) o.

(** [s.slice(-n)] *)
Definition slice_last (n : nat) (s : jsstring) : jsstring :=
  skipn (length s - n) s.

Definition task_line (t : Task) : jsstring :=
  lit "- [" ++ slice_last 6 (task_id t) ++ lit "] " ++ task_description t
  ++ match task_assignedTo t with
     | Some role => lit " (@" ++ agent_key role ++ lit ")"
     | None => []
     end
  ++ [10%N].

Section WorkflowListTasks.

(** [getTasks status assignedTo] is the read of the missing
    memory/database.ts with its two filters, taken as it comes;
    [toUpperCase] is [String.prototype.toUpperCase]. *)
Variable Env : Type.
Variable schema : string -> ToolInput.
Variable getTasks : Value -> Value -> Store * Env -> list Task + Exn.
Variable toUpperCase : jsstring -> jsstring.

Definition status_section (kv : jsstring * list Task) : jsstring :=
  [10%N] ++ lit "## " ++ toUpperCase (fst kv) ++ [10%N]
  ++ flat_map task_line (snd kv).

Definition workflow_list_tasks : Tool ToolInput Env :=
  mkTool (lit "list_tasks") (lit "List tasks with optional filters")
         (schema "list_tasks")
         (fun input st =>
            match getTasks (field "status" input) (field "assignedTo" input) st with
            | inr error => (inr error, st)
            | inl [] => (inl (lit "No tasks found."), st)
            | inl tasks =>
                match group_by_status tasks [] with
                | inl grouped =>
                    (inl (flat_map status_section (status_entries grouped)), st)
                | inr error => (inr error, st)
                end
            end).

End WorkflowListTasks.

(** Tasks to list: two statuses, one of them an array index, and a status
    that every object inherits. *)
Definition listed_tasks : list Task :=
  [mkTask (lit "task_1700000000001_ab12cd") (lit "Write the report")
          (lit "pending") (Some comms) None 3 None;
   mkTask (lit "t2") (lit "Ship it") (lit "7") None None 4 None;
   mkTask (lit "task_1700000000003_ef34gh") (lit "Send the invoice")
          (lit "pending") None None 5 None].

Definition odd_task : Task :=
  mkTask (lit "t4") (lit "Odd one") (lit "constructor") None None 6 None.

(** Upper case for ASCII letters, as [toUpperCase] gives on them. *)
Definition ascii_toUpperCase (s : jsstring) : jsstring := map upper_ascii s.


(** ** Vocabulary of the statements about a whole turn

    Second definitions, written from the words of the statements and
    compared with the code in the theorems. *)

(** What the backend answers when it is asked the requests in order,
    starting in the state [b], and the state it is left in. *)
Fixpoint backend_replies (Input Backend : Type)
         (create : Request Input -> Backend -> (Response Input + Exn) * Backend)
         (requests : list (Request Input)) (b : Backend)
  : list (Response Input + Exn) * Backend :=
  match requests with
  | [] => ([], b)
  | request :: requests' =>
      (fst (create request b)
         :: fst (backend_replies create requests' (snd (create request b))),
       snd (backend_replies create requests' (snd (create request b))))
  end.

(** The calls whose tool is in the registry, run one after the other, each
    on the store and the environment that the one before left: every such
    call with what its tool returned or threw, and the store and the
    environment at the end. *)
Fixpoint sequential_outcomes (Input Env : Type) (config : AgentConfig Input Env)
         (toolCalls : list (ToolUseBlock Input)) (st : Store * Env)
  : list (ToolUseBlock Input * (jsstring + Exn)) * (Store * Env) :=
  match toolCalls with
  | [] => ([], st)
  | toolCall :: rest =>
      match find_tool config (tu_name toolCall) with
      | Some tool =>
          ((toolCall, fst (execute tool (tu_input toolCall) st))
             :: fst (sequential_outcomes config rest
                       (snd (execute tool (tu_input toolCall) st))),
           snd (sequential_outcomes config rest
                  (snd (execute tool (tu_input toolCall) st))))
      | None => sequential_outcomes config rest st
      end
  end.

(** The result block of a call: the text its tool returned, or, flagged
    [is_error], [Error: ] followed by the message of the error (by the
    string of any other thrown value). *)
Definition outcome_block (Input : Type)
           (outcome : ToolUseBlock Input * (jsstring + Exn))
  : ToolResultBlockParam :=
  match snd outcome with
  | inl result => mkToolResult (tu_id (fst outcome)) result None
  | inr (ErrorObject message) =>
      mkToolResult (tu_id (fst outcome)) (lit "Error: " ++ message) (Some true)
  | inr (ThrownValue rendering) =>
      mkToolResult (tu_id (fst outcome)) (lit "Error: " ++ rendering) (Some true)
  end.

(** The store and the environment after the tools that the responses asked
    for have run, response after response. *)
Definition after_tools (Input Env : Type) (config : AgentConfig Input Env)
           (responses : list (Response Input)) (st : Store * Env) : Store * Env :=
  fold_left (fun st response =>
               snd (sequential_outcomes config
                      (tool_use_blocks (resp_content response)) st))
            responses st.

Definition is_text (Input : Type) (b : ContentBlock Input) : bool :=
  match b with text_block _ _ => true | _ => false end.

(** [text] is the text of the first text block among [blocks], and the
    empty string when there is none. *)
Definition first_text (Input : Type) (blocks : list (ContentBlock Input))
           (text : jsstring) : Prop :=
  (exists before after,
      blocks = before ++ text_block Input text :: after
      /\ forallb (fun b => negb (is_text b)) before = true)
  \/ (forallb (fun b => negb (is_text b)) blocks = true /\ text = []).

(** The record that the extraction makes of a match of the memory
    expression. *)
Definition memory_record (role : AgentRole) (m : MatchResult) : MemoryInput :=
  mkMemoryInput (group 1 m) (group 2 m) [] (Some role).


(** ** Worlds to run whole turns in *)

(** The backend asks for [echo] and for the failing tool in one round,
    then gives a final answer that delegates and remembers. *)
Definition tools_then_answer : World unit unit (list (Response unit)) :=
  sample_world
    [asks [call "t1" "echo"; call "t2" "fail"];
     mkResponse end_turn
       [tool_use_block (call "t9" "echo");
        text_block unit
          (lit " Done. [REMEMBER:fact|a] [DELEGATE:research] [REMEMBER:task|b] ");
        text_block unit (lit "second block")]].

Definition tools_then_answer_text : jsstring :=
  lit " Done. [REMEMBER:fact|a] [DELEGATE:research] [REMEMBER:task|b] ".

(** * Properties *)

Unset Implicit Arguments.

(** ** Strings *)

Lemma jseqb_true (a b : jsstring) : jseqb a b = true <-> a = b.
Proof.
  unfold jseqb. destruct (list_eq_dec N.eq_dec a b); split; congruence.
Qed.

Lemma jseqb_refl (a : jsstring) : jseqb a a = true.
Proof. now apply jseqb_true. Qed.

Lemma strip_prefix_Some (l s r : jsstring) :
  strip_prefix l s = Some r <-> s = l ++ r.
Proof.
  revert s. induction l as [|a l IH]; intros s; simpl.
  - split; congruence.
  - destruct s as [|c s].
    + split; discriminate.
    + destruct (N.eqb_spec a c) as [->|Hne].
      * rewrite IH. split; congruence.
      * split; [discriminate | congruence].
Qed.

Lemma trimStart_fixed (s : jsstring) :
  (forall c s', s = c :: s' -> white_space c = false) -> trimStart s = s.
Proof.
  destruct s as [|c s']; simpl; intros H; [reflexivity|].
  now rewrite (H c s' eq_refl).
Qed.

Lemma trimStart_head (s c : jsstring) (x : N) :
  trimStart s = x :: c -> white_space x = false.
Proof.
  induction s as [|a s IH]; simpl; [discriminate|].
  destruct (white_space a) eqn:E; [exact IH|].
  intros H. injection H as -> _. exact E.
Qed.

Lemma trimStart_idem (s : jsstring) : trimStart (trimStart s) = trimStart s.
Proof.
  apply trimStart_fixed. intros c s' H. eapply trimStart_head; eauto.
Qed.

(** Trimming the front of a text that ends in a code unit which is not
    white space leaves that ending in place. *)
Lemma trimStart_keeps_last (s : jsstring) (x : N) :
  white_space x = false -> exists t, trimStart (s ++ [x]) = t ++ [x].
Proof.
  intros Hx. induction s as [|a s IH]; simpl.
  - rewrite Hx. now exists [].
  - destruct (white_space a).
    + exact IH.
    + now exists (a :: s).
Qed.

Lemma trimEnd_idem (s : jsstring) : trimEnd (trimEnd s) = trimEnd s.
Proof.
  unfold trimEnd. rewrite rev_involutive. now rewrite trimStart_idem.
Qed.

Lemma trimStart_trimEnd (s : jsstring) :
  (forall c s', s = c :: s' -> white_space c = false) ->
  trimStart (trimEnd s) = trimEnd s.
Proof.
  intros H. destruct s as [|c s']; [reflexivity|].
  pose proof (H c s' eq_refl) as Hc.
  unfold trimEnd. simpl rev.
  destruct (trimStart_keeps_last (rev s') c Hc) as [t Ht].
  rewrite Ht, rev_app_distr. simpl. now rewrite Hc.
Qed.

Lemma trim_idem (s : jsstring) : trim (trim s) = trim s.
Proof.
  unfold trim.
  rewrite (trimStart_trimEnd (trimStart s)).
  - apply trimEnd_idem.
  - intros c s' H. eapply trimStart_head; eauto.
Qed.

(** ** The matcher *)

Section MatcherFacts.
Variable R : Type.
Variable cls : N -> bool.
Variable k : jsstring -> jsstring -> option R.

(** A greedy run that succeeds consumed class members only and then the
    continuation succeeded. *)
Lemma greedy_star_sound (s acc : jsstring) (r : R) :
  greedy_star cls k acc s = Some r ->
  exists m rest, s = m ++ rest /\ forallb cls m = true
                 /\ k (rev acc ++ m) rest = Some r.
Proof.
  revert acc. induction s as [|c s IH]; intros acc; simpl.
  - intros H. exists [], []. simpl; rewrite ?app_nil_r; repeat split; trivial.
  - destruct (cls c) eqn:Hc.
    + destruct (greedy_star cls k (c :: acc) s) as [r'|] eqn:Hg.
      * intros H. injection H as <-.
        destruct (IH _ Hg) as (m & rest & -> & Hm & Hk).
        exists (c :: m), rest. simpl. rewrite Hc, Hm.
        simpl in Hk. rewrite <- app_assoc in Hk. now repeat split.
      * intros H. exists [], (c :: s). simpl; rewrite ?app_nil_r; repeat split; trivial.
    + intros H. exists [], (c :: s). simpl; rewrite ?app_nil_r; repeat split; trivial.
Qed.

(** A lazy run that succeeds stopped at the first place where the
    continuation succeeds. *)
Lemma lazy_star_sound (s acc : jsstring) (r : R) :
  lazy_star cls k acc s = Some r ->
  exists m rest, s = m ++ rest /\ forallb cls m = true
                 /\ k (rev acc ++ m) rest = Some r
                 /\ forall m1 m2, m = m1 ++ m2 -> m2 <> [] ->
                                  k (rev acc ++ m1) (m2 ++ rest) = None.
Proof.
  revert acc. induction s as [|c s IH]; intros acc; simpl.
  - destruct (k (rev acc) []) as [r'|] eqn:Hk; [|discriminate].
    intros H. injection H as <-. exists [], []. simpl; rewrite ?app_nil_r.
    repeat split; trivial.
    intros m1 m2 Hm Hne. destruct m1; destruct m2; try discriminate. congruence.
  - destruct (k (rev acc) (c :: s)) as [r'|] eqn:Hk.
    + intros H. injection H as <-. exists [], (c :: s). simpl; rewrite ?app_nil_r.
      repeat split; trivial.
      intros m1 m2 Hm Hne. destruct m1; destruct m2; try discriminate. congruence.
    + destruct (cls c) eqn:Hc; [|discriminate].
      intros H. destruct (IH _ H) as (m & rest & -> & Hm & Hr & Hmin).
      exists (c :: m), rest. simpl. rewrite Hc, Hm.
      simpl in Hr. rewrite <- app_assoc in Hr. repeat split; trivial.
      intros m1 m2 Hsplit Hne. destruct m1 as [|x m1].
      * simpl in Hsplit. subst m2. rewrite app_nil_r. exact Hk.
      * simpl in Hsplit. injection Hsplit as <- ->.
        specialize (Hmin m1 m2 eq_refl Hne).
        simpl in Hmin. rewrite <- app_assoc in Hmin. exact Hmin.
Qed.

End MatcherFacts.

(** Whether and where a match ends does not depend on the capture groups. *)
Lemma greedy_star_rest (cls : N -> bool)
      (k1 k2 : jsstring -> jsstring -> option (list jsstring * jsstring)) :
  (forall m rest, option_map snd (k1 m rest) = option_map snd (k2 m rest)) ->
  forall s acc, option_map snd (greedy_star cls k1 acc s)
                = option_map snd (greedy_star cls k2 acc s).
Proof.
  intros Hk. induction s as [|c s IH]; intros acc; simpl.
  - apply Hk.
  - destruct (cls c); [|apply Hk].
    specialize (IH (c :: acc)).
    destruct (greedy_star cls k1 (c :: acc) s), (greedy_star cls k2 (c :: acc) s);
      simpl in IH; try discriminate; simpl; trivial.
Qed.

Lemma lazy_star_rest (cls : N -> bool)
      (k1 k2 : jsstring -> jsstring -> option (list jsstring * jsstring)) :
  (forall m rest, option_map snd (k1 m rest) = option_map snd (k2 m rest)) ->
  forall s acc, option_map snd (lazy_star cls k1 acc s)
                = option_map snd (lazy_star cls k2 acc s).
Proof.
  intros Hk. induction s as [|c s IH]; intros acc; simpl.
  - specialize (Hk (rev acc) []).
    destruct (k1 (rev acc) []), (k2 (rev acc) []); simpl in Hk;
      try discriminate; simpl; trivial.
  - specialize (Hk (rev acc) (c :: s)).
    destruct (k1 (rev acc) (c :: s)), (k2 (rev acc) (c :: s)); simpl in Hk;
      try discriminate; simpl; trivial.
    destruct (cls c); [apply IH | reflexivity].
Qed.

Lemma match_here_erase (p : regex) :
  forall caps caps' s,
    option_map snd (match_here (erase p) caps' s)
    = option_map snd (match_here p caps s).
Proof.
  induction p as [|it p IH]; intros caps caps' s; simpl.
  - reflexivity.
  - destruct it as [l|cls cap|cls cap]; simpl.
    + destruct (strip_prefix l s); [apply IH | reflexivity].
    + destruct s as [|c s]; [reflexivity|].
      destruct (cls c); [|reflexivity].
      apply greedy_star_rest. intros m rest. apply IH.
    + apply lazy_star_rest. intros m rest. apply IH.
Qed.

Lemma match_here_erase_None (p : regex) (s : jsstring) :
  match_here p [] s = None <-> match_here (erase p) [] s = None.
Proof.
  pose proof (match_here_erase p [] [] s) as H.
  destruct (match_here p [] s), (match_here (erase p) [] s);
    simpl in H; split; congruence.
Qed.

Lemma match_here_erase_Some (p : regex) (s rest : jsstring) (caps : list jsstring) :
  match_here p [] s = Some (caps, rest) ->
  exists caps', match_here (erase p) [] s = Some (caps', rest).
Proof.
  intros Hm. pose proof (match_here_erase p [] [] s) as H. rewrite Hm in H.
  destruct (match_here (erase p) [] s) as [[caps' rest']|]; simpl in H;
    [|discriminate].
  injection H as ->. now exists caps'.
Qed.

Lemma DELEGATE_plain_erase : DELEGATE_plain = erase DELEGATE_capture.
Proof. reflexivity. Qed.

Lemma REMEMBER_plain_erase : REMEMBER_plain = erase REMEMBER_capture.
Proof. reflexivity. Qed.

(** ** Searching, listing and deleting matches *)

Lemma search_None (p : regex) (s : jsstring) :
  forall i, search p i s = None ->
            match_here p [] s = None
            /\ match s with [] => True | _ :: s' => search p (S i) s' = None end.
Proof.
  intros i. destruct s as [|c s]; simpl;
    destruct (match_here p [] _) as [[caps rest]|]; try discriminate; auto.
Qed.

Lemma search_shift (p : regex) (s : jsstring) :
  forall i j, search p i s = None -> search p j s = None.
Proof.
  induction s as [|c s IH]; intros i j; simpl;
    destruct (match_here p [] _) as [[caps rest]|]; try discriminate; auto.
  apply IH.
Qed.

(** Without a match there is nothing to list and nothing to delete. *)
Lemma matchAll_from_no_match (p : regex) (s : jsstring) :
  forall i, search p i s = None -> matchAll_from p i 0 s = [].
Proof.
  induction s as [|c s IH]; intros i H; apply search_None in H as [Hm Hs];
    simpl; rewrite Hm; auto.
Qed.

Lemma remove_from_no_match (p : regex) (s : jsstring) :
  forall i, search p i s = None -> remove_from (erase p) 0 s = s.
Proof.
  induction s as [|c s IH]; intros i H; apply search_None in H as [Hm Hs];
    apply match_here_erase_None in Hm; simpl; rewrite Hm; auto.
  f_equal. eauto.
Qed.

(** [match] returns the first of the matches that [matchAll] lists. *)
Lemma search_first_of_all (p : regex) (s : jsstring) :
  forall i, search p i s = hd_error (matchAll_from p i 0 s).
Proof.
  induction s as [|c s IH]; intros i; simpl;
    destruct (match_here p [] _) as [[caps rest]|]; auto.
Qed.

(** A match is a prefix of the text it was looked for in. *)
Lemma match_here_prefix (p : regex) :
  forall caps s caps' rest,
    match_here p caps s = Some (caps', rest) -> exists m, s = m ++ rest.
Proof.
  induction p as [|it p IH]; intros caps s caps' rest; simpl.
  - intros H. injection H as _ ->. now exists [].
  - destruct it as [l|cls cap|cls cap].
    + destruct (strip_prefix l s) as [s'|] eqn:Hl; [|discriminate].
      apply strip_prefix_Some in Hl as ->. intros H.
      destruct (IH _ _ _ _ H) as [m ->]. exists (l ++ m). now rewrite app_assoc.
    + destruct s as [|c s]; [discriminate|].
      destruct (cls c); [|discriminate]. intros H.
      apply greedy_star_sound in H as (m & r1 & -> & _ & H).
      destruct (IH _ _ _ _ H) as [m' ->].
      exists (c :: m ++ m'). simpl. now rewrite app_assoc.
    + intros H. apply lazy_star_sound in H as (m & r1 & -> & _ & H & _).
      destruct (IH _ _ _ _ H) as [m' ->].
      exists (m ++ m'). now rewrite app_assoc.
Qed.

Lemma matched_text (m rest : jsstring) :
  firstn (matched_length (m ++ rest) rest) (m ++ rest) = m.
Proof.
  unfold matched_length. rewrite length_app, Nat.add_sub.
  rewrite firstn_app, Nat.sub_diag, firstn_all. simpl. apply app_nil_r.
Qed.

(** Every match that [matchAll] lists is an anchored match at its index. *)
Lemma matchAll_from_In (p : regex) (s : jsstring) :
  forall i skip m,
    In m (matchAll_from p i skip s) ->
    exists pre text rest,
      s = pre ++ text ++ rest /\ index m = i + length pre
      /\ skip <= length pre
      /\ match_here p [] (text ++ rest) = Some (groups m, rest)
      /\ matched m = text.
Proof.
  induction s as [|c s IH]; intros i skip m.
  - destruct skip; simpl; [|contradiction].
    destruct (match_here p [] []) as [[caps rest]|] eqn:Hm; [|contradiction].
    intros [<-|[]]. destruct (match_here_prefix _ _ _ _ _ Hm) as [t Ht].
    symmetry in Ht. apply app_eq_nil in Ht as [-> ->].
    exists [], [], []. simpl. rewrite Nat.add_0_r. auto.
  - destruct skip as [|skip]; simpl.
    + destruct (match_here p [] (c :: s)) as [[caps rest]|] eqn:Hm.
      * intros [<-|Hin].
        -- destruct (match_here_prefix _ _ _ _ _ Hm) as [t Ht].
           exists [], t, rest. simpl. rewrite Nat.add_0_r, Ht, matched_text.
           rewrite <- Ht. auto.
        -- destruct (IH _ _ _ Hin) as (pre & text & r & -> & Hi & _ & Hh & Ht).
           exists (c :: pre), text, r. simpl. repeat split; trivial; lia.
      * intros Hin.
        destruct (IH _ _ _ Hin) as (pre & text & r & -> & Hi & _ & Hh & Ht).
        exists (c :: pre), text, r. simpl. repeat split; trivial; lia.
    + intros Hin.
      destruct (IH _ _ _ Hin) as (pre & text & r & -> & Hi & Hs & Hh & Ht).
      exists (c :: pre), text, r. simpl. repeat split; trivial; lia.
Qed.

Lemma matchAll_from_index (p : regex) (s : jsstring) (i skip : nat) (m : MatchResult) :
  In m (matchAll_from p i skip s) -> i + skip <= index m.
Proof.
  intros H. apply matchAll_from_In in H as (pre & _ & _ & _ & Hi & Hs & _). lia.
Qed.

Lemma keep_from_ext (f g : nat -> bool) (s : jsstring) :
  forall i, (forall j, i <= j -> f j = g j) -> keep_from f i s = keep_from g i s.
Proof.
  induction s as [|c s IH]; intros i H; simpl; [reflexivity|].
  rewrite (H i (le_n i)). f_equal. apply IH. intros j Hj. apply H. lia.
Qed.

Lemma no_span_before (ms : list MatchResult) (b j : nat) :
  (forall m, In m ms -> b <= index m) -> j < b ->
  existsb (in_span j) (map span ms) = false.
Proof.
  intros Hb Hj. induction ms as [|m ms IH]; simpl; [reflexivity|].
  rewrite IH by (intros; apply Hb; now right).
  unfold in_span, span. simpl.
  specialize (Hb m (or_introl eq_refl)).
  destruct (Nat.leb_spec (index m) j); [lia | reflexivity].
Qed.

(** Deleting every match of the global expression is deleting the spans of
    the matches that [matchAll] lists. *)
Lemma remove_from_spans (p : regex) (s : jsstring) :
  forall i skip,
    remove_from (erase p) skip s
    = keep_from (fun j => negb (Nat.ltb j (i + skip))
                          && negb (existsb (in_span j)
                                     (map span (matchAll_from p i skip s))))
                i s.
Proof.
  induction s as [|c s IH]; intros i skip.
  - destruct skip; simpl; [|reflexivity].
    now destruct (match_here (erase p) [] []) as [[caps rest]|].
  - destruct skip as [|skip].
    + cbn [remove_from matchAll_from keep_from].
      destruct (match_here p [] (c :: s)) as [[caps rest]|] eqn:Hm.
      * destruct (match_here_erase_Some _ _ _ _ Hm) as [caps' ->].
        destruct (match_here_prefix _ _ _ _ _ Hm) as [t Ht].
        set (n := matched_length (c :: s) rest).
        assert (Hlen : length (firstn n (c :: s)) = n).
        { subst n. rewrite Ht, matched_text. unfold matched_length.
          rewrite length_app. lia. }
        assert (Htail : existsb (in_span i)
                          (map span (matchAll_from p (S i) (pred n) s)) = false).
        { apply no_span_before with (b := S i); [|lia].
          intros m Hin. apply matchAll_from_index in Hin. lia. }
        cbn [map existsb]. unfold span at 1, in_span at 1. cbn [index matched fst snd].
        rewrite Hlen, Htail, Nat.add_0_r, Nat.ltb_irrefl, Nat.leb_refl.
        cbn [negb andb orb]. rewrite orb_false_r.
        f_equal.
        -- destruct (Nat.ltb_spec i (i + n)), (Nat.eqb_spec n 0);
             try reflexivity; lia.
        -- rewrite (IH (S i) (pred n)). apply keep_from_ext. intros j Hj.
           unfold span at 2, in_span at 2. cbn [index matched fst snd].
           rewrite Hlen.
           destruct (Nat.ltb_spec j i); [lia|].
           destruct (Nat.leb_spec i j); [|lia].
           destruct (Nat.ltb_spec j (S i + pred n)), (Nat.ltb_spec j (i + n));
             cbn; try reflexivity; lia.
      * apply match_here_erase_None in Hm. rewrite Hm.
        assert (Htail : existsb (in_span i)
                          (map span (matchAll_from p (S i) 0 s)) = false).
        { apply no_span_before with (b := S i); [|lia].
          intros m Hin. apply matchAll_from_index in Hin. lia. }
        rewrite Htail, Nat.add_0_r, Nat.ltb_irrefl. cbn [negb andb app].
        f_equal. rewrite (IH (S i) 0). apply keep_from_ext. intros j Hj.
        destruct (Nat.ltb_spec j i), (Nat.ltb_spec j (S i + 0));
          try reflexivity; lia.
    + cbn [remove_from matchAll_from keep_from].
      destruct (Nat.ltb_spec i (i + S skip)); [|lia]. cbn [negb andb app].
      rewrite (IH (S i) skip). apply keep_from_ext. intros j Hj.
      replace (i + S skip) with (S i + skip) by lia. reflexivity.
Qed.

Lemma String_replace_empty_spans (p : regex) (s : jsstring) :
  String_replace_empty (erase p) s
  = delete_spans (map span (String_matchAll p s)) s.
Proof.
  unfold String_replace_empty, delete_spans, String_matchAll.
  rewrite (remove_from_spans p s 0 0). apply keep_from_ext. intros j _.
  reflexivity.
Qed.

(** ** The two directives *)

(** An anchored match of the delegation expression is a delegation
    directive whose token is the capture. *)
Lemma match_DELEGATE (s rest : jsstring) (caps : list jsstring) :
  match_here DELEGATE_capture [] s = Some (caps, rest) ->
  exists token, caps = [token] /\ word_token token
                /\ s = delegate_directive token ++ rest.
Proof.
  unfold DELEGATE_capture. cbn [match_here].
  destruct (strip_prefix (lit "[DELEGATE:") s) as [s1|] eqn:H1; [|discriminate].
  apply strip_prefix_Some in H1 as ->.
  destruct s1 as [|c s1]; [discriminate|].
  destruct (word_char c) eqn:Hc; [|discriminate].
  intros H. apply greedy_star_sound in H as (m & r1 & -> & Hm & H).
  destruct (strip_prefix (lit "]") r1) as [r2|] eqn:H2; [|discriminate].
  apply strip_prefix_Some in H2 as ->.
  injection H as <- <-. exists (c :: m). repeat split.
  - discriminate.
  - simpl. now rewrite Hc, Hm.
  - unfold delegate_directive. now rewrite <- !app_assoc.
Qed.

(** An anchored match of the memory expression is a memory directive whose
    kind and text are the two captures. *)
Lemma match_REMEMBER (s rest : jsstring) (caps : list jsstring) :
  match_here REMEMBER_capture [] s = Some (caps, rest) ->
  exists kind text, caps = [kind; text] /\ word_token kind /\ free_text text
                    /\ s = remember_directive kind text ++ rest.
Proof.
  unfold REMEMBER_capture. cbn [match_here].
  destruct (strip_prefix (lit "[REMEMBER:") s) as [s1|] eqn:H1; [|discriminate].
  apply strip_prefix_Some in H1 as ->.
  destruct s1 as [|c s1]; [discriminate|].
  destruct (word_char c) eqn:Hc; [|discriminate].
  intros H. apply greedy_star_sound in H as (m & r1 & -> & Hm & H).
  destruct (strip_prefix (lit "|") r1) as [r2|] eqn:H2; [|discriminate].
  apply strip_prefix_Some in H2 as ->.
  apply lazy_star_sound in H as (t & r3 & -> & Ht & H & Hmin).
  destruct (strip_prefix (lit "]") r3) as [r4|] eqn:H4; [|discriminate].
  apply strip_prefix_Some in H4 as ->.
  injection H as <- <-. exists (c :: m), t. repeat split.
  - discriminate.
  - simpl. now rewrite Hc, Hm.
  - exact Ht.
  - intros Hin. apply in_split in Hin as (t1 & t2 & ->).
    specialize (Hmin t1 (93%N :: t2) eq_refl ltac:(discriminate)).
    assert (E : strip_prefix (lit "]") ((93%N :: t2) ++ lit "]" ++ r4)
                = Some (t2 ++ lit "]" ++ r4))
      by (apply strip_prefix_Some; reflexivity).
    rewrite E in Hmin. discriminate.
  - unfold remember_directive. change (lit "]") with [93%N].
    change (lit "|") with [124%N]. simpl.
    repeat (rewrite <- app_assoc; simpl). reflexivity.
Qed.

(** ** [parseResponse] *)

(** C5. [parseResponse] on
    ["Done. [DELEGATE:dev] [REMEMBER:preference|likes terse replies]"] gives
    the visible text ["Done."], the delegation target ["dev"] and exactly
    one memory record, of kind [preference], with the content
    ["likes terse replies"], empty metadata and the current role. *)
Theorem parseResponse_delegation_example (role : AgentRole) :
  parseResponse role
    (lit "Done. [DELEGATE:dev] [REMEMBER:preference|likes terse replies]")
  = mkAgentResponse
      (lit "Done.")
      (Some (lit "dev"))
      (Some [mkMemoryInput (lit "preference") (lit "likes terse replies")
                           [] (Some role)]).
Proof. reflexivity. Qed.

(** C6, as amended.  Every memory record that the extraction protocol
    creates comes from a memory directive of the final text: its kind is the
    directive's word token (one or more word characters), its content is the
    directive's free text, which holds no closing bracket and no line
    terminator and may be empty, its metadata is empty and it carries the
    current role. *)
Theorem parseResponse_memory_origin (role : AgentRole) (text : jsstring)
      (ms : list MemoryInput) (m : MemoryInput) :
  memoriesToStore (parseResponse role text) = Some ms -> In m ms ->
  exists before after,
    text = before ++ remember_directive (mem_type m) (mem_content m) ++ after
    /\ word_token (mem_type m) /\ free_text (mem_content m)
    /\ mem_metadata m = [] /\ mem_agentRole m = Some role.
Proof.
  unfold parseResponse. cbn [memoriesToStore].
  destruct (Nat.ltb 0 _); [|discriminate].
  intros H Hin. injection H as <-.
  apply in_map_iff in Hin as (mr & <- & Hin).
  apply matchAll_from_In in Hin as (pre & t & rest & -> & _ & _ & Hm & _).
  apply match_REMEMBER in Hm as (kind & txt & Hg & Hk & Ht & Heq).
  unfold group. rewrite Hg. cbn [nth pred mem_type mem_content mem_metadata mem_agentRole].
  exists pre, rest. rewrite Heq. auto.
Qed.

Lemma parseResponse_memory_origin_witness :
  exists before after,
    lit "ok [REMEMBER:fact|the sky is blue]"
    = before ++ remember_directive (lit "fact") (lit "the sky is blue") ++ after
    /\ word_token (lit "fact") /\ free_text (lit "the sky is blue")
    /\ @nil (jsstring * jsstring) = [] /\ Some research = Some research.
Proof.
  apply (parseResponse_memory_origin research
           (lit "ok [REMEMBER:fact|the sky is blue]")
           [mkMemoryInput (lit "fact") (lit "the sky is blue") [] (Some research)]
           (mkMemoryInput (lit "fact") (lit "the sky is blue") [] (Some research))).
  - reflexivity.
  - simpl. left. reflexivity.
Defined.

(** C6, as stated, fails: the free text of a directive may be empty, and
    the record made from [[REMEMBER:fact|]] has the empty content. *)
Lemma parseResponse_memory_empty_content :
  ~ (forall role text ms m,
        memoriesToStore (parseResponse role text) = Some ms -> In m ms ->
        mem_content m <> []).
Proof.
  intros H.
  apply (H orchestrator (lit "[REMEMBER:fact|]")
           [mkMemoryInput (lit "fact") [] [] (Some orchestrator)]
           (mkMemoryInput (lit "fact") [] [] (Some orchestrator))).
  - reflexivity.
  - left. reflexivity.
  - reflexivity.
Qed.

(** A text in which neither expression matches is returned trimmed, with no
    delegation target and no memory record. *)
Lemma parseResponse_no_directive (role : AgentRole) (text : jsstring) :
  String_match DELEGATE_capture text = None ->
  String_match REMEMBER_capture text = None ->
  parseResponse role text = mkAgentResponse (trim text) None None.
Proof.
  unfold String_match. intros Hd Hr. unfold parseResponse.
  unfold String_match, String_matchAll, String_replace_empty.
  rewrite Hd, (matchAll_from_no_match _ _ _ Hr).
  rewrite DELEGATE_plain_erase, (remove_from_no_match _ _ _ Hd).
  rewrite REMEMBER_plain_erase, (remove_from_no_match _ _ _ Hr).
  reflexivity.
Qed.

(** C3, as amended.  When neither directive expression matches in the
    visible text that [parseResponse] produced, applying [parseResponse] to
    that visible text returns the same visible text, no delegation target
    and no memory records. *)
Theorem parseResponse_idempotent_when_clean (role : AgentRole) (text : jsstring) :
  String_match DELEGATE_capture (content (parseResponse role text)) = None ->
  String_match REMEMBER_capture (content (parseResponse role text)) = None ->
  parseResponse role (content (parseResponse role text))
  = mkAgentResponse (content (parseResponse role text)) None None.
Proof.
  intros Hd Hr. rewrite (parseResponse_no_directive _ _ Hd Hr).
  f_equal. unfold parseResponse. cbn [content]. apply trim_idem.
Qed.

Lemma parseResponse_idempotent_when_clean_witness :
  parseResponse dev
    (content (parseResponse dev (lit "  Done. [DELEGATE:research] [REMEMBER:task|x] ")))
  = mkAgentResponse
      (content (parseResponse dev (lit "  Done. [DELEGATE:research] [REMEMBER:task|x] ")))
      None None.
Proof.
  apply (parseResponse_idempotent_when_clean dev
           (lit "  Done. [DELEGATE:research] [REMEMBER:task|x] ")).
  - reflexivity.
  - reflexivity.
Defined.

(** C3, as stated, fails: deleting a directive can join the text on its two
    sides into a new directive.  [[DELE[DELEGATE:x]GATE:dev]] becomes
    [[DELEGATE:dev]], which a second application honours and deletes. *)
Lemma parseResponse_not_idempotent :
  ~ (forall role text,
        parseResponse role (content (parseResponse role text))
        = mkAgentResponse (content (parseResponse role text)) None None).
Proof.
  intros H. specialize (H orchestrator (lit "[DELE[DELEGATE:x]GATE:dev]")).
  apply (f_equal (@delegateTo)) in H. vm_compute in H. discriminate.
Qed.

(** C8.  When the text holds one or more matches of the delegation
    expression, [delegateTo] is the token of the first one, and the visible
    text is made from the text with the span of every one of them deleted;
    each match is a delegation directive of the text, at its index. *)
Theorem parseResponse_delegate_first_all_removed
        (role : AgentRole) (text : jsstring) (m : MatchResult)
        (ms : list MatchResult) :
  String_matchAll DELEGATE_capture text = m :: ms ->
  delegateTo (parseResponse role text) = Some (group 1 m)
  /\ String_replace_empty DELEGATE_plain text
     = delete_spans (map span (m :: ms)) text
  /\ content (parseResponse role text)
     = trim (String_replace_empty REMEMBER_plain
               (delete_spans (map span (m :: ms)) text))
  /\ Forall (fun d =>
               word_token (group 1 d)
               /\ matched d = delegate_directive (group 1 d)
               /\ exists before after,
                   text = before ++ matched d ++ after
                   /\ index d = length before)
            (m :: ms).
Proof.
  intros Hall.
  assert (Hrm : String_replace_empty DELEGATE_plain text
                = delete_spans (map span (m :: ms)) text).
  { rewrite DELEGATE_plain_erase, String_replace_empty_spans. now rewrite Hall. }
  repeat split.
  - unfold parseResponse. cbn [delegateTo]. unfold String_match.
    rewrite search_first_of_all. unfold String_matchAll in Hall.
    now rewrite Hall.
  - exact Hrm.
  - unfold parseResponse. cbn [content]. now rewrite Hrm.
  - rewrite <- Hall. apply Forall_forall. intros d Hd.
    apply matchAll_from_In in Hd as (pre & t & rest & -> & Hi & _ & Hm & Ht).
    apply match_DELEGATE in Hm as (token & Hg & Hw & Heq).
    apply app_inv_tail in Heq. unfold group. rewrite Hg. cbn [pred nth].
    repeat split; try apply Hw; try congruence.
    exists pre, rest. rewrite Ht. split; [reflexivity | exact Hi].
Qed.

Lemma parseResponse_delegate_first_all_removed_witness :
  String_matchAll DELEGATE_capture (lit "a[DELEGATE:dev]b [DELEGATE:research] c")
  = [mkMatch 1 (lit "[DELEGATE:dev]") [lit "dev"];
     mkMatch 17 (lit "[DELEGATE:research]") [lit "research"]]
  /\ delegateTo (parseResponse orchestrator
                   (lit "a[DELEGATE:dev]b [DELEGATE:research] c"))
     = Some (lit "dev")
  /\ content (parseResponse orchestrator
                (lit "a[DELEGATE:dev]b [DELEGATE:research] c"))
     = lit "ab  c".
Proof.
  split; [reflexivity|].
  pose proof (parseResponse_delegate_first_all_removed orchestrator
                (lit "a[DELEGATE:dev]b [DELEGATE:research] c")
                (mkMatch 1 (lit "[DELEGATE:dev]") [lit "dev"])
                [mkMatch 17 (lit "[DELEGATE:research]") [lit "research"]]
                eq_refl) as H.
  split; [apply H | rewrite (proj1 (proj2 (proj2 H))); reflexivity].
Defined.

(** ** [buildSystemPrompt] *)

Lemma reduce_group_plain (ps : list UserPreference) :
  forallb (fun p => negb (inherited (pref_category p))) ps = true ->
  forall acc, exists grouped, reduce_group ps acc = Ok grouped.
Proof.
  induction ps as [|p ps IH]; intros H acc; simpl.
  - now exists acc.
  - simpl in H. apply andb_true_iff in H as [Hp Hps].
    unfold group_step. destruct (own (pref_category p) acc).
    + now apply IH.
    + apply negb_true_iff in Hp. rewrite Hp. now apply IH.
Qed.

(** With plain categories the prompt is built. *)
Lemma buildSystemPrompt_of_plain (prompt : jsstring) (role : AgentRole) (s : Store) :
  plain_categories s -> exists sys, buildSystemPrompt_of prompt role s = Ok sys.
Proof.
  intros H. unfold buildSystemPrompt_of, getAllPreferences.
  destruct (Nat.ltb 0 (length (preferences s))); [|eauto].
  destruct (reduce_group_plain _ H []) as [g ->]. eauto.
Qed.

Lemma jseqb_false (a b : jsstring) : jseqb a b = false <-> a <> b.
Proof.
  unfold jseqb. destruct (list_eq_dec N.eq_dec a b); split; congruence.
Qed.

Lemma own_push_to (c k : jsstring) (p : UserPreference) (o : Grouped) :
  own c (push_to k p o)
  = if jseqb c k then option_map (fun v => v ++ [p]) (own c o) else own c o.
Proof.
  induction o as [|[k' v] o IH]; simpl.
  - now destruct (jseqb c k).
  - destruct (jseqb k k') eqn:Ek; simpl.
    + apply jseqb_true in Ek as <-. now destruct (jseqb c k).
    + rewrite IH. destruct (jseqb c k') eqn:Ec; trivial.
      apply jseqb_true in Ec as ->.
      destruct (jseqb k' k) eqn:E; trivial.
      apply jseqb_true in E as ->. now rewrite jseqb_refl in Ek.
Qed.

Lemma own_new (c k : jsstring) (v : list UserPreference) (o : Grouped) :
  own c (o ++ [(k, v)])
  = match own c o with
    | Some x => Some x
    | None => if jseqb c k then Some v else None
    end.
Proof.
  induction o as [|[k' v'] o IH]; simpl; [reflexivity|].
  now destruct (jseqb c k').
Qed.

(** Grouping files every preference under its category, in the order of
    the preferences. *)
Lemma reduce_group_own (ps : list UserPreference) :
  forall acc grouped c,
    reduce_group ps acc = Ok grouped ->
    own c grouped
    = match own c acc, filter (fun p => jseqb c (pref_category p)) ps with
      | Some v, f => Some (v ++ f)
      | None, [] => None
      | None, f => Some f
      end.
Proof.
  induction ps as [|p ps IH]; intros acc grouped c; simpl.
  - intros H. injection H as <-. destruct (own c acc); [now rewrite app_nil_r | reflexivity].
  - unfold group_step.
    destruct (own (pref_category p) acc) as [v0|] eqn:Hown.
    + intros H. rewrite (IH _ _ c H), own_push_to.
      destruct (jseqb c (pref_category p)) eqn:Ec.
      * apply jseqb_true in Ec as ->. rewrite Hown. simpl.
        now rewrite <- app_assoc.
      * reflexivity.
    + destruct (inherited (pref_category p)); [discriminate|].
      intros H. rewrite (IH _ _ c H), own_new.
      destruct (jseqb c (pref_category p)) eqn:Ec.
      * apply jseqb_true in Ec as ->. now rewrite Hown.
      * now destruct (own c acc).
Qed.

Lemma insert_index_In (A : Type) (e x : N * A) (l : list (N * A)) :
  In x (insert_index e l) <-> x = e \/ In x l.
Proof.
  induction l as [|e' l IH]; simpl.
  - intuition.
  - destruct (fst e <=? fst e')%N; simpl; [intuition|].
    rewrite IH. intuition.
Qed.

Lemma sorted_index_In (A : Type) (x : N * A) (l : list (N * A)) :
  In x (fold_right (@insert_index A) [] l) <-> In x l.
Proof.
  induction l as [|e l IH]; simpl; [reflexivity|].
  rewrite insert_index_In, IH. intuition.
Qed.

(** [Object.entries] lists the groups of the object, each of them, and
    nothing else. *)
Lemma Object_entries_In (o : Grouped) (kv : jsstring * list UserPreference) :
  In kv (Object_entries o) <-> In kv o.
Proof.
  unfold Object_entries, index_keys, is_array_index.
  rewrite in_app_iff, in_map_iff, filter_In. split.
  - intros [((n & kv') & <- & H)|[H _]]; [|exact H].
    apply sorted_index_In, in_flat_map in H as (kv'' & Hin & H).
    destruct (array_index (fst kv'')); [|contradiction].
    destruct H as [H|[]]. now injection H as _ <-.
  - intros H. destruct (array_index (fst kv)) as [n|] eqn:E.
    + left. exists (n, kv). split; [reflexivity|].
      apply sorted_index_In, in_flat_map. exists kv. rewrite E.
      split; [exact H | now left].
    + right. auto.
Qed.

Lemma In_firstn (A : Type) (n : nat) (l : list A) (x : A) :
  In x (firstn n l) -> In x l.
Proof.
  intros H. rewrite <- (firstn_skipn n l). apply in_or_app. now left.
Qed.

(** When no category is a name that a plain object inherits, the text
    is the static prompt, then the preferences grouped by category, each
    category holding its preferences in their order, then at most ten of
    the twenty most recent memories of the role, in that order. *)
Lemma buildSystemPrompt_sections (prompt : jsstring) (role : AgentRole) (s : Store) :
  plain_categories s ->
  exists grouped,
    buildSystemPrompt_of prompt role s
    = Ok (prompt
          ++ (if Nat.ltb 0 (length (preferences s))
              then preferences_header
                   ++ flat_map category_section (Object_entries grouped)
              else [])
          ++ recent_section (getMemories None (Some role) 20 s))
    /\ (forall kv, In kv (Object_entries grouped) <-> In kv grouped)
    /\ (forall c,
           own c grouped
           = match filter (fun p => jseqb c (pref_category p)) (preferences s) with
             | [] => None
             | f => Some f
             end)
    /\ length (firstn 10 (getMemories None (Some role) 20 s)) <= 10
    /\ Forall (fun m => mem_agentRole (mem_fields m) = Some role)
              (getMemories None (Some role) 20 s).
Proof.
  intros H. destruct (reduce_group_plain _ H []) as [grouped Hg].
  exists grouped. repeat split.
  - unfold buildSystemPrompt_of, getAllPreferences. rewrite Hg.
    destruct (Nat.ltb 0 (length (preferences s))).
    + now rewrite <- !app_assoc.
    + reflexivity.
  - apply Object_entries_In.
  - apply Object_entries_In.
  - intros c. now rewrite (reduce_group_own _ _ _ c Hg).
  - apply firstn_le_length.
  - apply Forall_forall. intros m Hm. unfold getMemories in Hm.
    apply In_firstn, filter_In in Hm as [_ Hm].
    apply andb_true_iff in Hm as [_ Hm]. unfold option_filter in Hm.
    destruct (mem_agentRole (mem_fields m)) as [r|]; [|discriminate].
    destruct role, r; simpl in Hm; try discriminate; reflexivity.
Qed.

(** ** The runtime *)

Section RuntimeFacts.
Variables Input Env Backend : Type.
Variable create : Request Input -> Backend -> (Response Input + Exn) * Backend.
Variable config : AgentConfig Input Env.

Local Abbreviation World := (World Input Env Backend).
Local Abbreviation M := (M Input Env Backend).

Lemma bind_Ok (A B : Type) (m : M A) (f : A -> M B) (w w' : World) (b : B) :
  bind m f w = (Ok b, w') ->
  exists a w1, m w = (Ok a, w1) /\ f a w1 = (Ok b, w').
Proof.
  unfold bind. destruct (m w) as [[a|e|] w1]; try discriminate.
  intros H. now exists a, w1.
Qed.

Lemma bind_step (A B : Type) (m : M A) (f : A -> M B) (w w1 : World) (a : A) :
  m w = (Ok a, w1) -> bind m f w = f a w1.
Proof. unfold bind. now intros ->. Qed.

(** *** [executeTools] *)

Lemma executeTools_loop_registered
      (toolCall : ToolUseBlock Input) (rest : list (ToolUseBlock Input))
      (results : list ToolResultBlockParam) (w : World) (tool : Tool Input Env) :
  find_tool config (tu_name toolCall) = Some tool ->
  executeTools_loop (Backend := Backend) config (toolCall :: rest) results w
  = let out := execute tool (tu_input toolCall) (store w, env w) in
    executeTools_loop config rest
      (results ++ [result_block toolCall (fst out)])
      (mkWorld (fst (snd out)) (snd (snd out)) (backend w)
               (invoked w ++ [toolCall]) (sent w)).
Proof.
  intros Hf. cbn [executeTools_loop]. rewrite Hf.
  unfold bind, try_catch, invoke, ret.
  destruct (execute tool (tu_input toolCall) (store w, env w)) as [[r|e] [s v]];
    reflexivity.
Qed.

Lemma executeTools_loop_unregistered
      (toolCall : ToolUseBlock Input) (rest : list (ToolUseBlock Input))
      (results : list ToolResultBlockParam) (w : World) :
  find_tool config (tu_name toolCall) = None ->
  executeTools_loop (Backend := Backend) config (toolCall :: rest) results w
  = executeTools_loop config rest results w.
Proof. intros Hf. cbn [executeTools_loop]. now rewrite Hf. Qed.

(** The loop never throws: it returns one block for each call whose tool is
    registered, in the order of the calls, runs those tools in that order,
    and leaves the backend alone. *)
Lemma executeTools_loop_spec (P : Store -> Prop) :
  tools_preserve config P ->
  forall (toolCalls : list (ToolUseBlock Input))
         (results : list ToolResultBlockParam) (w : World),
    P (store w) ->
    exists rs w',
      executeTools_loop config toolCalls results w = (Ok (results ++ rs), w')
      /\ map tool_use_id rs = map (@tu_id Input) (filter (registered config) toolCalls)
      /\ invoked w' = invoked w ++ filter (registered config) toolCalls
      /\ backend w' = backend w /\ sent w' = sent w /\ P (store w').
Proof.
  intros HP. induction toolCalls as [|c cs IH]; intros results w Hw.
  - exists [], w. simpl. unfold ret. rewrite !app_nil_r. repeat split; trivial.
  - unfold registered at 1 2. cbn [filter].
    destruct (find_tool config (tu_name c)) as [tool|] eqn:Hf.
    + rewrite (executeTools_loop_registered _ _ _ _ _ Hf). cbv zeta.
      set (out := execute tool (tu_input c) (store w, env w)).
      destruct (IH (results ++ [result_block c (fst out)])
                   (mkWorld (fst (snd out)) (snd (snd out)) (backend w)
                            (invoked w ++ [c]) (sent w)))
        as (rs & w' & He & Hids & Hinv & Hb & Hs & Hp).
      { cbn [store]. apply (HP tool (tu_name c) (tu_input c) (store w, env w) Hf Hw). }
      exists (result_block c (fst out) :: rs), w'.
      rewrite He, <- app_assoc. cbn [app map]. rewrite Hids, Hinv.
      cbn [invoked backend sent]. rewrite <- app_assoc.
      repeat split; trivial.
      destruct (fst out); reflexivity.
    + rewrite (executeTools_loop_unregistered _ _ _ _ Hf). now apply IH.
Qed.


Lemma tools_preserve_True : tools_preserve config (fun _ => True).
Proof. intros tool name input st _ _. exact I. Qed.

(** *** One round *)

Lemma request_for_Ok (messages : list (MessageParam Input)) (w : World) (sys : jsstring) :
  buildSystemPrompt_of (systemPrompt config) (cfg_role config) (store w) = Ok sys ->
  request_for config (api_tools config) messages w
  = (Ok (request_with config sys messages), w).
Proof.
  intros H. unfold request_for, bind, buildSystemPrompt. now rewrite H.
Qed.

(** After the tools have run and the prompt is built, a round sends the
    backend the message list extended with the backend's own request and
    the results of the tools. *)
Lemma tool_round_continues
      (messages : list (MessageParam Input)) (response : Response Input)
      (w w1 : World) (results : list ToolResultBlockParam) (sys : jsstring) :
  executeTools config (tool_use_blocks (resp_content response)) w = (Ok results, w1) ->
  buildSystemPrompt_of (systemPrompt config) (cfg_role config) (store w1) = Ok sys ->
  tool_round create config (api_tools config) messages response w
  = bind (messages_create create
            (request_with config sys (round_messages messages response results)))
         (fun r => ret (round_messages messages response results, r)) w1.
Proof.
  intros He Hs. unfold tool_round.
  rewrite (bind_step _ _ _ _ _ _ _ He).
  rewrite (bind_step _ _ _ _ _ _ _ (request_for_Ok _ _ _ Hs)).
  reflexivity.
Qed.

(** C2, as amended.  In every round that asks for tools, [executeTools]
    returns exactly one tool-result block, carrying the call-id, for every
    requested invocation whose tool name is in the registry of the role, in
    the order of the requests, and none for the others; it does so without
    calling the backend, and the round then sends the backend the message
    list with these results appended. *)
Theorem executeTools_results_for_registered
        (messages : list (MessageParam Input)) (response : Response Input)
        (w : World) :
  exists results w1,
    executeTools config (tool_use_blocks (resp_content response)) w
    = (Ok results, w1)
    /\ map tool_use_id results
       = map (@tu_id Input)
             (filter (registered config) (tool_use_blocks (resp_content response)))
    /\ sent w1 = sent w
    /\ forall sys,
        buildSystemPrompt_of (systemPrompt config) (cfg_role config) (store w1)
        = Ok sys ->
        tool_round create config (api_tools config) messages response w
        = bind (messages_create create
                  (request_with config sys
                     (round_messages messages response results)))
               (fun r => ret (round_messages messages response results, r)) w1.
Proof.
  destruct (executeTools_loop_spec (fun _ => True) tools_preserve_True
              (tool_use_blocks (resp_content response)) [] w I)
    as (rs & w1 & He & Hids & _ & _ & Hs & _).
  exists rs, w1. repeat split; trivial.
  intros sys Hsys. now apply tool_round_continues.
Qed.

(** *** The turn *)

Lemma write_store_run (f : Store -> Store) (w : World) :
  write_store f w
  = (Ok tt, mkWorld (f (store w)) (env w) (backend w) (invoked w) (sent w)).
Proof. reflexivity. Qed.

(** Storing the extracted memories appends them to the memories and touches
    nothing else. *)
Lemma store_memories_run (ms : list MemoryInput) :
  forall w : World,
  exists w', store_memories ms w = (Ok tt, w')
             /\ turns (store w') = turns (store w)
             /\ preferences (store w') = preferences (store w)
             /\ map mem_fields (memories (store w'))
                = map mem_fields (memories (store w)) ++ ms
             /\ env w' = env w /\ backend w' = backend w
             /\ invoked w' = invoked w /\ sent w' = sent w.
Proof.
  induction ms as [|m ms IH]; intros w.
  - exists w. simpl. unfold ret. rewrite app_nil_r. repeat split; trivial.
  - cbn [store_memories]. unfold bind at 1. rewrite write_store_run.
    destruct (IH (mkWorld (saveMemory m (store w)) (env w) (backend w)
                          (invoked w) (sent w)))
      as (w' & -> & Ht & Hp & Hm & He & Hb & Hi & Hs).
    exists w'. cbn in Ht, Hp, Hm, He, Hb, Hi, Hs.
    rewrite Hm, map_app, <- app_assoc. repeat split; trivial.
Qed.

(** The loop ends on a response that does not ask for tools. *)
Lemma tool_loop_Ok (fuel : nat) :
  forall (tools : list (ToolDecl Input)) (messages : list (MessageParam Input))
         (response : Response Input) (w w' : World)
         (final : list (MessageParam Input) * Response Input),
    tool_loop create fuel config tools messages response w = (Ok final, w') ->
    is_tool_use (stop_reason (snd final)) = false.
Proof.
  induction fuel as [|fuel IH]; intros tools messages response w w' final;
    cbn [tool_loop]; destruct (is_tool_use (stop_reason response)) eqn:Hs.
  - discriminate.
  - unfold ret. intros H. injection H as <- _. exact Hs.
  - intros H. apply bind_Ok in H as (next & w1 & _ & H). now apply IH in H.
  - unfold ret. intros H. injection H as <- _. exact Hs.
Qed.

Lemma history_after_save (sessionId : jsstring) (m : Message) (s : Store) :
  getConversationHistory sessionId (saveConversationMessage sessionId m s)
  = getConversationHistory sessionId s ++ [m].
Proof.
  unfold getConversationHistory, saveConversationMessage. cbn [turns].
  rewrite filter_app, map_app. cbn [filter turn_session].
  now rewrite jseqb_refl.
Qed.

Lemma tool_loop_step (fuel : nat) (tools : list (ToolDecl Input))
      (messages : list (MessageParam Input)) (response : Response Input)
      (w w' : World) (next : list (MessageParam Input) * Response Input) :
  is_tool_use (stop_reason response) = true ->
  tool_round create config tools messages response w = (Ok next, w') ->
  tool_loop create (S fuel) config tools messages response w
  = tool_loop create fuel config tools (fst next) (snd next) w'.
Proof.
  intros Hs Hr. cbn [tool_loop]. rewrite Hs. unfold bind. now rewrite Hr.
Qed.

Lemma tool_loop_done (fuel : nat) (tools : list (ToolDecl Input))
      (messages : list (MessageParam Input)) (response : Response Input)
      (w : World) :
  is_tool_use (stop_reason response) = false ->
  tool_loop create fuel config tools messages response w
  = (Ok (messages, response), w).
Proof. intros Hs. destruct fuel; cbn [tool_loop]; now rewrite Hs. Qed.

(** *** The requests that a turn sends *)

Lemma messages_create_run (request : Request Input) (w : World) :
  messages_create create request w
  = (match fst (create request (backend w)) with
     | inl response => Ok response
     | inr e => Throw e
     end,
     mkWorld (store w) (env w) (snd (create request (backend w)))
             (invoked w) (sent w ++ [request])).
Proof.
  unfold messages_create.
  destruct (create request (backend w)) as [[response|e] b]; reflexivity.
Qed.

Lemma tool_round_sent (tools : list (ToolDecl Input))
      (messages : list (MessageParam Input)) (response : Response Input)
      (w : World) :
  exists l, sent (snd (tool_round create config tools messages response w))
            = sent w ++ l.
Proof.
  unfold tool_round, executeTools.
  destruct (executeTools_loop_spec (fun _ => True) tools_preserve_True
              (tool_use_blocks (resp_content response)) [] w I)
    as (rs & w1 & He & _ & _ & _ & Hs & _).
  unfold bind at 1. rewrite He. cbn [app].
  unfold request_for, buildSystemPrompt, bind, ret.
  destruct (buildSystemPrompt_of _ _ (store w1)) as [sys|e|].
  - rewrite messages_create_run.
    destruct (fst (create _ (backend w1))); cbn [snd sent]; rewrite Hs; eauto.
  - exists []. cbn [snd]. now rewrite app_nil_r.
  - exists []. cbn [snd]. now rewrite app_nil_r.
Qed.

Lemma tool_loop_sent (fuel : nat) :
  forall (tools : list (ToolDecl Input)) (messages : list (MessageParam Input))
         (response : Response Input) (w : World),
  exists l, sent (snd (tool_loop create fuel config tools messages response w))
            = sent w ++ l.
Proof.
  induction fuel as [|fuel IH]; intros tools messages response w;
    cbn [tool_loop]; destruct (is_tool_use (stop_reason response));
    try (exists []; cbn; now rewrite app_nil_r).
  destruct (tool_round_sent tools messages response w) as [l1 H1].
  unfold bind.
  destruct (tool_round create config tools messages response w)
    as [[next|e|] w1]; cbn [snd] in *; eauto.
  destruct (IH tools (fst next) (snd next) w1) as [l2 H2].
  exists (l1 ++ l2). now rewrite H2, H1, app_assoc.
Qed.

(** The first request of a turn carries the message list that
    [initial_messages] makes from the history read back after the user
    message was saved. *)
Lemma chat_first_request
      (fuel : nat) (sessionId userMessage sys : jsstring) (w : World) :
  let saved := saveConversationMessage sessionId
                 (mkMessage user userMessage None) (store w) in
  buildSystemPrompt_of (systemPrompt config) (cfg_role config) saved = Ok sys ->
  exists more,
    sent (snd (chat create fuel config sessionId userMessage w))
    = sent w
      ++ request_with config sys
           (initial_messages Input (getConversationHistory sessionId saved)
                             userMessage)
      :: more.
Proof.
  intros saved Hsys. unfold chat.
  unfold bind at 1. rewrite write_store_run.
  unfold bind at 1. unfold read_store at 1. cbn [store].
  fold saved.
  set (msgs := initial_messages Input (getConversationHistory sessionId saved)
                                userMessage).
  set (w0 := mkWorld saved (env w) (backend w) (invoked w) (sent w)).
  rewrite (bind_step _ _ _ _ _ _ _ (request_for_Ok msgs w0 sys Hsys)).
  unfold bind at 1. rewrite messages_create_run.
  destruct (fst (create (request_with config sys msgs) (backend w0)))
    as [response|e]; [|exists []; reflexivity].
  set (w1 := mkWorld _ _ _ _ _).
  destruct (tool_loop_sent fuel (api_tools config) msgs response w1) as [l Hl].
  unfold bind at 1.
  destruct (tool_loop create fuel config (api_tools config) msgs response w1)
    as [[final|e|] w2]; cbn [snd] in Hl;
    try (exists l; cbn [snd]; rewrite Hl; subst w1; cbn [sent];
         now rewrite <- app_assoc).
  unfold bind at 1. rewrite write_store_run.
  set (w3 := mkWorld _ _ _ _ _).
  assert (H3 : sent w3 = sent w2) by reflexivity.
  exists l.
  destruct (memoriesToStore _) as [ms|].
  - destruct (store_memories_run ms w3) as (w4 & Hrun & _ & _ & _ & _ & _ & _ & H4).
    unfold bind, ret. rewrite Hrun. cbn [snd].
    rewrite H4, H3, Hl. subst w1. cbn [sent]. now rewrite <- app_assoc.
  - unfold bind, ret. cbn [snd].
    rewrite H3, Hl. subst w1. cbn [sent]. now rewrite <- app_assoc.
Qed.

(** With the store as modelled, the history read back always ends with the
    message just saved, so the message goes out once, as the last entry. *)
Lemma chat_messages_end_with_user (sessionId userMessage : jsstring) (s : Store) :
  initial_messages Input
    (getConversationHistory sessionId
       (saveConversationMessage sessionId (mkMessage user userMessage None) s))
    userMessage
  = replayed Input (getConversationHistory sessionId s)
    ++ [mkMessageParam user (text_content Input userMessage)].
Proof.
  rewrite history_after_save. unfold initial_messages.
  rewrite map_app. cbn [map]. rewrite last_last, length_app. cbn [length].
  replace (Nat.eqb (length (map _ (getConversationHistory sessionId s)) + 1) 0)
    with false by (symmetry; apply Nat.eqb_neq; lia).
  cbn [orb mp_content content_is msg_content msg_role].
  now rewrite jseqb_refl.
Qed.

End RuntimeFacts.

(** C10.  The first request of [chat] carries the message list composed
    from the replayed history, and that list is the replayed history with
    the incoming user message appended only when the replayed history is
    empty or the content of its last entry differs from the message; when
    the last entry already has that content, the replayed list is used as
    it is and the message is not duplicated. *)
Theorem chat_appends_user_message_unless_last
        (Input Env Backend : Type)
        (create : Request Input -> Backend -> (Response Input + Exn) * Backend)
        (config : AgentConfig Input Env)
        (fuel : nat) (sessionId userMessage : jsstring)
        (w : World Input Env Backend) :
  (forall sys,
      buildSystemPrompt_of (systemPrompt config) (cfg_role config)
        (saveConversationMessage sessionId (mkMessage user userMessage None)
                                 (store w)) = Ok sys ->
      exists more,
        sent (snd (chat create fuel config sessionId userMessage w))
        = sent w
          ++ request_with config sys
               (initial_messages Input
                  (getConversationHistory sessionId
                     (saveConversationMessage sessionId
                        (mkMessage user userMessage None) (store w)))
                  userMessage)
          :: more)
  /\ forall history : list Message,
      ((history = []
        \/ exists earlier m, history = earlier ++ [m]
                             /\ msg_content m <> userMessage) ->
       initial_messages Input history userMessage
       = replayed Input history
         ++ [mkMessageParam user (text_content Input userMessage)])
      /\ ((exists earlier m, history = earlier ++ [m]
                             /\ msg_content m = userMessage) ->
          initial_messages Input history userMessage = replayed Input history).
Proof.
  split; [intros sys Hsys; now apply chat_first_request|].
  intros history.
  assert (Hlast : forall earlier m,
             initial_messages Input (earlier ++ [m]) userMessage
             = if jseqb (msg_content m) userMessage
               then replayed Input (earlier ++ [m])
               else replayed Input (earlier ++ [m])
                    ++ [mkMessageParam user (text_content Input userMessage)]).
  { intros earlier m. unfold initial_messages, replayed.
    rewrite map_app. cbn [map]. rewrite last_last, length_app. cbn [length].
    replace (Nat.eqb (length (map _ earlier) + 1) 0) with false
      by (symmetry; apply Nat.eqb_neq; lia).
    cbn [orb mp_content content_is].
    now destruct (jseqb (msg_content m) userMessage). }
  split.
  - intros [-> | (earlier & m & -> & Hne)]; [reflexivity|].
    rewrite Hlast. destruct (jseqb (msg_content m) userMessage) eqn:E; trivial.
    apply jseqb_true in E. contradiction.
  - intros (earlier & m & -> & Heq). rewrite Hlast.
    now rewrite (proj2 (jseqb_true _ _) Heq).
Qed.

(** ** Turns against a scripted backend *)

Section ScriptedFacts.
Variables Input Env : Type.
Variable config : AgentConfig Input Env.

Lemma tool_use_blocks_asks (calls : list (ToolUseBlock Input)) :
  tool_use_blocks (resp_content (asks calls)) = calls.
Proof.
  unfold asks, tool_use_blocks. cbn [resp_content].
  induction calls as [|c cs IH]; simpl; [reflexivity | now rewrite IH].
Qed.

End ScriptedFacts.

(** ** Concrete turns *)

(** C2, as stated, fails: a request whose tool name is not in the registry
    gets no result block at all. *)
Lemma executeTools_skips_unregistered :
  ~ (forall (Input Env Backend : Type) (config : AgentConfig Input Env)
            (toolCalls : list (ToolUseBlock Input))
            (w : World Input Env Backend),
        exists results w1,
          executeTools config toolCalls w = (Ok results, w1)
          /\ map tool_use_id results = map (@tu_id Input) toolCalls).
Proof.
  intros H.
  destruct (H unit unit (list (Response unit)) sample_config
              [call "toolu_1" "search"] (sample_world []))
    as (results & w1 & He & Hids).
  vm_compute in He. injection He as <- _. discriminate Hids.
Qed.

(** C1, as stated, fails: what is persisted is the text of the final answer
    before [parseResponse], so a final answer that carries a directive is
    persisted with it, while the visible text returned has it stripped. *)
Lemma chat_persists_directives :
  ~ (forall (Input Env Backend : Type)
            (create : Request Input -> Backend -> (Response Input + Exn) * Backend)
            (fuel : nat) (config : AgentConfig Input Env)
            (sessionId userMessage : jsstring) (w w' : World Input Env Backend)
            (r : AgentResponse),
        chat create fuel config sessionId userMessage w = (Ok r, w') ->
        exists earlier,
          getConversationHistory sessionId (store w')
          = earlier ++ [mkMessage assistant (content r)
                                  (Some (cfg_role config))]).
Proof.
  intros H.
  edestruct (H unit unit (list (Response unit)) (@scripted unit) 0 sample_config
               (lit "s1") (lit "hi")
               (sample_world [answers unit (lit "Done. [DELEGATE:research]")]))
    as [earlier Heq]; [vm_compute; reflexivity|].
  vm_compute in Heq.
  apply (f_equal (@rev Message)) in Heq. rewrite rev_app_distr in Heq.
  simpl in Heq. injection Heq as Heq _. discriminate Heq.
Qed.

(** C7 fails at a store that holds a preference whose category is the name
    of a property every plain object inherits, such as [constructor]:
    grouping reads that property instead of an empty group, the [push] on
    it throws a [TypeError], and no instruction text is built. *)
Theorem buildSystemPrompt_throws_on_inherited_category
        (prompt key value : jsstring) (role : AgentRole)
        (n t : nat) (ms : list Memory) (ts : list Turn) :
  buildSystemPrompt_of prompt role
    (mkStore n ms [mkPreference key value (lit "constructor") t] ts)
  = Throw push_TypeError.
Proof. reflexivity. Qed.

(** The turn itself fails at such a store: the prompt is built before the
    first request, so [chat] throws and sends nothing. *)
Lemma chat_throws_on_inherited_category :
  chat (@scripted unit) 1 sample_config (lit "s1") (lit "hi")
       (mkWorld (mkStore 0 [] [mkPreference (lit "style") (lit "terse")
                                            (lit "toString") 0] [])
                tt [answers unit (lit "ok")] [] [])
  = (Throw push_TypeError,
     mkWorld (mkStore 1 [] [mkPreference (lit "style") (lit "terse")
                                         (lit "toString") 0]
                      [mkTurn (lit "s1") (mkMessage user (lit "hi") None) 0])
             tt [answers unit (lit "ok")] [] []).
Proof. vm_compute. reflexivity. Qed.

(** A directive with an empty text reaches the store: the turn saves a
    memory whose content is the empty string. *)
Lemma chat_stores_empty_memory :
  map mem_fields
      (memories
         (store (snd (chat (@scripted unit) 0 sample_config (lit "s1") (lit "hi")
                           (sample_world [answers unit (lit "[REMEMBER:fact|]")])))))
  = [mkMemoryInput (lit "fact") [] [] (Some dev)].
Proof. vm_compute. reflexivity. Qed.

(** ** Checks of the model on small inputs *)

Example trim_strips_both_ends :
  trim ([9; 160; 32]%N ++ lit "a b" ++ [10; 8233; 65279]%N) = lit "a b".
Proof. reflexivity. Qed.

Example lazy_text_stops_at_first_bracket :
  map groups (String_matchAll REMEMBER_capture (lit "[REMEMBER:fact|a]b] [REMEMBER:x|]"))
  = [[lit "fact"; lit "a"]; [lit "x"; []]].
Proof. reflexivity. Qed.

Example directive_across_lines_is_prose :
  parseResponse dev (lit "[REMEMBER:fact|a" ++ [10%N] ++ lit "b] [DELEGATE:a-b]")
  = mkAgentResponse (lit "[REMEMBER:fact|a" ++ [10%N] ++ lit "b] [DELEGATE:a-b]")
                    None None.
Proof. reflexivity. Qed.

Example entries_put_array_indices_first :
  map fst (Object_entries [(lit "b", []); (lit "10", []); (lit "01", []);
                           (lit "2", []); (lit "a", [])])
  = [lit "2"; lit "10"; lit "b"; lit "01"; lit "a"].
Proof. reflexivity. Qed.

Example prompt_with_preferences_and_memories :
  buildSystemPrompt_of (lit "P") dev
    (mkStore 4
       [mkMemory 0 (mkMemoryInput (lit "fact") (lit "old") [] (Some dev)) 0;
        mkMemory 1 (mkMemoryInput (lit "fact") (lit "other") [] (Some research)) 1;
        mkMemory 2 (mkMemoryInput (lit "task") (lit "new") [] (Some dev)) 2]
       [mkPreference (lit "tone") (lit "terse") (lit "style") 3;
        mkPreference (lit "lang") (lit "ts") (lit "code") 3;
        mkPreference (lit "emoji") (lit "no") (lit "style") 3]
       [])
  = Ok (lit "P" ++ [10; 10]%N ++ lit "## User Preferences (learned over time)"
        ++ [10; 10]%N ++ lit "### style" ++ [10%N]
        ++ lit "- tone: terse" ++ [10%N] ++ lit "- emoji: no" ++ [10; 10]%N
        ++ lit "### code" ++ [10%N] ++ lit "- lang: ts" ++ [10; 10; 10]%N
        ++ lit "## Recent Context" ++ [10%N]
        ++ lit "- [task] new" ++ [10%N] ++ lit "- [fact] old" ++ [10%N]).
Proof. reflexivity. Qed.

Example unregistered_call_is_skipped :
  fst (executeTools sample_config
         [call "t1" "echo"; call "t2" "search"; call "t3" "fail"]
         (sample_world []))
  = Ok [mkToolResult (lit "t1") (lit "ok") None;
        mkToolResult (lit "t3") (lit "Error: boom") (Some true)].
Proof. reflexivity. Qed.

(** * Further properties of the runtime *)

(** ** [parseResponse] on ordinary prose *)

Lemma search_needs_bracket (p : regex) (l : jsstring) (s : jsstring) :
  existsb (N.eqb 91) s = false ->
  forall i, search (Lit (91%N :: l) :: p) i s = None.
Proof.
  induction s as [|c s IH]; intros H i; simpl; [reflexivity|].
  simpl in H. apply orb_false_iff in H as [Hc Hs].
  rewrite Hc. now apply IH.
Qed.

(** X1.  A final answer without any opening bracket carries no directive:
    [parseResponse] returns it trimmed, with no delegation target and no
    memory record. *)
Theorem parseResponse_prose_without_brackets (role : AgentRole) (text : jsstring) :
  existsb (N.eqb 91) text = false ->
  parseResponse role text = mkAgentResponse (trim text) None None.
Proof.
  intros H. apply parseResponse_no_directive; unfold String_match.
  - apply (search_needs_bracket _ (lit "DELEGATE:") text H).
  - apply (search_needs_bracket _ (lit "REMEMBER:") text H).
Qed.

Lemma parseResponse_prose_without_brackets_witness :
  parseResponse comms (lit "  Sure, here is the draft.  ")
  = mkAgentResponse (trim (lit "  Sure, here is the draft.  ")) None None.
Proof.
  apply (parseResponse_prose_without_brackets comms
           (lit "  Sure, here is the draft.  ")).
  reflexivity.
Defined.

Lemma trim_head (s : jsstring) :
  match trim s with [] => True | c :: _ => white_space c = false end.
Proof.
  unfold trim. destruct (trimStart s) as [|c t] eqn:E; [exact I|].
  pose proof (trimStart_head _ _ _ E) as Hc.
  unfold trimEnd. simpl rev.
  destruct (trimStart_keeps_last (rev t) c Hc) as [u Hu].
  rewrite Hu, rev_app_distr. simpl. exact Hc.
Qed.

Lemma trim_last (s : jsstring) :
  match rev (trim s) with [] => True | c :: _ => white_space c = false end.
Proof.
  unfold trim, trimEnd. rewrite rev_involutive.
  destruct (trimStart (rev (trimStart s))) as [|c t] eqn:E; [exact I|].
  exact (trimStart_head _ _ _ E).
Qed.

(** X2.  Whatever the final answer, the visible text that [parseResponse]
    returns neither starts nor ends with a white-space or line-terminator
    code unit. *)
Theorem parseResponse_content_is_trimmed (role : AgentRole) (text : jsstring) :
  match content (parseResponse role text) with
  | [] => True
  | c :: _ => white_space c = false
  end
  /\ match rev (content (parseResponse role text)) with
     | [] => True
     | c :: _ => white_space c = false
     end.
Proof.
  unfold parseResponse. cbn [content]. split; [apply trim_head | apply trim_last].
Qed.

(** ** Turns: failure, direct answers and rounds *)

Section TurnFacts.
Variables Input Env Backend : Type.
Variable create : Request Input -> Backend -> (Response Input + Exn) * Backend.
Variable config : AgentConfig Input Env.

Local Abbreviation World := (World Input Env Backend).

(** The start of a turn: the user message is saved, the history read back
    and the first request sent. *)
Lemma chat_start (fuel : nat) (sessionId userMessage sys : jsstring) (w : World) :
  let saved := saveConversationMessage sessionId
                 (mkMessage user userMessage None) (store w) in
  let messages := initial_messages Input
                    (getConversationHistory sessionId saved) userMessage in
  let request := request_with config sys messages in
  buildSystemPrompt_of (systemPrompt config) (cfg_role config) saved = Ok sys ->
  chat create fuel config sessionId userMessage w
  = match fst (create request (backend w)) with
    | inl response =>
        bind (tool_loop create fuel config (api_tools config) messages response)
             (fun final =>
                bind (write_store
                        (saveConversationMessage sessionId
                           (mkMessage assistant (response_text (snd final))
                                      (Some (cfg_role config)))))
                     (fun _ =>
                        bind (match memoriesToStore
                                      (parseResponse (cfg_role config)
                                         (response_text (snd final))) with
                              | Some ms => store_memories ms
                              | None => ret tt
                              end)
                             (fun _ =>
                                ret (parseResponse (cfg_role config)
                                       (response_text (snd final))))))
             (mkWorld saved (env w) (snd (create request (backend w)))
                      (invoked w) (sent w ++ [request]))
    | inr e =>
        (Throw e,
         mkWorld saved (env w) (snd (create request (backend w)))
                 (invoked w) (sent w ++ [request]))
    end.
Proof.
  intros saved messages request Hsys. unfold chat.
  unfold bind at 1. rewrite write_store_run.
  unfold bind at 1. unfold read_store at 1. cbn [store].
  fold saved. fold messages.
  rewrite (bind_step _ _ _ _ _ _ _ _ _ _
             (request_for_Ok _ _ _ config messages
                (mkWorld saved (env w) (backend w) (invoked w) (sent w))
                sys Hsys)).
  fold request. unfold bind at 1. rewrite messages_create_run.
  cbn [store env backend invoked sent].
  destruct (fst (create request (backend w))); reflexivity.
Qed.

(** X4.  When the backend fails on the first request, the turn fails with
    the same error: no tool has run, and the store holds the user turn just
    saved and nothing else new, in particular no assistant turn. *)
Theorem chat_backend_failure
        (fuel : nat) (sessionId userMessage sys : jsstring) (w : World) (e : Exn) :
  let saved := saveConversationMessage sessionId
                 (mkMessage user userMessage None) (store w) in
  let request := request_with config sys
                   (initial_messages Input
                      (getConversationHistory sessionId saved) userMessage) in
  buildSystemPrompt_of (systemPrompt config) (cfg_role config) saved = Ok sys ->
  fst (create request (backend w)) = inr e ->
  exists w',
    chat create fuel config sessionId userMessage w = (Throw e, w')
    /\ store w' = saved
    /\ getConversationHistory sessionId (store w')
       = getConversationHistory sessionId (store w)
         ++ [mkMessage user userMessage None]
    /\ memories (store w') = memories (store w)
    /\ invoked w' = invoked w
    /\ sent w' = sent w ++ [request].
Proof.
  intros saved request Hsys He.
  rewrite (chat_start fuel sessionId userMessage sys w Hsys).
  fold saved. fold request. rewrite He.
  eexists. split; [reflexivity|]. cbn [store invoked sent].
  repeat split; trivial. apply history_after_save.
Qed.

(** X5.  When the first response does not have the stop reason [tool_use],
    the turn ends there, whatever blocks the response carries: no tool is
    invoked, one request is sent, the user turn and then the assistant turn
    are appended to the log, the extracted records are appended to the
    memories, and the result is [parseResponse] of the first text block. *)
Theorem chat_direct_answer
        (fuel : nat) (sessionId userMessage sys : jsstring) (w : World)
        (response : Response Input) :
  let saved := saveConversationMessage sessionId
                 (mkMessage user userMessage None) (store w) in
  let request := request_with config sys
                   (initial_messages Input
                      (getConversationHistory sessionId saved) userMessage) in
  let result := parseResponse (cfg_role config) (response_text response) in
  buildSystemPrompt_of (systemPrompt config) (cfg_role config) saved = Ok sys ->
  fst (create request (backend w)) = inl response ->
  is_tool_use (stop_reason response) = false ->
  exists w',
    chat create fuel config sessionId userMessage w = (Ok result, w')
    /\ invoked w' = invoked w
    /\ sent w' = sent w ++ [request]
    /\ turns (store w')
       = turns (store w)
         ++ [mkTurn sessionId (mkMessage user userMessage None) (clock (store w));
             mkTurn sessionId
                    (mkMessage assistant (response_text response)
                               (Some (cfg_role config)))
                    (S (clock (store w)))]
    /\ map mem_fields (memories (store w'))
       = map mem_fields (memories (store w))
         ++ match memoriesToStore result with Some ms => ms | None => [] end
    /\ preferences (store w') = preferences (store w).
Proof.
  intros saved request result Hsys Hr Hstop.
  rewrite (chat_start fuel sessionId userMessage sys w Hsys).
  fold saved. fold request. rewrite Hr.
  unfold bind at 1. rewrite (tool_loop_done _ _ _ create config fuel _ _ _ _ Hstop).
  cbn [snd]. fold result.
  unfold bind at 1. rewrite write_store_run. cbn [store env backend invoked sent].
  set (w1 := mkWorld _ _ _ _ _).
  assert (Ht : turns (store w1)
               = turns (store w)
                 ++ [mkTurn sessionId (mkMessage user userMessage None)
                            (clock (store w));
                     mkTurn sessionId
                            (mkMessage assistant (response_text response)
                                       (Some (cfg_role config)))
                            (S (clock (store w)))]).
  { subst w1 saved. cbn. now rewrite <- app_assoc. }
  destruct (memoriesToStore result) as [ms|].
  - destruct (store_memories_run _ _ _ ms w1)
      as (w2 & Hrun & Ht2 & Hp2 & Hm2 & _ & _ & Hi2 & Hs2).
    unfold bind, ret. rewrite Hrun. exists w2.
    rewrite Hi2, Hs2, Ht2, Hp2, Hm2, Ht. repeat split; trivial.
  - unfold bind, ret. exists w1. rewrite Ht, app_nil_r. repeat split; trivial.
Qed.

Lemma tool_round_Ok (tools : list (ToolDecl Input))
      (messages : list (MessageParam Input)) (response : Response Input)
      (w w' : World) (next : list (MessageParam Input) * Response Input) :
  tool_round create config tools messages response w = (Ok next, w') ->
  length (fst next) = length messages + 2
  /\ length (sent w') = S (length (sent w)).
Proof.
  unfold tool_round. intros H.
  apply bind_Ok in H as (rs & w1 & He & H).
  apply bind_Ok in H as (request & w2 & Hreq & H).
  apply bind_Ok in H as (response' & w3 & Hc & H).
  unfold ret in H. injection H as <- <-.
  destruct (executeTools_loop_spec _ _ _ config (fun _ => True)
              (tools_preserve_True _ _ config)
              (tool_use_blocks (resp_content response)) [] w I)
    as (rs' & w1' & He' & _ & _ & _ & Hs1 & _).
  unfold executeTools in He. rewrite He' in He. injection He as _ <-.
  unfold request_for, bind, buildSystemPrompt, ret in Hreq.
  destruct (buildSystemPrompt_of _ _ (store w1')); try discriminate.
  injection Hreq as _ <-.
  rewrite messages_create_run in Hc.
  destruct (fst (create request (backend w1'))); try discriminate.
  injection Hc as _ <-. cbn [fst sent].
  rewrite !length_app, Hs1. cbn [length]. split; lia.
Qed.

(** X6.  Every round of the loop adds two messages to the conversation, the
    request of the backend and the results of the tools, and sends one
    request; the loop ends only on a response whose stop reason is not
    [tool_use]. *)
Theorem tool_loop_rounds (fuel : nat) :
  forall (tools : list (ToolDecl Input)) (messages : list (MessageParam Input))
         (response : Response Input) (w w' : World)
         (final : list (MessageParam Input) * Response Input),
    tool_loop create fuel config tools messages response w = (Ok final, w') ->
    exists rounds,
      rounds <= fuel
      /\ length (fst final) = length messages + 2 * rounds
      /\ length (sent w') = length (sent w) + rounds
      /\ is_tool_use (stop_reason (snd final)) = false.
Proof.
  induction fuel as [|fuel IH]; intros tools messages response w w' final;
    cbn [tool_loop]; destruct (is_tool_use (stop_reason response)) eqn:Hs.
  - discriminate.
  - unfold ret. intros H. injection H as <- <-. exists 0. cbn [fst snd].
    repeat split; trivial; lia.
  - intros H. apply bind_Ok in H as (next & w1 & Hr & H).
    apply tool_round_Ok in Hr as [Hm Hsent].
    apply IH in H as (n & Hn & Hlen & Hs' & Hfin).
    exists (S n). repeat split; trivial; lia.
  - unfold ret. intros H. injection H as <- <-. exists 0. cbn [fst snd].
    repeat split; trivial; lia.
Qed.

End TurnFacts.

Lemma chat_backend_failure_witness :
  exists w',
    chat (@scripted unit) 5 sample_config (lit "s1") (lit "hi") (sample_world [])
    = (Throw (ErrorObject (lit "script exhausted")), w')
    /\ store w'
       = saveConversationMessage (lit "s1") (mkMessage user (lit "hi") None)
                                 (store (sample_world []))
    /\ getConversationHistory (lit "s1") (store w')
       = getConversationHistory (lit "s1") (store (sample_world []))
         ++ [mkMessage user (lit "hi") None]
    /\ memories (store w') = memories (store (sample_world []))
    /\ invoked w' = invoked (sample_world [])
    /\ sent w'
       = sent (sample_world [])
         ++ [request_with sample_config (lit "You are the dev agent.")
               (initial_messages unit
                  (getConversationHistory (lit "s1")
                     (saveConversationMessage (lit "s1")
                        (mkMessage user (lit "hi") None)
                        (store (sample_world []))))
                  (lit "hi"))].
Proof.
  apply (chat_backend_failure unit unit (list (Response unit)) (@scripted unit)
           sample_config 5 (lit "s1") (lit "hi") (lit "You are the dev agent.")
           (sample_world []) (ErrorObject (lit "script exhausted")));
    reflexivity.
Defined.

Lemma chat_direct_answer_witness :
  exists w',
    chat (@scripted unit) 0 sample_config (lit "s1") (lit "hi")
         (sample_world
            [mkResponse max_tokens_reached
               [tool_use_block (call "t1" "echo");
                text_block unit (lit "Partly. [REMEMBER:fact|cut short]")]])
    = (Ok (parseResponse dev (lit "Partly. [REMEMBER:fact|cut short]")), w')
    /\ invoked w' = []
    /\ length (sent w') = 1
    /\ map (fun t => msg_content (turn_message t)) (turns (store w'))
       = [lit "hi"; lit "Partly. [REMEMBER:fact|cut short]"]
    /\ map mem_fields (memories (store w'))
       = [mkMemoryInput (lit "fact") (lit "cut short") [] (Some dev)].
Proof.
  destruct (chat_direct_answer unit unit (list (Response unit)) (@scripted unit)
              sample_config 0 (lit "s1") (lit "hi") (lit "You are the dev agent.")
              (sample_world
                 [mkResponse max_tokens_reached
                    [tool_use_block (call "t1" "echo");
                     text_block unit (lit "Partly. [REMEMBER:fact|cut short]")]])
              (mkResponse max_tokens_reached
                 [tool_use_block (call "t1" "echo");
                  text_block unit (lit "Partly. [REMEMBER:fact|cut short]")])
              eq_refl eq_refl eq_refl)
    as (w' & Hc & Hi & Hs & Ht & Hm & _).
  exists w'. rewrite Hi, Hs, Ht, Hm. repeat split; trivial.
Defined.

Lemma tool_loop_rounds_witness :
  exists final w',
    tool_loop (@scripted unit) 3 sample_config (api_tools sample_config) []
              (asks [call "t1" "echo"])
              (sample_world [asks [call "t2" "fail"]; answers unit (lit "ok")])
    = (Ok final, w')
    /\ exists rounds,
        rounds <= 3
        /\ length (fst final) = length (@nil (MessageParam unit)) + 2 * rounds
        /\ length (sent w')
           = length (sent (sample_world [asks [call "t2" "fail"];
                                         answers unit (lit "ok")]))
             + rounds
        /\ is_tool_use (stop_reason (snd final)) = false.
Proof.
  eexists _, _. split; [vm_compute; reflexivity|].
  apply (tool_loop_rounds unit unit (list (Response unit)) (@scripted unit)
           sample_config 3 (api_tools sample_config) []
           (asks [call "t1" "echo"])
           (sample_world [asks [call "t2" "fail"]; answers unit (lit "ok")])).
  vm_compute. reflexivity.
Defined.

Lemma buildSystemPrompt_sections_witness :
  exists grouped,
    buildSystemPrompt_of (lit "P") dev
      (mkStore 2 [mkMemory 0 (mkMemoryInput (lit "fact") (lit "x") [] (Some dev)) 0]
               [mkPreference (lit "tone") (lit "terse") (lit "style") 1] [])
    = Ok (lit "P" ++ preferences_header
          ++ flat_map category_section (Object_entries grouped)
          ++ recent_section
               [mkMemory 0 (mkMemoryInput (lit "fact") (lit "x") [] (Some dev)) 0])
    /\ own (lit "style") grouped
       = Some [mkPreference (lit "tone") (lit "terse") (lit "style") 1].
Proof.
  destruct (buildSystemPrompt_sections (lit "P") dev
              (mkStore 2
                 [mkMemory 0 (mkMemoryInput (lit "fact") (lit "x") [] (Some dev)) 0]
                 [mkPreference (lit "tone") (lit "terse") (lit "style") 1] [])
              eq_refl)
    as (grouped & Hb & _ & Hown & _).
  exists grouped. split.
  - rewrite Hb. cbn [preferences length Nat.ltb Nat.leb]. now rewrite <- app_assoc.
  - exact (Hown (lit "style")).
Defined.

(** ** The launch dashboard *)

Lemma filter_length_le (A : Type) (f g : A -> bool) (l : list A) :
  (forall x, f x = true -> g x = true) ->
  length (filter f l) <= length (filter g l).
Proof.
  intros H. induction l as [|a l IH]; simpl; [lia|].
  destruct (f a) eqn:Ef.
  - rewrite (H a Ef). simpl. lia.
  - destruct (g a); simpl; lia.
Qed.

Lemma filter_length_le_all (A : Type) (f : A -> bool) (l : list A) :
  length (filter f l) <= length l.
Proof.
  induction l as [|a l IH]; simpl; [lia|]. destruct (f a); simpl; lia.
Qed.

(** X9.  The outreach funnel narrows: among any contacts, the converted
    ones are counted among the responded, the responded among the contacted,
    and the contacted among the total. *)
Theorem outreach_funnel_narrows (contacts : list ContactRow) :
  outreach_converted (outreach_summary contacts)
  <= outreach_responded (outreach_summary contacts)
  /\ outreach_responded (outreach_summary contacts)
     <= outreach_contacted (outreach_summary contacts)
  /\ outreach_contacted (outreach_summary contacts)
     <= outreach_total (outreach_summary contacts).
Proof.
  unfold outreach_summary.
  cbn [outreach_converted outreach_responded outreach_contacted outreach_total].
  repeat split.
  - apply filter_length_le. intros c H. unfold status_in. cbn [existsb].
    rewrite H. now rewrite !orb_true_r.
  - apply filter_length_le. intros c H. unfold status_in in H. cbn [existsb] in H.
    destruct (contact_status c) as [s|]; [|discriminate]. cbn [status_is] in *.
    destruct (jseqb s (lit "not_contacted")) eqn:E; [|reflexivity].
    apply jseqb_true in E. subst s. discriminate.
  - apply filter_length_le_all.
Qed.

(** X10.  The three milestone counts never add up to more than the total,
    and they add up to the total exactly when every milestone has one of the
    statuses [completed], [in_progress] and [pending]. *)
Theorem milestone_counts_partition (milestones : list MilestoneRow) :
  let s := milestone_summary milestones in
  milestones_completed s + milestones_inProgress s + milestones_pending s
  <= milestones_total s
  /\ (milestones_completed s + milestones_inProgress s + milestones_pending s
      = milestones_total s
      <-> forallb (fun m => status_in ["completed"; "in_progress"; "pending"]%string
                                      (milestone_status m))
                  milestones = true).
Proof.
  unfold milestone_summary.
  cbn [milestones_completed milestones_inProgress milestones_pending milestones_total].
  induction milestones as [|m ms [IHle IHeq]]; [cbn; intuition lia|].
  cbn [filter forallb length]. unfold status_in at 1. cbn [existsb].
  assert (Hex : forall s : jsstring,
             (jseqb s (lit "completed") = true ->
              jseqb s (lit "in_progress") = false
              /\ jseqb s (lit "pending") = false)
             /\ (jseqb s (lit "in_progress") = true ->
                 jseqb s (lit "pending") = false)).
  { intros s. split; intros E; apply jseqb_true in E; subst s; auto. }
  destruct (milestone_status m) as [s|]; cbn [status_is].
  - destruct (Hex s) as [H1 H2].
    destruct (jseqb s (lit "completed")) eqn:E1.
    + destruct (H1 eq_refl) as [-> ->]. cbn [length orb andb].
      split; [lia|]. rewrite <- IHeq. lia.
    + destruct (jseqb s (lit "in_progress")) eqn:E2.
      * rewrite (H2 eq_refl). cbn [length orb andb].
        split; [lia|]. rewrite <- IHeq. lia.
      * destruct (jseqb s (lit "pending")); cbn [length orb andb].
        -- split; [lia|]. rewrite <- IHeq. lia.
        -- split; [lia|]. split; [lia | discriminate].
  - cbn [orb andb]. split; [lia|]. split; [lia | discriminate].
Qed.

(** ** Tools that catch their own failures *)

Section CatchingTools.
Variables Input Env Backend : Type.
Variable config : AgentConfig Input Env.

(** When no registered tool ever throws, no result block is flagged. *)
Lemma executeTools_loop_no_error_flag :
  (forall name tool input st,
      find_tool config name = Some tool ->
      exists text, fst (execute tool input st) = inl text) ->
  forall (toolCalls : list (ToolUseBlock Input))
         (results : list ToolResultBlockParam) (w : World Input Env Backend),
    Forall (fun r => is_error r = None) results ->
    exists rs w',
      executeTools_loop config toolCalls results w = (Ok rs, w')
      /\ Forall (fun r => is_error r = None) rs.
Proof.
  intros Hnever. induction toolCalls as [|c cs IH]; intros results w Hres.
  - exists results, w. split; [reflexivity | exact Hres].
  - destruct (find_tool config (tu_name c)) as [tool|] eqn:Hf.
    + rewrite (executeTools_loop_registered _ _ _ _ _ _ _ _ _ Hf). cbv zeta.
      apply IH. apply Forall_app. split; [exact Hres|].
      destruct (Hnever _ _ (tu_input c) (store w, env w) Hf) as [text ->].
      constructor; [reflexivity | constructor].
    + rewrite (executeTools_loop_unregistered _ _ _ _ _ _ _ _ Hf). now apply IH.
Qed.

End CatchingTools.

Section DevAgentFacts.
Variables Env Backend : Type.
Variable schema : string -> ToolInput.
Variable execAsync :
  Value -> Value -> N -> Env -> (jsstring * jsstring + Exn) * Env.
Variable readFile : Value -> Env -> (jsstring + Exn) * Env.
Variable writeFile : Value -> Value -> Env -> (unit + Exn) * Env.
Variable readdir : Value -> Env -> (list (bool * jsstring) + Exn) * Env.

Local Abbreviation tools := (dev_tools schema execAsync readFile writeFile readdir).
Local Abbreviation DevAgent :=
  (DevAgent_config schema execAsync readFile writeFile readdir).

(** Each of the five tools catches what the shell or the file system
    throws and answers with text; none of them touches the store. *)
Lemma dev_tool_answers (tool : Tool ToolInput Env) (input : ToolInput)
      (st : Store * Env) :
  In tool tools ->
  exists text e, execute tool input st = (inl text, (fst st, e)).
Proof.
  intros [<-|[<-|[<-|[<-|[<-|[]]]]]]; cbn [execute run_command read_file
    write_file list_directory search_code].
  - destruct (execAsync _ _ _ _) as [[[stdout stderr]|error] e]; eauto.
  - destruct (readFile _ _) as [[text|error] e]; eauto.
  - destruct (writeFile _ _ _) as [[u|error] e]; eauto.
  - destruct (readdir _ _) as [[entries|error] e]; eauto.
  - destruct (execAsync _ _ _ _) as [[[stdout stderr]|error] e]; eauto.
Qed.

Lemma dev_find_tool (name : jsstring) (tool : Tool ToolInput Env) :
  find_tool DevAgent name = Some tool -> In tool tools.
Proof.
  unfold find_tool. cbn [cfg_tools DevAgent_config]. intros H.
  now apply find_some in H.
Qed.

(** X11.  For the dev agent no tool failure is ever flagged: whatever the
    shell and the file system do, [executeTools] returns result blocks
    without [is_error] (a failure arrives as ordinary text), and the store is
    left as it was. *)
Theorem DevAgent_results_never_flagged
        (toolCalls : list (ToolUseBlock ToolInput))
        (w : World ToolInput Env Backend) :
  exists results w',
    executeTools DevAgent toolCalls w = (Ok results, w')
    /\ Forall (fun r => is_error r = None) results
    /\ store w' = store w.
Proof.
  destruct (executeTools_loop_no_error_flag ToolInput Env Backend DevAgent)
    with (toolCalls := toolCalls) (results := @nil ToolResultBlockParam) (w := w)
    as (rs & w' & He & Hflag).
  { intros name tool input st Hf.
    destruct (dev_tool_answers tool input st (dev_find_tool _ _ Hf))
      as (text & e & ->). now exists text. }
  { constructor. }
  exists rs, w'. repeat split; trivial.
  destruct (executeTools_loop_spec ToolInput Env Backend DevAgent
              (fun s => s = store w))
    with (toolCalls := toolCalls) (results := @nil ToolResultBlockParam) (w := w)
    as (rs2 & w2 & He2 & _ & _ & _ & _ & Hstore).
  { intros tool name input st Hf Hst.
    destruct (dev_tool_answers tool input st (dev_find_tool _ _ Hf))
      as (text & e & ->). exact Hst. }
  { reflexivity. }
  unfold executeTools in He. rewrite He in He2. injection He2 as _ <-.
  exact Hstore.
Qed.

(** X12.  [run_command] never answers with the empty string: a command
    that prints nothing is reported as completed, and a failure as an
    [Error: ...] text. *)
Theorem run_command_never_empty (input : ToolInput) (st : Store * Env) :
  exists c text,
    fst (execute (run_command schema execAsync) input st) = inl (c :: text).
Proof.
  cbn [execute run_command].
  destruct (execAsync _ _ _ _) as [[[stdout stderr]|error] e]; cbn [fst].
  - destruct stdout as [|c s]; [|now exists c, s].
    destruct stderr as [|c s]; [|now exists c, s].
    cbn [or_else]. eexists _, _. reflexivity.
  - eexists _, _. reflexivity.
Qed.

End DevAgentFacts.

(** ** The workflow agent: [update_task] *)

Lemma includes_empty (s : jsstring) : includes s [] = true.
Proof. destruct s; reflexivity. Qed.

Section WorkflowFacts.
Variable Env : Type.
Variable schema : string -> ToolInput.
Variable getTasks : Store * Env -> list Task + Exn.
Variable updateTask :
  jsstring -> TaskUpdate -> Store * Env -> (unit + Exn) * (Store * Env).
Variable now : Store * Env -> nat.

Local Abbreviation update_task :=
  (workflow_update_task schema getTasks updateTask now).

(** X13.  When the id of no listed task contains the given part,
    [update_task] answers [Task not found: part] and writes nothing:
    [updateTask] is not called and the state is as before. *)
Theorem update_task_not_found (input : ToolInput) (st : Store * Env)
        (tasks : list Task) :
  getTasks st = inl tasks ->
  forallb (fun t => negb (includes (task_id t) (ToString (field "taskId" input))))
          tasks = true ->
  execute update_task input st
  = (inl (lit "Task not found: " ++ ToString (field "taskId" input)), st).
Proof.
  intros Hg Hnone. cbn [execute workflow_update_task]. rewrite Hg.
  destruct (find _ tasks) as [t|] eqn:Hf; [|reflexivity].
  apply find_some in Hf as [Hin Hinc].
  rewrite forallb_forall in Hnone. specialize (Hnone t Hin).
  now rewrite Hinc in Hnone.
Qed.

(** X14.  An empty task id selects the first task listed, whichever it is:
    every id contains the empty string, so [update_task] updates the task at
    the head of the list and reports it updated. *)
Theorem update_task_empty_id_takes_first (input : ToolInput) (st : Store * Env)
        (first : Task) (others : list Task) :
  getTasks st = inl (first :: others) ->
  ToString (field "taskId" input) = [] ->
  execute update_task input st
  = match updateTask (task_id first)
            (mkTaskUpdate (field "status" input) (field "result" input)
               (if strict_eq (field "status" input) "completed"
                then Some (now st) else None))
            st with
    | (inl _, st') =>
        (inl (lit "Task updated: " ++ task_description first ++ lit " -> "
              ++ ToString (field "status" input)),
         st')
    | (inr error, st') => (inr error, st')
    end.
Proof.
  intros Hg Hid. cbn [execute workflow_update_task]. rewrite Hg, Hid.
  cbn [find]. now rewrite includes_empty.
Qed.

End WorkflowFacts.

(** ** The team chat *)

(** The text in which [match] found a delegation holds the directive. *)
Lemma delegateTo_directive (role : AgentRole) (raw token : jsstring) :
  delegateTo (parseResponse role raw) = Some token ->
  exists before after, raw = before ++ delegate_directive token ++ after.
Proof.
  unfold parseResponse. cbn [delegateTo]. unfold String_match.
  rewrite search_first_of_all.
  destruct (matchAll_from DELEGATE_capture 0 0 raw) as [|m ms] eqn:E;
    [discriminate|].
  cbn [hd_error]. intros H. injection H as <-.
  assert (Hin : In m (matchAll_from DELEGATE_capture 0 0 raw))
    by (rewrite E; now left).
  apply matchAll_from_In in Hin as (pre & t & rest & -> & _ & _ & Hm & _).
  apply match_DELEGATE in Hm as (tok & Hg & _ & Heq).
  unfold group. rewrite Hg. cbn [pred nth].
  exists pre, rest. now rewrite Heq.
Qed.

Lemma AGENTS_lookup_key (role : AgentRole) :
  AGENTS_lookup (agent_key role) = AgentInfo role
  /\ exists c t, agent_key role = c :: t.
Proof. destruct role; split; try reflexivity; eexists _, _; reflexivity. Qed.

Section TeamFacts.
Variables Input Env Backend : Type.
Variable create : Request Input -> Backend -> (Response Input + Exn) * Backend.
Variable team : AgentRole -> AgentConfig Input Env.
Variable toLowerCase : jsstring -> jsstring.

Local Abbreviation World := (World Input Env Backend).

(** A completed turn leaves the answer of the backend, as it came, at the
    end of the history of the session. *)
Lemma chat_Ok_history (config : AgentConfig Input Env) (fuel : nat)
      (sessionId userMessage : jsstring) (w w' : World) (r : AgentResponse) :
  chat create fuel config sessionId userMessage w = (Ok r, w') ->
  exists raw earlier,
    getConversationHistory sessionId (store w')
    = earlier ++ [mkMessage assistant raw (Some (cfg_role config))]
    /\ r = parseResponse (cfg_role config) raw.
Proof.
  unfold chat. intros H.
  apply bind_Ok in H as (u0 & w0 & _ & H).
  apply bind_Ok in H as (history & w1 & _ & H).
  apply bind_Ok in H as (request & w2 & _ & H).
  apply bind_Ok in H as (response & w3 & _ & H).
  apply bind_Ok in H as (final & w4 & _ & H).
  apply bind_Ok in H as (u5 & w5 & Hsave & H).
  apply bind_Ok in H as (u6 & w6 & Hmem & H).
  unfold ret in H. injection H as <- <-.
  rewrite write_store_run in Hsave. injection Hsave as _ <-.
  exists (response_text (snd final)),
         (getConversationHistory sessionId (store w4)).
  split; [|reflexivity].
  rewrite <- history_after_save. unfold getConversationHistory.
  f_equal. f_equal.
  destruct (memoriesToStore _) as [ms|].
  - destruct (store_memories_run _ _ _ ms
                (mkWorld (saveConversationMessage sessionId
                            (mkMessage assistant (response_text (snd final))
                                       (Some (cfg_role config)))
                            (store w4))
                         (env w4) (backend w4) (invoked w4) (sent w4)))
      as (w7 & Hrun & Hturns & _).
    rewrite Hrun in Hmem. injection Hmem as _ <-. exact Hturns.
  - unfold ret in Hmem. injection Hmem as _ <-. reflexivity.
Qed.

(** X15.  On a message other than [back]: when the orchestrator's turn
    completes with a delegation to one of the five agents, that agent is run
    on the same session with the same message, and the message list of its
    first request ends with the orchestrator's answer as the backend gave
    it, [[DELEGATE:...]] directive included, followed by the user's
    message. *)
Theorem delegated_agent_reads_directive
        (fuel : nat) (sessionId message sys : jsstring) (w w1 : World)
        (r1 : AgentResponse) (role : AgentRole) :
  jseqb (toLowerCase message) (lit "back") = false ->
  chat create fuel (team orchestrator) sessionId message w = (Ok r1, w1) ->
  delegateTo r1 = Some (agent_key role) ->
  buildSystemPrompt_of (systemPrompt (team role)) (cfg_role (team role))
    (saveConversationMessage sessionId (mkMessage user message None) (store w1))
  = Ok sys ->
  exists earlier before after more,
    sent (snd (chatWithTeam_turn create team toLowerCase fuel sessionId
                 message w))
    = sent w1
      ++ request_with (team role) sys
           (replayed Input earlier
            ++ [mkMessageParam assistant
                  (text_content Input
                     (before ++ delegate_directive (agent_key role) ++ after));
                mkMessageParam user (text_content Input message)])
      :: more.
Proof.
  intros Hback H1 Hd Hsys.
  destruct (chat_Ok_history _ _ _ _ _ _ _ H1) as (raw & earlier & Hh & Hr).
  rewrite Hr in Hd.
  destruct (delegateTo_directive _ _ _ Hd) as (before & after & Hraw).
  destruct (AGENTS_lookup_key role) as [Hl (c & t & Hk)].
  destruct (chat_first_request _ _ _ create (team role) fuel sessionId message
              sys w1 Hsys) as [more Hsent].
  rewrite chat_messages_end_with_user, Hh in Hsent.
  unfold replayed in Hsent. rewrite map_app, <- app_assoc in Hsent.
  cbn [map app msg_role msg_content] in Hsent. rewrite Hraw in Hsent.
  exists earlier, before, after, more. unfold replayed. rewrite <- Hsent.
  unfold chatWithTeam_turn. rewrite Hback, H1, <- Hr in *. rewrite Hd, Hk.
  rewrite <- Hk, Hl.
  now destruct (chat create fuel (team role) sessionId message w1) as [[r2|e|] w2].
Qed.

(** X16.  On a message other than [back]: a delegation to a name that is
    not a key of [AGENTS] starts no second agent, and the pass ends in the
    state that the orchestrator's turn left.  A name that every object
    inherits, such as [constructor], ends it with a caught [TypeError]; any
    other name is passed over in silence. *)
Theorem delegation_to_no_agent
        (fuel : nat) (sessionId message target : jsstring) (w w1 : World)
        (r1 : AgentResponse) :
  jseqb (toLowerCase message) (lit "back") = false ->
  chat create fuel (team orchestrator) sessionId message w = (Ok r1, w1) ->
  delegateTo r1 = Some target ->
  find (fun role => jseqb target (agent_key role))
       [orchestrator; dev; research; comms; workflow] = None ->
  exists printed,
    chatWithTeam_turn create team toLowerCase fuel sessionId message w
    = (Ok (Some printed), w1)
    /\ last printed []
       = if inherited target then failed not_a_constructor else [[]].
Proof.
  intros Hback H1 Hd Hnone. unfold chatWithTeam_turn. rewrite Hback, H1, Hd.
  destruct target as [|c t].
  - eexists. split; [reflexivity|]. reflexivity.
  - unfold AGENTS_lookup. rewrite Hnone.
    destruct (inherited (c :: t)); eexists; (split; [reflexivity|]);
      now rewrite last_last.
Qed.

End TeamFacts.

(** ** The research agent: text of a fetched page *)

Example html_to_text_page :
  html_to_text
    (lit "<html><HEAD><Style type=x>p{}</STYLE><script>var a='<p>';</SCRIPT></head>"
     ++ [10%N] ++ lit "<body> <p>Hello,   <b>world</b>!</p>" ++ [9; 10]%N
     ++ lit "<>a> 1 < 2</body>")
  = lit "Hello, world ! <>a> 1".
Proof. vm_compute. reflexivity. Qed.

(** A greedy run whose continuation cannot fail takes the longest run. *)
Lemma greedy_star_longest (R : Type) (cls : N -> bool)
      (k : jsstring -> jsstring -> option R) :
  (forall m rest, k m rest <> None) ->
  forall s acc,
  exists run rest,
    s = run ++ rest /\ forallb cls run = true
    /\ match rest with [] => True | c :: _ => cls c = false end
    /\ greedy_star cls k acc s = k (rev acc ++ run) rest.
Proof.
  intros Hk. induction s as [|c s IH]; intros acc.
  - exists [], []. simpl. rewrite app_nil_r. auto.
  - simpl. destruct (cls c) eqn:Hc.
    + destruct (IH (c :: acc)) as (run & rest & -> & Hrun & Hrest & Hg).
      exists (c :: run), rest. simpl. rewrite Hc, Hrun, Hg.
      simpl. rewrite <- app_assoc. simpl.
      destruct (k (rev acc ++ c :: run) rest) eqn:E; [auto|].
      now apply Hk in E.
    + exists [], (c :: s). simpl. rewrite app_nil_r. auto.
Qed.

(** The expression [\s+] at the head of a text: no match before a unit that
    is not white space, and otherwise the longest run of white space. *)
Lemma SPACES_match (s : jsstring) :
  match regex_matcher SPACES s with
  | None => match s with [] => True | c :: _ => white_space c = false end
  | Some rest =>
      exists c run,
        s = (c :: run) ++ rest /\ white_space c = true
        /\ match rest with [] => True | d :: _ => white_space d = false end
  end.
Proof.
  unfold regex_matcher, SPACES. cbn [match_here].
  destruct s as [|c s]; [exact I|].
  destruct (white_space c) eqn:Hc; cbn [option_map]; [|reflexivity].
  destruct (greedy_star_longest _ white_space
              (fun (m rest : jsstring) =>
                 @Some (list jsstring * jsstring) (rev [], rest))
              ltac:(discriminate) s [])
    as (run & rest & -> & _ & Hrest & ->).
  cbn [option_map snd]. now exists c, run.
Qed.

Lemma replace_from_skip (m : jsstring -> option jsstring)
      (replacement run rest : jsstring) :
  replace_from m replacement (length run) (run ++ rest)
  = replace_from m replacement 0 rest.
Proof. induction run as [|c run IH]; [reflexivity | exact IH]. Qed.

Lemma single_spaced_weaken (s : jsstring) :
  single_spaced true s = true -> single_spaced false s = true.
Proof.
  destruct s as [|c s]; simpl; [trivial|].
  destruct (white_space c); [|trivial].
  rewrite andb_false_r. discriminate.
Qed.

Lemma collapse_single_spaced (n : nat) :
  forall s, length s <= n ->
    single_spaced false (String_replace (regex_matcher SPACES) (lit " ") s) = true
    /\ (match s with [] => True | c :: _ => white_space c = false end ->
        single_spaced true (String_replace (regex_matcher SPACES) (lit " ") s)
        = true).
Proof.
  unfold String_replace.
  induction n as [|n IH]; intros s Hlen.
  - destruct s; [|simpl in Hlen; lia]. split; reflexivity.
  - pose proof (SPACES_match s) as Hm.
    destruct s as [|c s]; [split; reflexivity|].
    cbn [replace_from].
    destruct (regex_matcher SPACES (c :: s)) as [rest|].
    + destruct Hm as (c' & run & Heq & Hc & Hrest).
      injection Heq as <- ->.
      replace (matched_length (c :: run ++ rest) rest) with (S (length run))
        by (unfold matched_length; cbn [length]; rewrite length_app; lia).
      cbn [Nat.eqb pred app]. rewrite replace_from_skip.
      destruct (IH rest) as [_ Htrue].
      { simpl in Hlen. rewrite length_app in Hlen. lia. }
      specialize (Htrue Hrest).
      change (lit " ") with [32%N] in *. cbn [app single_spaced].
      change (white_space 32) with true. cbv iota.
      rewrite Htrue. split; [reflexivity|].
      intros Hhead. congruence.
    + destruct (IH s) as [Hfalse _]; [simpl in Hlen; lia|].
      cbn [single_spaced]. rewrite Hm. split; [exact Hfalse|].
      intros _. exact Hfalse.
Qed.

Lemma single_spaced_prefix (x y : jsstring) :
  forall b, single_spaced b (x ++ y) = true -> single_spaced b x = true.
Proof.
  induction x as [|c x IH]; intros b; simpl; [trivial|].
  destruct (white_space c); [|apply IH].
  intros H. apply andb_true_iff in H as [H1 H2].
  rewrite H1. now apply IH.
Qed.

Lemma single_spaced_trimStart (s : jsstring) :
  forall b, single_spaced b s = true -> single_spaced true (trimStart s) = true.
Proof.
  induction s as [|c s IH]; intros b; simpl; [trivial|].
  destruct (white_space c) eqn:Hc.
  - intros H. apply andb_true_iff in H as [_ H]. now apply IH in H.
  - intros H. simpl. now rewrite Hc.
Qed.

Lemma trimEnd_prefix (s : jsstring) : exists y, s = trimEnd s ++ y.
Proof.
  assert (Hsuf : forall t : jsstring, exists x, t = x ++ trimStart t).
  { induction t as [|c t [x IH]]; simpl; [now exists []|].
    destruct (white_space c); [|now exists []].
    exists (c :: x). simpl. now rewrite <- IH. }
  destruct (Hsuf (rev s)) as [x Hx]. exists (rev x). unfold trimEnd.
  rewrite <- rev_app_distr, <- Hx. symmetry. apply rev_involutive.
Qed.

Lemma single_spaced_facts (t : jsstring) :
  single_spaced true t = true ->
  forall a c b,
    t = a ++ c :: b -> white_space c = true ->
    c = 32%N /\ a <> []
    /\ match b with [] => True | d :: _ => white_space d = false end.
Proof.
  assert (Hgen : forall (a : jsstring) (flag : bool) (c : N) (b : jsstring),
             single_spaced flag (a ++ c :: b) = true -> white_space c = true ->
             c = 32%N /\ (a = [] -> flag = false)
             /\ match b with [] => True | d :: _ => white_space d = false end).
  { induction a as [|x a IH]; intros flag c b H Hc.
    - simpl in H. rewrite Hc in H.
      apply andb_true_iff in H as [H Hb]. apply andb_true_iff in H as [H32 Hf].
      apply N.eqb_eq in H32. apply negb_true_iff in Hf.
      repeat split; trivial.
      destruct b as [|d b]; [exact I|]. simpl in Hb.
      destruct (white_space d); [|reflexivity].
      now rewrite andb_false_r in Hb.
    - simpl in H. destruct (white_space x).
      + apply andb_true_iff in H as [_ H].
        destruct (IH _ _ _ H Hc) as (H1 & _ & H3).
        repeat split; trivial. discriminate.
      + destruct (IH _ _ _ H Hc) as (H1 & _ & H3).
        repeat split; trivial. discriminate. }
  intros H a c b -> Hc. destruct (Hgen a true c b H Hc) as (H1 & H2 & H3).
  repeat split; trivial. intros ->. now specialize (H2 eq_refl).
Qed.

(** X17.  The text that [fetch_url] makes of a page has at most 10000 code
    units, and white space occurs in it only as single spaces between other
    units: every white-space unit is a space, is not the first unit and is
    not followed by another white-space unit. *)
Theorem html_to_text_spacing (html : jsstring) :
  length (html_to_text html) <= 10000
  /\ forall a c b,
      html_to_text html = a ++ c :: b -> white_space c = true ->
      c = 32%N /\ a <> []
      /\ match b with [] => True | d :: _ => white_space d = false end.
Proof.
  split; [apply firstn_le_length|].
  apply single_spaced_facts. unfold html_to_text.
  set (u := String_replace (regex_matcher TAG) _ _).
  destruct (collapse_single_spaced (length u) u (le_n _)) as [Hc _].
  set (v := String_replace (regex_matcher SPACES) _ u) in *.
  apply single_spaced_trimStart in Hc.
  destruct (trimEnd_prefix (trimStart v)) as [y Hy].
  rewrite Hy in Hc. apply single_spaced_prefix in Hc.
  fold (trim v) in Hc.
  rewrite <- (firstn_skipn 10000 (trim v)) in Hc.
  now apply single_spaced_prefix in Hc.
Qed.

(** The expression [<[^>]+>] at the head of a text: an opening bracket, a
    unit that is not a closing bracket, and then the text up to the first
    closing bracket. *)
Lemma greedy_to_gt (caps : list jsstring) (s : jsstring) :
  forall acc,
    greedy_star not_gt
      (fun (_ rest : jsstring) =>
         match strip_prefix (lit ">") rest with
         | Some s' => Some (rev caps, s')
         | None => None
         end) acc s
    = option_map (fun rest => (rev caps, rest)) (after_gt s).
Proof.
  change (lit ">") with [62%N].
  induction s as [|c s IH]; intros acc; [reflexivity|].
  cbn [greedy_star after_gt]. unfold not_gt at 1.
  destruct (N.eqb_spec c 62) as [->|Hne]; cbn [negb]; [reflexivity|].
  rewrite IH. destruct (after_gt s); [reflexivity|].
  cbn [option_map strip_prefix].
  destruct (N.eqb_spec 62 c); [congruence | reflexivity].
Qed.

Lemma TAG_match (s : jsstring) :
  regex_matcher TAG s
  = match s with
    | a :: c :: s' => if N.eqb a 60 && not_gt c then after_gt s' else None
    | _ => None
    end.
Proof.
  unfold regex_matcher, TAG. cbn [match_here]. change (lit "<") with [60%N].
  destruct s as [|a s]; [reflexivity|]. cbn [strip_prefix].
  rewrite (N.eqb_sym 60 a).
  destruct (N.eqb a 60); cbn [andb].
  - destruct s as [|c s]; [reflexivity|].
    destruct (not_gt c); [|reflexivity].
    rewrite greedy_to_gt. now destruct (after_gt s).
  - now destruct s.
Qed.

Lemma after_gt_split (s rest : jsstring) :
  after_gt s = Some rest -> exists run, s = run ++ 62%N :: rest.
Proof.
  revert rest. induction s as [|c s IH]; intros rest; simpl; [discriminate|].
  destruct (N.eqb_spec c 62) as [->|_].
  - intros H. injection H as <-. now exists [].
  - intros H. destruct (IH _ H) as [run ->]. now exists (c :: run).
Qed.

Lemma after_gt_None (s : jsstring) :
  after_gt s = None <-> existsb (fun c => N.eqb c 62) s = false.
Proof.
  induction s as [|c s IH]; simpl; [tauto|].
  destruct (N.eqb c 62); simpl; [split; discriminate | exact IH].
Qed.

Lemma tag_free_cons (c : N) (s : jsstring) :
  tag_free (c :: s) = true
  <-> regex_matcher TAG (c :: s) = None /\ tag_free s = true.
Proof.
  cbn [tag_free]. destruct (regex_matcher TAG (c :: s)); split;
    try discriminate; intuition congruence.
Qed.

Lemma tag_free_suffix (x y : jsstring) :
  tag_free (x ++ y) = true -> tag_free y = true.
Proof.
  induction x as [|c x IH]; [trivial|]. cbn [app].
  intros H. apply tag_free_cons in H as [_ H]. now apply IH.
Qed.

Lemma after_gt_app_None (x y : jsstring) :
  after_gt (x ++ y) = None -> after_gt x = None.
Proof.
  rewrite !after_gt_None, existsb_app. intros H.
  now apply orb_false_iff in H as [H _].
Qed.

Lemma TAG_match_prefix_None (x y : jsstring) :
  regex_matcher TAG (x ++ y) = None -> regex_matcher TAG x = None.
Proof.
  rewrite !TAG_match.
  destruct x as [|a [|c x]]; cbn [app]; try reflexivity.
  destruct (N.eqb a 60 && not_gt c); [apply after_gt_app_None | reflexivity].
Qed.

Lemma tag_free_prefix (x y : jsstring) :
  tag_free (x ++ y) = true -> tag_free x = true.
Proof.
  induction x as [|c x IH]; [reflexivity|]. cbn [app]. intros H.
  apply tag_free_cons in H as [Hm H]. apply tag_free_cons. split.
  - exact (TAG_match_prefix_None (c :: x) y Hm).
  - now apply IH.
Qed.

Lemma search_TAG_free (s : jsstring) :
  forall i, tag_free s = true -> search TAG i s = None.
Proof.
  induction s as [|c s IH]; intros i H; cbn [search tag_free] in *;
    unfold regex_matcher in H;
    destruct (match_here TAG [] _) as [[caps rest]|]; cbn [option_map] in H;
    try discriminate; auto.
Qed.

(** How the two replacements by a space proceed: a match is replaced by one
    space and the scan resumes after it, any other unit is copied. *)
Lemma collapse_step (s : jsstring) :
  match s with
  | [] => String_replace (regex_matcher SPACES) (lit " ") s = []
  | c :: s' =>
      if white_space c then
        exists run rest,
          s = (c :: run) ++ rest
          /\ String_replace (regex_matcher SPACES) (lit " ") s
             = 32%N :: String_replace (regex_matcher SPACES) (lit " ") rest
      else
        String_replace (regex_matcher SPACES) (lit " ") s
        = c :: String_replace (regex_matcher SPACES) (lit " ") s'
  end.
Proof.
  unfold String_replace. pose proof (SPACES_match s) as Hm.
  destruct s as [|c s]; [reflexivity|]. cbn [replace_from].
  destruct (regex_matcher SPACES (c :: s)) as [rest|].
  - destruct Hm as (c' & run & Heq & Hc & _). injection Heq as <- ->.
    rewrite Hc. exists run, rest. split; [reflexivity|].
    replace (matched_length (c :: run ++ rest) rest) with (S (length run))
      by (unfold matched_length; cbn [length]; rewrite length_app; lia).
    cbn [Nat.eqb pred app]. now rewrite replace_from_skip.
  - now rewrite Hm.
Qed.

Lemma strip_tags_step (s : jsstring) :
  match regex_matcher TAG s with
  | Some rest =>
      exists pre,
        s = pre ++ rest
        /\ String_replace (regex_matcher TAG) (lit " ") s
           = 32%N :: String_replace (regex_matcher TAG) (lit " ") rest
  | None =>
      match s with
      | [] => String_replace (regex_matcher TAG) (lit " ") s = []
      | c :: s' =>
          String_replace (regex_matcher TAG) (lit " ") s
          = c :: String_replace (regex_matcher TAG) (lit " ") s'
      end
  end.
Proof.
  unfold String_replace. pose proof (TAG_match s) as Hm.
  destruct s as [|a s1]; [now rewrite Hm|].
  cbn [replace_from].
  destruct (regex_matcher TAG (a :: s1)) as [rest|] eqn:E; [|reflexivity].
  destruct s1 as [|c s2]; [discriminate|].
  destruct (N.eqb a 60 && not_gt c); [|discriminate].
  symmetry in Hm. apply after_gt_split in Hm as [run ->].
  exists (a :: c :: run ++ [62%N]). split.
  { cbn [app]. now rewrite <- app_assoc. }
  replace (matched_length (a :: c :: run ++ 62%N :: rest) rest)
    with (S (length (c :: run ++ [62%N])))
    by (unfold matched_length; cbn [length]; rewrite !length_app;
        cbn [length]; lia).
  cbn [Nat.eqb pred]. change (lit " ") with [32%N].
  replace (c :: run ++ 62%N :: rest) with ((c :: run ++ [62%N]) ++ rest)
    by (cbn [app]; now rewrite <- app_assoc).
  rewrite replace_from_skip. reflexivity.
Qed.

Lemma after_gt_cons_None (c : N) (s : jsstring) :
  after_gt (c :: s) = None <-> not_gt c = true /\ after_gt s = None.
Proof.
  cbn [after_gt]. unfold not_gt. destruct (N.eqb c 62); cbn [negb];
    split; try discriminate; intuition congruence.
Qed.

Lemma after_gt_suffix_None (x y : jsstring) :
  after_gt (x ++ y) = None -> after_gt y = None.
Proof.
  rewrite !after_gt_None, existsb_app. intros H.
  now apply orb_false_iff in H as [_ H].
Qed.

(** Without a closing bracket there is no tag to replace. *)
Lemma strip_tags_without_gt (s : jsstring) :
  after_gt s = None -> String_replace (regex_matcher TAG) (lit " ") s = s.
Proof.
  induction s as [|c s IH]; intros H.
  { pose proof (strip_tags_step []) as H0. rewrite TAG_match in H0. exact H0. }
  pose proof (strip_tags_step (c :: s)) as Hs.
  rewrite TAG_match in Hs. apply after_gt_cons_None in H as [_ H].
  destruct s as [|d s].
  - rewrite Hs. reflexivity.
  - apply after_gt_cons_None in H as [Hd H']. rewrite H' in Hs.
    assert (Hs' : String_replace (regex_matcher TAG) (lit " ") (c :: d :: s)
                  = c :: String_replace (regex_matcher TAG) (lit " ") (d :: s))
      by (destruct (N.eqb c 60 && not_gt d); exact Hs).
    rewrite Hs', IH; [reflexivity|].
    apply after_gt_cons_None. now split.
Qed.

(** No tag is left after the tags have been replaced. *)
Lemma strip_tags_tag_free (n : nat) :
  forall s, length s <= n ->
    tag_free (String_replace (regex_matcher TAG) (lit " ") s) = true.
Proof.
  induction n as [|n IH]; intros s Hlen.
  - destruct s; [reflexivity | simpl in Hlen; lia].
  - pose proof (strip_tags_step s) as Hs. pose proof (TAG_match s) as Hm.
    destruct (regex_matcher TAG s) as [rest|].
    + destruct Hs as (pre & -> & ->).
      destruct pre as [|p pre]; [|].
      * cbn [app] in Hm. destruct rest as [|a [|c r]]; try discriminate.
        destruct (N.eqb a 60 && not_gt c); [|discriminate].
        symmetry in Hm. apply after_gt_split in Hm as [run Hm].
        apply (f_equal (@length N)) in Hm. rewrite length_app in Hm.
        cbn [length] in Hm. lia.
      * apply tag_free_cons. split; [now rewrite TAG_match; destruct (String_replace _ _ rest)|].
        apply IH. cbn [length app] in Hlen. rewrite length_app in Hlen. lia.
    + destruct s as [|a s]; [now rewrite Hs|]. rewrite Hs.
      apply tag_free_cons. split; [|apply IH; simpl in Hlen; lia].
      rewrite TAG_match.
      destruct (String_replace (regex_matcher TAG) (lit " ") s) as [|c' z] eqn:Eout;
        [reflexivity|].
      destruct (N.eqb a 60) eqn:Ea; [|reflexivity]. cbn [andb].
      destruct s as [|c s2].
      { pose proof (strip_tags_step []) as H0. rewrite TAG_match in H0.
        rewrite H0 in Eout. discriminate. }
      cbn [andb] in Hm.
      destruct (not_gt c) eqn:Hc.
      * symmetry in Hm.
        assert (Hno : after_gt (c :: s2) = None)
          by (apply after_gt_cons_None; now split).
        rewrite (strip_tags_without_gt _ Hno) in Eout.
        injection Eout as <- <-. now rewrite Hc.
      * pose proof (strip_tags_step (c :: s2)) as H1. rewrite TAG_match in H1.
        assert (E62 : N.eqb c 60 = false).
        { unfold not_gt in Hc. apply negb_false_iff, N.eqb_eq in Hc. now subst c. }
        destruct s2 as [|d s3]; [|rewrite E62 in H1; cbn [andb] in H1];
          rewrite H1 in Eout; injection Eout as <- _; now rewrite Hc.
Qed.

Lemma collapse_without_gt (n : nat) :
  forall s, length s <= n -> after_gt s = None ->
    after_gt (String_replace (regex_matcher SPACES) (lit " ") s) = None.
Proof.
  induction n as [|n IH]; intros s Hlen Hno.
  - destruct s; [reflexivity | simpl in Hlen; lia].
  - pose proof (collapse_step s) as Hs.
    destruct s as [|c s]; [now rewrite Hs|].
    destruct (white_space c).
    + destruct Hs as (run & rest & Heq & ->).
      apply after_gt_cons_None. split; [reflexivity|].
      rewrite Heq in Hno, Hlen. apply IH.
      * cbn [length app] in Hlen. rewrite length_app in Hlen. lia.
      * exact (after_gt_suffix_None _ _ Hno).
    + rewrite Hs. apply after_gt_cons_None in Hno as [Hc Hno].
      apply after_gt_cons_None. split; [exact Hc|].
      apply IH; [simpl in Hlen; lia | exact Hno].
Qed.

(** Collapsing white space brings no tag about. *)
Lemma collapse_tag_free (n : nat) :
  forall s, length s <= n -> tag_free s = true ->
    tag_free (String_replace (regex_matcher SPACES) (lit " ") s) = true.
Proof.
  induction n as [|n IH]; intros s Hlen Hfree.
  - destruct s; [reflexivity | simpl in Hlen; lia].
  - pose proof (collapse_step s) as Hs.
    destruct s as [|a s]; [now rewrite Hs|].
    destruct (white_space a) eqn:Ha.
    + destruct Hs as (run & rest & Heq & ->).
      apply tag_free_cons.
      split; [now rewrite TAG_match; destruct (String_replace _ _ rest)|].
      rewrite Heq in Hfree, Hlen. apply IH.
      * cbn [length app] in Hlen. rewrite length_app in Hlen. lia.
      * exact (tag_free_suffix _ _ Hfree).
    + rewrite Hs. apply tag_free_cons in Hfree as [Hm Hfree].
      apply tag_free_cons. split; [|apply IH; [simpl in Hlen; lia | exact Hfree]].
      rewrite TAG_match in Hm |- *.
      destruct (String_replace (regex_matcher SPACES) (lit " ") s) as [|c' z] eqn:Eout;
        [reflexivity|].
      destruct (N.eqb a 60); [|reflexivity]. cbn [andb] in *.
      pose proof (collapse_step s) as H1.
      destruct s as [|c s2]; [rewrite H1 in Eout; discriminate|].
      destruct (not_gt c) eqn:Hc.
      * assert (Hno : after_gt (c :: s2) = None)
          by (apply after_gt_cons_None; now split).
        apply (collapse_without_gt (length (c :: s2)) _ (le_n _)) in Hno.
        rewrite Eout in Hno. apply after_gt_cons_None in Hno as [-> ->].
        reflexivity.
      * assert (Hws : white_space c = false).
        { unfold not_gt in Hc. apply negb_false_iff, N.eqb_eq in Hc. now subst c. }
        rewrite Hws in H1. rewrite H1 in Eout. injection Eout as <- _.
        now rewrite Hc.
Qed.

(** X18.  The text that [fetch_url] makes of a page holds no tag: the
    expression [<[^>]+>] that the conversion replaces matches nowhere in its
    result, whatever the page. *)
Theorem html_to_text_has_no_tag (html : jsstring) :
  String_match TAG (html_to_text html) = None.
Proof.
  unfold String_match. apply search_TAG_free. unfold html_to_text.
  set (src := String_replace (match_here_i STYLE_element) [] _).
  pose proof (strip_tags_tag_free (length src) src (le_n _)) as H.
  set (u := String_replace (regex_matcher TAG) _ src) in *.
  apply (collapse_tag_free (length u) u (le_n _)) in H.
  set (v := String_replace (regex_matcher SPACES) _ u) in *.
  assert (Hsuf : exists x, v = x ++ trimStart v).
  { clear. induction v as [|c v [x IH]]; simpl; [now exists []|].
    destruct (white_space c); [|now exists []].
    exists (c :: x). simpl. now rewrite <- IH. }
  destruct Hsuf as [x Hx]. rewrite Hx in H. apply tag_free_suffix in H.
  destruct (trimEnd_prefix (trimStart v)) as [y Hy].
  rewrite Hy in H. apply tag_free_prefix in H. fold (trim v) in H.
  rewrite <- (firstn_skipn 10000 (trim v)) in H.
  now apply tag_free_prefix in H.
Qed.

(** ** Instances of the statements above *)

Lemma update_task_not_found_witness :
  execute (workflow_update_task (fun _ => []) sample_getTasks sample_updateTask
                                sample_now)
          [(lit "taskId", VString (lit "task_19"))]
          (mkStore 7 [] [] [], tt)
  = (inl (lit "Task not found: task_19"), (mkStore 7 [] [] [], tt)).
Proof.
  apply (update_task_not_found unit (fun _ => []) sample_getTasks
           sample_updateTask sample_now
           [(lit "taskId", VString (lit "task_19"))]
           (mkStore 7 [] [] [], tt) sample_tasks);
    reflexivity.
Defined.

Lemma update_task_empty_id_takes_first_witness :
  execute (workflow_update_task (fun _ => []) sample_getTasks sample_updateTask
                                sample_now)
          [(lit "taskId", VString []); (lit "status", VString (lit "completed"))]
          (mkStore 7 [] [] [], tt)
  = (inl (lit "Task updated: Write the report -> completed"),
     (mkStore 8 [] [] [], tt)).
Proof.
  apply (update_task_empty_id_takes_first unit (fun _ => []) sample_getTasks
           sample_updateTask sample_now
           [(lit "taskId", VString []); (lit "status", VString (lit "completed"))]
           (mkStore 7 [] [] [], tt)
           (mkTask (lit "task_17_ab") (lit "Write the report") (lit "pending")
                   None None 3 None)
           [mkTask (lit "task_18_cd") (lit "Send the invoice") (lit "pending")
                   (Some workflow) None 4 None]);
    reflexivity.
Defined.

Lemma delegated_agent_reads_directive_witness :
  exists earlier before after more,
    sent (snd (chatWithTeam_turn (@scripted unit) sample_team ascii_toLowerCase
                 0 (lit "s1") (lit "fix the build")
                 (sample_world [answers unit (lit "Over to dev. [DELEGATE:dev]");
                                answers unit (lit "On it.")])))
    = sent (snd (chat (@scripted unit) 0 (sample_team orchestrator) (lit "s1")
                   (lit "fix the build")
                   (sample_world [answers unit (lit "Over to dev. [DELEGATE:dev]");
                                  answers unit (lit "On it.")])))
      ++ request_with (sample_team dev) (lit "You are an agent.")
           (replayed unit earlier
            ++ [mkMessageParam assistant
                  (text_content unit
                     (before ++ delegate_directive (agent_key dev) ++ after));
                mkMessageParam user (text_content unit (lit "fix the build"))])
      :: more.
Proof.
  apply (delegated_agent_reads_directive unit unit (list (Response unit))
           (@scripted unit) sample_team ascii_toLowerCase
           0 (lit "s1") (lit "fix the build")
           (lit "You are an agent.")
           (sample_world [answers unit (lit "Over to dev. [DELEGATE:dev]");
                          answers unit (lit "On it.")])
           (snd (chat (@scripted unit) 0 (sample_team orchestrator) (lit "s1")
                   (lit "fix the build")
                   (sample_world [answers unit (lit "Over to dev. [DELEGATE:dev]");
                                  answers unit (lit "On it.")])))
           (parseResponse orchestrator (lit "Over to dev. [DELEGATE:dev]"))
           dev);
    vm_compute; reflexivity.
Defined.

Lemma delegation_to_no_agent_witness :
  exists printed,
    chatWithTeam_turn (@scripted unit) sample_team ascii_toLowerCase 0
      (lit "s1") (lit "who builds?")
      (sample_world [answers unit (lit "Ask them. [DELEGATE:constructor]");
                     answers unit (lit "never asked")])
    = (Ok (Some printed),
       snd (chat (@scripted unit) 0 (sample_team orchestrator) (lit "s1")
              (lit "who builds?")
              (sample_world [answers unit (lit "Ask them. [DELEGATE:constructor]");
                             answers unit (lit "never asked")])))
    /\ last printed []
       = if inherited (lit "constructor") then failed not_a_constructor
         else [[]].
Proof.
  apply (delegation_to_no_agent unit unit (list (Response unit))
           (@scripted unit) sample_team ascii_toLowerCase
           0 (lit "s1") (lit "who builds?")
           (lit "constructor")
           (sample_world [answers unit (lit "Ask them. [DELEGATE:constructor]");
                          answers unit (lit "never asked")])
           (snd (chat (@scripted unit) 0 (sample_team orchestrator) (lit "s1")
                   (lit "who builds?")
                   (sample_world [answers unit (lit "Ask them. [DELEGATE:constructor]");
                                  answers unit (lit "never asked")])))
           (parseResponse orchestrator (lit "Ask them. [DELEGATE:constructor]")));
    vm_compute; reflexivity.
Defined.

(** ** The workflow agent: [list_tasks] *)

Example list_tasks_output :
  fst (execute (workflow_list_tasks (fun _ => []) (fun _ _ _ => inl listed_tasks)
                                    ascii_toUpperCase)
               [] (mkStore 0 [] [] [], tt))
  = inl ([10%N] ++ lit "## 7" ++ [10%N]
         ++ lit "- [t2] Ship it" ++ [10%N]
         ++ [10%N] ++ lit "## PENDING" ++ [10%N]
         ++ lit "- [ab12cd] Write the report (@comms)" ++ [10%N]
         ++ lit "- [ef34gh] Send the invoice" ++ [10%N]).
Proof. vm_compute. reflexivity. Qed.

Lemma status_own_push (c k : jsstring) (t : Task) (o : TaskGroups) :
  status_own c (status_push k t o)
  = if jseqb c k then option_map (fun v => v ++ [t]) (status_own c o)
    else status_own c o.
Proof.
  induction o as [|[k' v] o IH]; simpl.
  - now destruct (jseqb c k).
  - destruct (jseqb k k') eqn:Ek; simpl.
    + apply jseqb_true in Ek as <-. now destruct (jseqb c k).
    + rewrite IH. destruct (jseqb c k') eqn:Ec; trivial.
      apply jseqb_true in Ec as ->.
      destruct (jseqb k' k) eqn:E; trivial.
      apply jseqb_true in E as ->. now rewrite jseqb_refl in Ek.
Qed.

Lemma status_own_new (c k : jsstring) (v : list Task) (o : TaskGroups) :
  status_own c (o ++ [(k, v)])
  = match status_own c o with
    | Some x => Some x
    | None => if jseqb c k then Some v else None
    end.
Proof.
  induction o as [|[k' v'] o IH]; simpl; [reflexivity|].
  now destruct (jseqb c k').
Qed.

Lemma status_own_None (k : jsstring) (o : TaskGroups) :
  status_own k o = None <-> ~ In k (map fst o).
Proof.
  induction o as [|[k' v] o IH]; simpl; [intuition|].
  destruct (jseqb k k') eqn:E.
  - apply jseqb_true in E as ->. split; [discriminate | intuition].
  - apply jseqb_false in E. rewrite IH. intuition.
Qed.

Lemma status_own_In (k : jsstring) (v : list Task) (o : TaskGroups) :
  NoDup (map fst o) -> In (k, v) o -> status_own k o = Some v.
Proof.
  induction o as [|[k' v'] o IH]; simpl; [intuition|].
  intros Hnd [H|H]; inversion Hnd as [|? ? Hnotin Hnd']; subst.
  - injection H as -> ->. now rewrite jseqb_refl.
  - destruct (jseqb k k') eqn:E; [|now apply IH].
    apply jseqb_true in E as ->. exfalso. apply Hnotin.
    now apply (in_map fst) in H.
Qed.

Lemma status_push_keys (k : jsstring) (t : Task) (o : TaskGroups) :
  map fst (status_push k t o) = map fst o.
Proof.
  induction o as [|[k' v] o IH]; simpl; [reflexivity|].
  destruct (jseqb k k'); simpl; [reflexivity | now rewrite IH].
Qed.

Lemma status_push_tasks (k : jsstring) (t : Task) (o : TaskGroups) :
  status_own k o <> None ->
  Permutation (flat_map snd (status_push k t o)) (flat_map snd o ++ [t]).
Proof.
  induction o as [|[k' v] o IH]; simpl; [congruence|].
  destruct (jseqb k k'); simpl; intros H.
  - rewrite <- !app_assoc. apply Permutation_app_head, Permutation_app_comm.
  - rewrite <- app_assoc. now apply Permutation_app_head, IH.
Qed.

(** Grouping files every task under its status, in the order of the
    tasks. *)
Lemma group_by_status_own (tasks : list Task) :
  forall acc grouped c,
    group_by_status tasks acc = inl grouped ->
    status_own c grouped
    = match status_own c acc, filter (fun t => jseqb c (task_status t)) tasks with
      | Some v, f => Some (v ++ f)
      | None, [] => None
      | None, f => Some f
      end.
Proof.
  induction tasks as [|t tasks IH]; intros acc grouped c; simpl.
  - intros H. injection H as <-.
    destruct (status_own c acc); [now rewrite app_nil_r | reflexivity].
  - unfold status_step.
    destruct (status_own (task_status t) acc) as [v0|] eqn:Hown.
    + intros H. rewrite (IH _ _ c H), status_own_push.
      destruct (jseqb c (task_status t)) eqn:Ec.
      * apply jseqb_true in Ec as ->. rewrite Hown. simpl.
        now rewrite <- app_assoc.
      * reflexivity.
    + destruct (inherited (task_status t)); [discriminate|].
      intros H. rewrite (IH _ _ c H), status_own_new.
      destruct (jseqb c (task_status t)) eqn:Ec.
      * apply jseqb_true in Ec as ->. now rewrite Hown.
      * now destruct (status_own c acc).
Qed.

(** No status is the key of two groups, and every task is in one group. *)
Lemma group_by_status_partition (tasks : list Task) :
  forall acc grouped,
    group_by_status tasks acc = inl grouped ->
    NoDup (map fst acc) ->
    NoDup (map fst grouped)
    /\ Permutation (flat_map snd grouped) (flat_map snd acc ++ tasks).
Proof.
  induction tasks as [|t tasks IH]; intros acc grouped; simpl.
  - intros H Hnd. injection H as <-. now rewrite app_nil_r.
  - unfold status_step.
    destruct (status_own (task_status t) acc) as [v0|] eqn:Hown.
    + intros H Hnd. destruct (IH _ _ H) as [Hk Hp].
      { now rewrite status_push_keys. }
      split; [exact Hk|]. rewrite Hp.
      rewrite (status_push_tasks (task_status t) t acc) by congruence.
      now rewrite <- app_assoc.
    + destruct (inherited (task_status t)); [discriminate|].
      intros H Hnd. destruct (IH _ _ H) as [Hk Hp].
      { rewrite map_app. simpl. apply status_own_None in Hown.
        rewrite <- (app_nil_r (map fst acc ++ [task_status t])), <- app_assoc.
        apply NoDup_Add with (a := task_status t) (l := map fst acc ++ []).
        - apply Add_app.
        - rewrite app_nil_r. now split. }
      split; [exact Hk|]. rewrite Hp, flat_map_app. simpl.
      now rewrite <- app_assoc.
Qed.

Lemma insert_index_Permutation (A : Type) (e : N * A) (l : list (N * A)) :
  Permutation (insert_index e l) (e :: l).
Proof.
  induction l as [|e' l IH]; simpl; [reflexivity|].
  destruct (fst e <=? fst e')%N; [reflexivity|].
  rewrite IH. apply perm_swap.
Qed.

Lemma sorted_index_Permutation (A : Type) (l : list (N * A)) :
  Permutation (fold_right (@insert_index A) [] l) l.
Proof.
  induction l as [|e l IH]; simpl; [reflexivity|].
  rewrite insert_index_Permutation. now constructor.
Qed.

(** [Object.entries] lists every group once. *)
Lemma status_entries_Permutation (o : TaskGroups) :
  Permutation (status_entries o) o.
Proof.
  unfold status_entries. rewrite sorted_index_Permutation.
  induction o as [|kv o IH]; simpl; [reflexivity|].
  unfold is_array_index at 1.
  destruct (array_index (fst kv)); simpl.
  - now constructor.
  - rewrite <- Permutation_middle. now constructor.
Qed.

Lemma flat_map_Permutation (A B : Type) (f : A -> list B) (l l' : list A) :
  Permutation l l' -> Permutation (flat_map f l) (flat_map f l').
Proof.
  induction 1; simpl.
  - reflexivity.
  - now apply Permutation_app_head.
  - rewrite !app_assoc. apply Permutation_app_tail, Permutation_app_comm.
  - etransitivity; eassumption.
Qed.

Lemma group_by_status_throws (tasks : list Task) :
  forall acc,
    Forall (fun k => inherited k = false) (map fst acc) ->
    existsb (fun t => inherited (task_status t)) tasks = true ->
    group_by_status tasks acc = inr status_push_TypeError.
Proof.
  induction tasks as [|t tasks IH]; intros acc Hacc H; simpl in *;
    [discriminate|].
  unfold status_step.
  destruct (status_own (task_status t) acc) as [v|] eqn:Hown.
  - destruct (inherited (task_status t)) eqn:Hi.
    + exfalso. assert (Hin : In (task_status t) (map fst acc)).
      { destruct (in_dec (list_eq_dec N.eq_dec) (task_status t) (map fst acc))
          as [Hin|Hout]; [exact Hin|].
        apply status_own_None in Hout. congruence. }
      rewrite Forall_forall in Hacc. specialize (Hacc _ Hin). congruence.
    + apply IH; [now rewrite status_push_keys | exact H].
  - destruct (inherited (task_status t)) eqn:Hi; [reflexivity|].
    apply IH; [|exact H].
    rewrite map_app. apply Forall_app. split; [exact Hacc|].
    simpl. now constructor.
Qed.

Section ListTasksFacts.
Variable Env : Type.
Variable schema : string -> ToolInput.
Variable getTasks : Value -> Value -> Store * Env -> list Task + Exn.
Variable toUpperCase : jsstring -> jsstring.

Local Abbreviation list_tasks := (workflow_list_tasks schema getTasks toUpperCase).

(** X19.  When no status is a name that a plain object inherits,
    [list_tasks] prints one section for each status that occurs, each status
    once, and every task in exactly one of them: the section of a status
    holds the tasks of that status, in the order in which [getTasks] gave
    them. *)
Theorem list_tasks_groups_every_task (input : ToolInput) (st : Store * Env)
        (tasks : list Task) :
  getTasks (field "status" input) (field "assignedTo" input) st = inl tasks ->
  tasks <> [] ->
  forallb (fun t => negb (inherited (task_status t))) tasks = true ->
  exists sections,
    execute list_tasks input st
    = (inl (flat_map (status_section toUpperCase) sections), st)
    /\ NoDup (map fst sections)
    /\ Permutation (flat_map snd sections) tasks
    /\ forall status group,
         In (status, group) sections ->
         group <> []
         /\ group = filter (fun t => jseqb status (task_status t)) tasks.
Proof.
  intros Hg Hne Hplain. cbn [execute workflow_list_tasks]. rewrite Hg.
  destruct (group_by_status tasks []) as [grouped|error] eqn:Hgr.
  - destruct (group_by_status_partition _ _ _ Hgr (NoDup_nil _)) as [Hk Hp].
    pose proof (status_entries_Permutation grouped) as He.
    exists (status_entries grouped). repeat split.
    + destruct tasks; [congruence | reflexivity].
    + apply (Permutation_NoDup (l := map fst grouped)); [|exact Hk].
      symmetry. now apply Permutation_map.
    + rewrite (flat_map_Permutation _ _ snd _ _ He). exact Hp.
    + intros ->.
      apply (Permutation_in _ He), (status_own_In _ _ _ Hk) in H.
      rewrite (group_by_status_own _ _ _ status Hgr) in H. simpl in H.
      destruct (filter _ tasks); discriminate.
    + apply (Permutation_in _ He), (status_own_In _ _ _ Hk) in H.
      rewrite (group_by_status_own _ _ _ status Hgr) in H. simpl in H.
      destruct (filter _ tasks); [discriminate | congruence].
  - exfalso. clear Hg Hne. revert Hgr. generalize (@nil (jsstring * list Task)).
    induction tasks as [|t tasks IH]; intros acc; simpl; [discriminate|].
    simpl in Hplain. apply andb_true_iff in Hplain as [Ht Hplain].
    apply negb_true_iff in Ht. unfold status_step. rewrite Ht.
    destruct (status_own (task_status t) acc); now apply IH.
Qed.

(** X20.  A task whose status is a name that every object inherits, such
    as [constructor], makes [list_tasks] throw a [TypeError] instead of
    listing the tasks; the state is left as it was. *)
Theorem list_tasks_throws_on_inherited_status (input : ToolInput)
        (st : Store * Env) (tasks : list Task) :
  getTasks (field "status" input) (field "assignedTo" input) st = inl tasks ->
  existsb (fun t => inherited (task_status t)) tasks = true ->
  execute list_tasks input st = (inr status_push_TypeError, st).
Proof.
  intros Hg H. cbn [execute workflow_list_tasks]. rewrite Hg.
  rewrite (group_by_status_throws tasks [] (Forall_nil _) H).
  destruct tasks; [discriminate | reflexivity].
Qed.

End ListTasksFacts.

Lemma list_tasks_groups_every_task_witness :
  exists sections,
    execute (workflow_list_tasks (fun _ => []) (fun _ _ _ => inl listed_tasks)
                                 ascii_toUpperCase)
            [] (mkStore 0 [] [] [], tt)
    = (inl (flat_map (status_section ascii_toUpperCase) sections),
       (mkStore 0 [] [] [], tt))
    /\ NoDup (map fst sections)
    /\ Permutation (flat_map snd sections) listed_tasks
    /\ forall status group,
         In (status, group) sections ->
         group <> []
         /\ group = filter (fun t => jseqb status (task_status t)) listed_tasks.
Proof.
  apply (list_tasks_groups_every_task unit (fun _ => [])
           (fun _ _ _ => inl listed_tasks) ascii_toUpperCase
           [] (mkStore 0 [] [] [], tt) listed_tasks);
    [reflexivity | discriminate | reflexivity].
Defined.

Lemma list_tasks_throws_on_inherited_status_witness :
  execute (workflow_list_tasks (fun _ => [])
             (fun _ _ _ => inl (listed_tasks ++ [odd_task])) ascii_toUpperCase)
          [] (mkStore 0 [] [] [], tt)
  = (inr status_push_TypeError, (mkStore 0 [] [] [], tt)).
Proof.
  apply (list_tasks_throws_on_inherited_status unit (fun _ => [])
           (fun _ _ _ => inl (listed_tasks ++ [odd_task])) ascii_toUpperCase
           [] (mkStore 0 [] [] [], tt) (listed_tasks ++ [odd_task]));
    reflexivity.
Defined.

(** * A turn as the backend and the tools see it *)

Lemma first_text_response_text (Input : Type) (response : Response Input) :
  first_text (resp_content response) (response_text response).
Proof.
  unfold response_text, first_text. generalize (resp_content response).
  induction l as [|b bs IH]; cbn [find]; [right; now split|].
  destruct b as [t| |]; cbn [forallb is_text negb andb].
  - left. exists [], bs. now split.
  - remember (match find _ bs with Some (text_block _ t) => t | _ => [] end)
      as text eqn:E. clear E.
    destruct IH as [(before & after & Heq & Hb)|[Hn Ht]].
    + left. exists (tool_use_block b :: before), after. now rewrite Heq.
    + right. now split.
  - remember (match find _ bs with Some (text_block _ t) => t | _ => [] end)
      as text eqn:E. clear E.
    destruct IH as [(before & after & Heq & Hb)|[Hn Ht]].
    + left. exists (other_block Input :: before), after. now rewrite Heq.
    + right. now split.
Qed.

Lemma backend_replies_app (Input Backend : Type)
      (create : Request Input -> Backend -> (Response Input + Exn) * Backend)
      (l1 l2 : list (Request Input)) :
  forall b,
    backend_replies create (l1 ++ l2) b
    = (fst (backend_replies create l1 b)
         ++ fst (backend_replies create l2 (snd (backend_replies create l1 b))),
       snd (backend_replies create l2 (snd (backend_replies create l1 b)))).
Proof.
  induction l1 as [|q l1 IH]; intros b; cbn [app backend_replies fst snd].
  - now destruct (backend_replies create l2 b).
  - now rewrite IH.
Qed.


Lemma extracted_records (role : AgentRole) (text : jsstring) :
  match memoriesToStore (parseResponse role text) with
  | Some ms => ms
  | None => []
  end
  = map (memory_record role) (String_matchAll REMEMBER_capture text).
Proof.
  unfold parseResponse. cbn [memoriesToStore].
  fold (memory_record role).
  destruct (map (memory_record role) (String_matchAll REMEMBER_capture text));
    reflexivity.
Qed.

Section TurnTrace.
Variables Input Env Backend : Type.
Variable create : Request Input -> Backend -> (Response Input + Exn) * Backend.
Variable config : AgentConfig Input Env.

Local Abbreviation World := (World Input Env Backend).

Lemma result_block_outcome (toolCall : ToolUseBlock Input) (r : jsstring + Exn) :
  result_block toolCall r = outcome_block (toolCall, r).
Proof. destruct r as [result|[message|rendering]]; reflexivity. Qed.

(** The loop of [executeTools] is the sequential run of the registered
    calls. *)
Lemma executeTools_loop_outcomes (toolCalls : list (ToolUseBlock Input)) :
  forall (results : list ToolResultBlockParam) (w : World),
    executeTools_loop config toolCalls results w
    = (Ok (results
           ++ map (@outcome_block Input)
                  (fst (sequential_outcomes config toolCalls (store w, env w)))),
       mkWorld (fst (snd (sequential_outcomes config toolCalls (store w, env w))))
               (snd (snd (sequential_outcomes config toolCalls (store w, env w))))
               (backend w)
               (invoked w
                ++ map fst (fst (sequential_outcomes config toolCalls
                                   (store w, env w))))
               (sent w)).
Proof.
  induction toolCalls as [|c cs IH]; intros results w.
  - cbn [executeTools_loop sequential_outcomes fst snd map]. unfold ret.
    rewrite !app_nil_r. now destruct w.
  - cbn [sequential_outcomes].
    destruct (find_tool config (tu_name c)) as [tool|] eqn:Hf.
    + rewrite (executeTools_loop_registered _ _ _ config _ _ _ _ _ Hf). cbv zeta.
      rewrite IH. cbn [store env backend invoked sent fst snd map].
      rewrite <- !surjective_pairing, <- !app_assoc. cbn [app].
      now rewrite result_block_outcome.
    + rewrite (executeTools_loop_unregistered _ _ _ config _ _ _ _ Hf). apply IH.
Qed.

Lemma sequential_outcomes_calls (toolCalls : list (ToolUseBlock Input)) :
  forall st,
    map fst (fst (sequential_outcomes config toolCalls st))
    = filter (registered config) toolCalls.
Proof.
  induction toolCalls as [|c cs IH]; intros st; [reflexivity|].
  cbn [sequential_outcomes filter]. unfold registered at 1.
  destruct (find_tool config (tu_name c)); cbn [fst map]; [f_equal|]; apply IH.
Qed.

(** A round that returns has run the tools, built the prompt on the store
    they left, and received its response from the backend, asked with the
    message list that the results were appended to. *)
Lemma tool_round_trace
      (messages : list (MessageParam Input)) (response : Response Input)
      (w w1 : World) (next : list (MessageParam Input) * Response Input) :
  tool_round create config (api_tools config) messages response w
  = (Ok next, w1) ->
  exists sys,
    buildSystemPrompt_of (systemPrompt config) (cfg_role config)
      (fst (snd (sequential_outcomes config
                   (tool_use_blocks (resp_content response)) (store w, env w))))
    = Ok sys
    /\ fst next
       = round_messages messages response
           (map (@outcome_block Input)
                (fst (sequential_outcomes config
                        (tool_use_blocks (resp_content response))
                        (store w, env w))))
    /\ create (request_with config sys (fst next)) (backend w)
       = (inl (snd next), backend w1)
    /\ sent w1 = sent w ++ [request_with config sys (fst next)]
    /\ (store w1, env w1)
       = snd (sequential_outcomes config
                (tool_use_blocks (resp_content response)) (store w, env w))
    /\ invoked w1
       = invoked w
         ++ filter (registered config) (tool_use_blocks (resp_content response)).
Proof.
  unfold tool_round, executeTools. intros H.
  apply bind_Ok in H as (rs & w0 & He & H).
  rewrite executeTools_loop_outcomes in He. cbn [app] in He.
  injection He as <- <-.
  apply bind_Ok in H as (request & w2 & Hreq & H).
  unfold request_for, bind, buildSystemPrompt, ret in Hreq. cbn [store] in Hreq.
  destruct (buildSystemPrompt_of _ _ _) as [sys|e|] eqn:Hsys; try discriminate.
  injection Hreq as <- <-.
  apply bind_Ok in H as (response' & w3 & Hc & H).
  unfold ret in H. injection H as <- <-.
  rewrite messages_create_run in Hc. cbn [backend store env invoked sent] in Hc.
  exists sys. cbn [fst snd].
  destruct (create _ (backend w)) as [[r|e] b] eqn:Hcr; cbn [fst snd] in Hc;
    [|discriminate].
  injection Hc as <- <-. cbn [backend sent store env invoked].
  rewrite sequential_outcomes_calls.
  repeat split; trivial. now rewrite <- surjective_pairing.
Qed.

(** A loop that returns has asked the backend once for every response that
    asked for tools, and has run the tools of those responses in order. *)
Lemma tool_loop_trace (fuel : nat) :
  forall (messages : list (MessageParam Input)) (response : Response Input)
         (w w' : World) (final : list (MessageParam Input) * Response Input),
    tool_loop create fuel config (api_tools config) messages response w
    = (Ok final, w') ->
    exists requests asked received,
      response :: received = asked ++ [snd final]
      /\ Forall (fun r => is_tool_use (stop_reason r) = true) asked
      /\ is_tool_use (stop_reason (snd final)) = false
      /\ sent w' = sent w ++ requests
      /\ backend_replies create requests (backend w)
         = (map inl received, backend w')
      /\ (store w', env w') = after_tools config asked (store w, env w).
Proof.
  induction fuel as [|fuel IH]; intros messages response w w' final;
    cbn [tool_loop]; destruct (is_tool_use (stop_reason response)) eqn:Hs;
    try discriminate;
    try (unfold ret; intros H; injection H as <- <-;
         exists [], [], []; cbn [snd app map backend_replies after_tools fold_left];
         rewrite app_nil_r; repeat split; trivial).
  intros H. apply bind_Ok in H as (next & w1 & Hr & H).
  apply tool_round_trace in Hr as (sys & _ & _ & Hc & Hsent & Hst & _).
  apply IH in H as (requests & asked & received & Hresp & Hasked & Hfinal
                    & Hs' & Hb & Hst').
  exists (request_with config sys (fst next) :: requests),
         (response :: asked), (snd next :: received).
  cbn [app map backend_replies after_tools fold_left]. rewrite Hc. cbn [fst snd].
  rewrite Hb, Hs', Hsent, <- app_assoc, Hresp, <- Hst. cbn [fst snd app].
  repeat split; trivial. now constructor.
Qed.

(** A turn that returns: the requests it sent, the responses it received
    from the backend, the last of which is the final answer, and the store
    it leaves. *)
Lemma chat_trace (fuel : nat) (sessionId userMessage : jsstring) (w w' : World)
      (r : AgentResponse) :
  chat create fuel config sessionId userMessage w = (Ok r, w') ->
  exists requests earlier final,
    sent w' = sent w ++ requests
    /\ backend_replies create requests (backend w)
       = (map inl (earlier ++ [final]), backend w')
    /\ Forall (fun r => is_tool_use (stop_reason r) = true) earlier
    /\ is_tool_use (stop_reason final) = false
    /\ turns (store w')
       = turns (fst (after_tools config earlier
                       (saveConversationMessage sessionId
                          (mkMessage user userMessage None) (store w), env w)))
         ++ [mkTurn sessionId
               (mkMessage assistant (response_text final) (Some (cfg_role config)))
               (clock (fst (after_tools config earlier
                              (saveConversationMessage sessionId
                                 (mkMessage user userMessage None) (store w),
                               env w))))]
    /\ map mem_fields (memories (store w'))
       = map mem_fields
             (memories (fst (after_tools config earlier
                               (saveConversationMessage sessionId
                                  (mkMessage user userMessage None) (store w),
                                env w))))
         ++ map (memory_record (cfg_role config))
                (String_matchAll REMEMBER_capture (response_text final))
    /\ env w'
       = snd (after_tools config earlier
                (saveConversationMessage sessionId
                   (mkMessage user userMessage None) (store w), env w))
    /\ r = parseResponse (cfg_role config) (response_text final).
Proof.
  unfold chat. intros H.
  apply bind_Ok in H as (u0 & w0 & Hsave0 & H).
  rewrite write_store_run in Hsave0. injection Hsave0 as _ <-.
  apply bind_Ok in H as (history & w1 & Hread & H).
  unfold read_store in Hread. injection Hread as <- <-.
  apply bind_Ok in H as (request & w2 & Hreq & H).
  unfold request_for, bind, buildSystemPrompt, ret in Hreq. cbn [store] in Hreq.
  destruct (buildSystemPrompt_of _ _ _) as [sys|e|]; try discriminate.
  injection Hreq as <- <-.
  apply bind_Ok in H as (response & w3 & Hc & H).
  rewrite messages_create_run in Hc. cbn [backend store env invoked sent] in Hc.
  destruct (create _ (backend w)) as [[resp|e] b] eqn:Hcr; cbn [fst snd] in Hc;
    [|discriminate].
  injection Hc as <- <-.
  apply bind_Ok in H as (final & w4 & Hloop & H).
  apply tool_loop_trace in Hloop
    as (requests & asked & received & Hresp & Hasked & Hfinal & Hs & Hb & Hst).
  cbn [sent backend store env] in Hs, Hb, Hst.
  apply bind_Ok in H as (u5 & w5 & Hsave & H).
  rewrite write_store_run in Hsave. injection Hsave as _ <-.
  apply bind_Ok in H as (u6 & w6 & Hmem & H).
  unfold ret in H. injection H as <- <-.
  pose proof (extracted_records (cfg_role config) (response_text (snd final)))
    as Hrec.
  set (s5 := saveConversationMessage sessionId
               (mkMessage assistant (response_text (snd final))
                          (Some (cfg_role config))) (store w4)) in *.
  assert (Hw6 : turns (store w6) = turns s5
                /\ map mem_fields (memories (store w6))
                   = map mem_fields (memories s5)
                     ++ map (memory_record (cfg_role config))
                            (String_matchAll REMEMBER_capture
                               (response_text (snd final)))
                /\ env w6 = env w4 /\ backend w6 = backend w4
                /\ sent w6 = sent w4).
  { destruct (memoriesToStore _) as [ms|].
    - destruct (store_memories_run _ _ _ ms
                  (mkWorld s5 (env w4) (backend w4) (invoked w4) (sent w4)))
        as (w7 & Hrun & Ht & _ & Hm & He & Hb7 & _ & Hs7).
      rewrite Hrun in Hmem. injection Hmem as _ <-.
      rewrite <- Hrec. repeat split; trivial.
    - unfold ret in Hmem. injection Hmem as _ <-. rewrite <- Hrec.
      cbn [store env backend sent]. rewrite app_nil_r. repeat split; trivial. }
  destruct Hw6 as (Ht6 & Hm6 & He6 & Hb6 & Hs6).
  exists (mkRequest (model_of config) 4096 sys
            (initial_messages Input
               (getConversationHistory sessionId
                  (saveConversationMessage sessionId
                     (mkMessage user userMessage None) (store w)))
               userMessage)
            (if Nat.ltb 0 (length (api_tools config))
             then Some (api_tools config) else None)
          :: requests),
         asked, (snd final).
  rewrite <- Hst. cbn [fst snd backend_replies]. rewrite Hcr. cbn [fst snd].
  rewrite Hb, Hs6, Hs, Hb6, <- app_assoc, <- Hresp, Ht6, Hm6, He6.
  cbn [app map]. subst s5. cbn [turns memories saveConversationMessage].
  repeat split; trivial.
Qed.

(** C1, as amended.  For every completed turn, the assistant turn that
    [chat] persists is the last entry of the session history and is tagged
    with the role of the agent.  Its content is the text of the final
    answer as the backend gave it: of the responses that the backend
    returned to the requests of the turn, the last one is the final answer,
    and the content is its first text block, or the empty string when it
    has none, directives included and untrimmed.  The visible text that
    [chat] returns is [parseResponse] of that content. *)
Theorem chat_persists_response_text
        (fuel : nat) (sessionId userMessage : jsstring) (w w' : World)
        (r : AgentResponse) :
  chat create fuel config sessionId userMessage w = (Ok r, w') ->
  exists (requests : list (Request Input)) (earlier : list (Response Input))
         (final : Response Input) (text : jsstring),
    sent w' = sent w ++ requests
    /\ backend_replies create requests (backend w)
       = (map inl (earlier ++ [final]), backend w')
    /\ is_tool_use (stop_reason final) = false
    /\ first_text (resp_content final) text
    /\ getConversationHistory sessionId (store w')
       = getConversationHistory sessionId
           (fst (after_tools config earlier
                   (saveConversationMessage sessionId
                      (mkMessage user userMessage None) (store w), env w)))
         ++ [mkMessage assistant text (Some (cfg_role config))]
    /\ r = parseResponse (cfg_role config) text.
Proof.
  intros H.
  apply chat_trace in H
    as (requests & earlier & final & Hs & Hb & _ & Hf & Ht & _ & _ & Hr).
  exists requests, earlier, final, (response_text final).
  repeat split; trivial.
  - apply first_text_response_text.
  - unfold getConversationHistory. rewrite Ht, filter_app, map_app.
    cbn [filter turn_session]. now rewrite jseqb_refl.
Qed.


(** X3.  [executeTools] is the sequential run of the requested calls whose
    tool is registered: it runs exactly those tools, in the order
    requested, each on the store and the environment that the one before
    left, and returns one block for each, holding what that tool returned,
    or [Error: ...] flagged [is_error] for what it threw.  It never throws
    and leaves the backend alone. *)
Theorem executeTools_invokes_registered_in_order
        (toolCalls : list (ToolUseBlock Input)) (w : World) :
  executeTools config toolCalls w
  = (Ok (map (@outcome_block Input)
             (fst (sequential_outcomes config toolCalls (store w, env w)))),
     mkWorld (fst (snd (sequential_outcomes config toolCalls (store w, env w))))
             (snd (snd (sequential_outcomes config toolCalls (store w, env w))))
             (backend w)
             (invoked w ++ filter (registered config) toolCalls)
             (sent w))
  /\ map fst (fst (sequential_outcomes config toolCalls (store w, env w)))
     = filter (registered config) toolCalls.
Proof.
  unfold executeTools. rewrite executeTools_loop_outcomes.
  rewrite sequential_outcomes_calls. split; reflexivity.
Qed.


End TurnTrace.

(** * The instruction text, section by section *)

Lemma own_None (k : jsstring) (o : Grouped) :
  own k o = None <-> ~ In k (map fst o).
Proof.
  induction o as [|[k' v] o IH]; simpl; [intuition|].
  destruct (jseqb k k') eqn:E.
  - apply jseqb_true in E as ->. split; [discriminate | intuition].
  - apply jseqb_false in E. rewrite IH. intuition.
Qed.

Lemma own_In (k : jsstring) (v : list UserPreference) (o : Grouped) :
  NoDup (map fst o) -> In (k, v) o -> own k o = Some v.
Proof.
  induction o as [|[k' v'] o IH]; simpl; [intuition|].
  intros Hnd [H|H]; inversion Hnd as [|? ? Hnotin Hnd']; subst.
  - injection H as -> ->. now rewrite jseqb_refl.
  - destruct (jseqb k k') eqn:E; [|now apply IH].
    apply jseqb_true in E as ->. exfalso. apply Hnotin.
    now apply (in_map fst) in H.
Qed.

Lemma push_to_keys (k : jsstring) (p : UserPreference) (o : Grouped) :
  map fst (push_to k p o) = map fst o.
Proof.
  induction o as [|[k' v] o IH]; simpl; [reflexivity|].
  destruct (jseqb k k'); simpl; [reflexivity | now rewrite IH].
Qed.

Lemma push_to_preferences (k : jsstring) (p : UserPreference) (o : Grouped) :
  own k o <> None ->
  Permutation (flat_map snd (push_to k p o)) (flat_map snd o ++ [p]).
Proof.
  induction o as [|[k' v] o IH]; simpl; [congruence|].
  destruct (jseqb k k'); simpl; intros H.
  - rewrite <- !app_assoc. apply Permutation_app_head, Permutation_app_comm.
  - rewrite <- app_assoc. now apply Permutation_app_head, IH.
Qed.

(** No category is the key of two groups, and every preference is in one
    group. *)
Lemma reduce_group_partition (ps : list UserPreference) :
  forall acc grouped,
    reduce_group ps acc = Ok grouped ->
    NoDup (map fst acc) ->
    NoDup (map fst grouped)
    /\ Permutation (flat_map snd grouped) (flat_map snd acc ++ ps).
Proof.
  induction ps as [|p ps IH]; intros acc grouped; simpl.
  - intros H Hnd. injection H as <-. now rewrite app_nil_r.
  - unfold group_step.
    destruct (own (pref_category p) acc) as [v0|] eqn:Hown.
    + intros H Hnd. destruct (IH _ _ H) as [Hk Hp].
      { now rewrite push_to_keys. }
      split; [exact Hk|]. rewrite Hp.
      rewrite (push_to_preferences (pref_category p) p acc) by congruence.
      now rewrite <- app_assoc.
    + destruct (inherited (pref_category p)); [discriminate|].
      intros H Hnd. destruct (IH _ _ H) as [Hk Hp].
      { rewrite map_app. simpl. apply own_None in Hown.
        rewrite <- (app_nil_r (map fst acc ++ [pref_category p])), <- app_assoc.
        apply NoDup_Add with (a := pref_category p) (l := map fst acc ++ []).
        - apply Add_app.
        - rewrite app_nil_r. now split. }
      split; [exact Hk|]. rewrite Hp, flat_map_app. simpl.
      now rewrite <- app_assoc.
Qed.

(** [Object.entries] lists every group once. *)
Lemma Object_entries_Permutation (o : Grouped) :
  Permutation (Object_entries o) o.
Proof.
  unfold Object_entries, index_keys. rewrite sorted_index_Permutation.
  induction o as [|kv o IH]; simpl; [reflexivity|].
  unfold is_array_index at 1.
  destruct (array_index (fst kv)); simpl.
  - now constructor.
  - rewrite <- Permutation_middle. now constructor.
Qed.

(** A category that a plain object inherits, anywhere among the
    preferences, makes the grouping throw. *)
Lemma reduce_group_throws (ps : list UserPreference) :
  forall acc,
    Forall (fun k => inherited k = false) (map fst acc) ->
    existsb (fun p => inherited (pref_category p)) ps = true ->
    reduce_group ps acc = Throw push_TypeError.
Proof.
  induction ps as [|p ps IH]; intros acc Hacc H; simpl in *; [discriminate|].
  unfold group_step.
  destruct (own (pref_category p) acc) as [v|] eqn:Hown.
  - destruct (inherited (pref_category p)) eqn:Hi.
    + exfalso. assert (Hin : In (pref_category p) (map fst acc)).
      { destruct (in_dec (list_eq_dec N.eq_dec) (pref_category p) (map fst acc))
          as [Hin|Hout]; [exact Hin|].
        apply own_None in Hout. congruence. }
      rewrite Forall_forall in Hacc. specialize (Hacc _ Hin). congruence.
    + apply IH; [now rewrite push_to_keys | exact H].
  - destruct (inherited (pref_category p)) eqn:Hi; [reflexivity|].
    apply IH; [|exact H].
    rewrite map_app. apply Forall_app. split; [exact Hacc|].
    simpl. now constructor.
Qed.

Lemma buildSystemPrompt_of_throws (prompt : jsstring) (role : AgentRole) (s : Store) :
  existsb (fun p => inherited (pref_category p)) (preferences s) = true ->
  buildSystemPrompt_of prompt role s = Throw push_TypeError.
Proof.
  intros H. unfold buildSystemPrompt_of, getAllPreferences.
  rewrite (reduce_group_throws (preferences s) [] (Forall_nil _) H).
  destruct (preferences s); [discriminate | reflexivity].
Qed.

(** X8.  When no category is a name that a plain object inherits,
    [buildSystemPrompt] returns the static prompt, followed, when there are
    preferences, by the preferences heading and one section for each
    category that occurs, each category once and every preference in
    exactly one section, the section of a category listing the preferences
    of that category in their order, one [- key: value] line each;
    followed, when the store returns memories for the role, by the recent
    context heading and one [- [type] content] line for each of the first
    ten of them. *)
Theorem buildSystemPrompt_text_when_plain
        (prompt : jsstring) (role : AgentRole) (s : Store) :
  plain_categories s ->
  exists sections : list (jsstring * list UserPreference),
    buildSystemPrompt_of prompt role s
    = Ok (prompt
          ++ match preferences s with
             | [] => []
             | _ :: _ =>
                 [10; 10]%N ++ lit "## User Preferences (learned over time)"
                 ++ [10%N]
                 ++ flat_map
                      (fun section =>
                         [10%N] ++ lit "### " ++ fst section ++ [10%N]
                         ++ flat_map
                              (fun p => lit "- " ++ pref_key p ++ lit ": "
                                        ++ pref_value p ++ [10%N])
                              (snd section))
                      sections
             end
          ++ match getMemories None (Some role) 20 s with
             | [] => []
             | m :: ms =>
                 [10; 10]%N ++ lit "## Recent Context" ++ [10%N]
                 ++ flat_map
                      (fun m => lit "- [" ++ mem_type (mem_fields m) ++ lit "] "
                                ++ mem_content (mem_fields m) ++ [10%N])
                      (firstn 10 (m :: ms))
             end)
    /\ NoDup (map fst sections)
    /\ Permutation (flat_map snd sections) (preferences s)
    /\ forall category group,
         In (category, group) sections ->
         group <> []
         /\ group = filter (fun p => jseqb category (pref_category p))
                           (preferences s).
Proof.
  intros Hplain.
  destruct (reduce_group_plain _ Hplain []) as [grouped Hg].
  destruct (reduce_group_partition _ _ _ Hg (NoDup_nil _)) as [Hk Hp].
  pose proof (Object_entries_Permutation grouped) as He.
  exists (Object_entries grouped). repeat split.
  - unfold buildSystemPrompt_of, getAllPreferences. rewrite Hg.
    unfold recent_section.
    destruct (preferences s) as [|p ps];
      destruct (getMemories None (Some role) 20 s) as [|m ms];
      cbn [length Nat.ltb Nat.leb]; rewrite <- ?app_assoc; reflexivity.
  - apply (Permutation_NoDup (l := map fst grouped)); [|exact Hk].
    symmetry. now apply Permutation_map.
  - rewrite (flat_map_Permutation _ _ snd _ _ He). exact Hp.
  - intros ->.
    apply (Permutation_in _ He), (own_In _ _ _ Hk) in H.
    rewrite (reduce_group_own _ _ _ category Hg) in H. simpl in H.
    destruct (filter _ (preferences s)); discriminate.
  - apply (Permutation_in _ He), (own_In _ _ _ Hk) in H.
    rewrite (reduce_group_own _ _ _ category Hg) in H. simpl in H.
    destruct (filter _ (preferences s)); [discriminate | congruence].
Qed.

Lemma buildSystemPrompt_text_when_plain_witness :
  exists sections : list (jsstring * list UserPreference),
    buildSystemPrompt_of (lit "P") dev
      (mkStore 4
         [mkMemory 0 (mkMemoryInput (lit "fact") (lit "x") [] (Some dev)) 0]
         [mkPreference (lit "tone") (lit "terse") (lit "style") 1;
          mkPreference (lit "lang") (lit "ts") (lit "7") 2;
          mkPreference (lit "emoji") (lit "no") (lit "style") 3] [])
    = Ok (lit "P"
          ++ [10; 10]%N ++ lit "## User Preferences (learned over time)"
          ++ [10%N]
          ++ flat_map
               (fun section =>
                  [10%N] ++ lit "### " ++ fst section ++ [10%N]
                  ++ flat_map
                       (fun p => lit "- " ++ pref_key p ++ lit ": "
                                 ++ pref_value p ++ [10%N])
                       (snd section))
               sections
          ++ [10; 10]%N ++ lit "## Recent Context" ++ [10%N]
          ++ lit "- [fact] x" ++ [10%N])
    /\ NoDup (map fst sections)
    /\ Permutation (flat_map snd sections)
         [mkPreference (lit "tone") (lit "terse") (lit "style") 1;
          mkPreference (lit "lang") (lit "ts") (lit "7") 2;
          mkPreference (lit "emoji") (lit "no") (lit "style") 3]
    /\ forall category group,
         In (category, group) sections ->
         group <> []
         /\ group
            = filter (fun p => jseqb category (pref_category p))
                [mkPreference (lit "tone") (lit "terse") (lit "style") 1;
                 mkPreference (lit "lang") (lit "ts") (lit "7") 2;
                 mkPreference (lit "emoji") (lit "no") (lit "style") 3].
Proof.
  destruct (buildSystemPrompt_text_when_plain (lit "P") dev
              (mkStore 4
                 [mkMemory 0 (mkMemoryInput (lit "fact") (lit "x") [] (Some dev)) 0]
                 [mkPreference (lit "tone") (lit "terse") (lit "style") 1;
                  mkPreference (lit "lang") (lit "ts") (lit "7") 2;
                  mkPreference (lit "emoji") (lit "no") (lit "style") 3] [])
              eq_refl)
    as (sections & Hb & Hrest).
  exists sections. split; [|exact Hrest].
  rewrite Hb. reflexivity.
Defined.

(** * Two tools and a final answer *)

Section RoundRun.
Variables Input Env Backend : Type.
Variable create : Request Input -> Backend -> (Response Input + Exn) * Backend.
Variable config : AgentConfig Input Env.

(** A round, once the prompt can be built on the store that the tools
    left. *)
Lemma tool_round_run
      (messages : list (MessageParam Input)) (response : Response Input)
      (w : World Input Env Backend) (sys : jsstring) :
  buildSystemPrompt_of (systemPrompt config) (cfg_role config)
    (fst (snd (sequential_outcomes config
                 (tool_use_blocks (resp_content response)) (store w, env w))))
  = Ok sys ->
  tool_round create config (api_tools config) messages response w
  = (match fst (create
                  (request_with config sys
                     (round_messages messages response
                        (map (@outcome_block Input)
                             (fst (sequential_outcomes config
                                     (tool_use_blocks (resp_content response))
                                     (store w, env w))))))
                  (backend w)) with
     | inl next =>
         Ok (round_messages messages response
               (map (@outcome_block Input)
                    (fst (sequential_outcomes config
                            (tool_use_blocks (resp_content response))
                            (store w, env w)))),
             next)
     | inr e => Throw e
     end,
     mkWorld
       (fst (snd (sequential_outcomes config
                    (tool_use_blocks (resp_content response)) (store w, env w))))
       (snd (snd (sequential_outcomes config
                    (tool_use_blocks (resp_content response)) (store w, env w))))
       (snd (create
               (request_with config sys
                  (round_messages messages response
                     (map (@outcome_block Input)
                          (fst (sequential_outcomes config
                                  (tool_use_blocks (resp_content response))
                                  (store w, env w))))))
               (backend w)))
       (invoked w
        ++ map fst (fst (sequential_outcomes config
                           (tool_use_blocks (resp_content response))
                           (store w, env w))))
       (sent w
        ++ [request_with config sys
              (round_messages messages response
                 (map (@outcome_block Input)
                      (fst (sequential_outcomes config
                              (tool_use_blocks (resp_content response))
                              (store w, env w)))))])).
Proof.
  intros Hsys. unfold tool_round, executeTools.
  unfold bind at 1. rewrite executeTools_loop_outcomes. cbn [app].
  set (w1 := mkWorld _ _ _ _ _).
  rewrite (bind_step _ _ _ _ _ _ _ _ _ _
             (request_for_Ok _ _ _ config _ w1 sys Hsys)).
  unfold bind. rewrite messages_create_run. subst w1.
  cbn [store env backend invoked sent].
  destruct (fst (create _ (backend w))); reflexivity.
Qed.

End RoundRun.

Section TwoScriptedTools.
Variables Input Env : Type.
Variable config : AgentConfig Input Env.

Local Abbreviation World := (World Input Env (list (Response Input))).

(** Against a scripted backend that asks for a registered tool, asks for a
    registered tool again and then gives a final answer, and when the
    prompt can be built for each of the three requests, a turn runs the
    first tool on the store with the user message saved, the second on what
    the first left, sends three requests, the second and the third ending
    with the result of the tool just run, and returns what [parseResponse]
    makes of the text of the final answer. *)
Lemma chat_runs_two_scripted_tools
      (fuel : nat) (sessionId userMessage : jsstring) (w : World)
      (first second : ToolUseBlock Input) (tool1 tool2 : Tool Input Env)
      (final : Response Input) (rest : list (Response Input))
      (sys0 sys1 sys2 : jsstring) :
  let saved := saveConversationMessage sessionId
                 (mkMessage user userMessage None) (store w) in
  let out1 := execute tool1 (tu_input first) (saved, env w) in
  let out2 := execute tool2 (tu_input second) (snd out1) in
  let messages0 := initial_messages Input
                     (getConversationHistory sessionId saved) userMessage in
  let messages1 := round_messages messages0 (asks [first])
                     [outcome_block (first, fst out1)] in
  let messages2 := round_messages messages1 (asks [second])
                     [outcome_block (second, fst out2)] in
  find_tool config (tu_name first) = Some tool1 ->
  find_tool config (tu_name second) = Some tool2 ->
  backend w = asks [first] :: asks [second] :: final :: rest ->
  is_tool_use (stop_reason final) = false ->
  2 <= fuel ->
  buildSystemPrompt_of (systemPrompt config) (cfg_role config) saved = Ok sys0 ->
  buildSystemPrompt_of (systemPrompt config) (cfg_role config) (fst (snd out1))
  = Ok sys1 ->
  buildSystemPrompt_of (systemPrompt config) (cfg_role config) (fst (snd out2))
  = Ok sys2 ->
  exists w',
    chat (@scripted Input) fuel config sessionId userMessage w
    = (Ok (parseResponse (cfg_role config) (response_text final)), w')
    /\ invoked w' = invoked w ++ [first; second]
    /\ backend w' = rest
    /\ env w' = snd (snd out2)
    /\ turns (store w')
       = turns (fst (snd out2))
         ++ [mkTurn sessionId
               (mkMessage assistant (response_text final) (Some (cfg_role config)))
               (clock (fst (snd out2)))]
    /\ sent w'
       = sent w ++ [request_with config sys0 messages0;
                    request_with config sys1 messages1;
                    request_with config sys2 messages2].
Proof.
  intros saved out1 out2 messages0 messages1 messages2
         Hf1 Hf2 Hb Hfinal Hfuel Hsys0 Hsys1 Hsys2.
  destruct fuel as [|[|fuel]]; try lia.
  unfold chat.
  unfold bind at 1. rewrite write_store_run.
  unfold bind at 1. unfold read_store at 1. cbn [store].
  fold saved. fold messages0.
  set (w0 := mkWorld saved (env w) (backend w) (invoked w) (sent w)).
  rewrite (bind_step _ _ _ _ _ _ _ _ _ _
             (request_for_Ok _ _ _ config messages0 w0 sys0 Hsys0)).
  unfold bind at 1. rewrite messages_create_run.
  cbn [backend w0]. rewrite Hb. cbn [scripted fst snd].
  set (w1 := mkWorld _ _ _ _ _).
  assert (Hr1 : tool_round (@scripted Input) config (api_tools config) messages0
                           (asks [first]) w1
                = (Ok (messages1, asks [second]),
                   mkWorld (fst (snd out1)) (snd (snd out1)) (final :: rest)
                           (invoked w ++ [first])
                           ((sent w ++ [request_with config sys0 messages0])
                            ++ [request_with config sys1 messages1]))).
  { rewrite (tool_round_run _ _ _ (@scripted Input) config messages0
               (asks [first]) w1 sys1);
      rewrite tool_use_blocks_asks; cbn [sequential_outcomes];
      rewrite Hf1; subst w1 w0; cbn [store env backend invoked sent fst snd map];
      [reflexivity | exact Hsys1]. }
  set (w2 := mkWorld (fst (snd out1)) _ _ _ _) in Hr1.
  assert (Hr2 : tool_round (@scripted Input) config (api_tools config) messages1
                           (asks [second]) w2
                = (Ok (messages2, final),
                   mkWorld (fst (snd out2)) (snd (snd out2)) rest
                           ((invoked w ++ [first]) ++ [second])
                           (((sent w ++ [request_with config sys0 messages0])
                             ++ [request_with config sys1 messages1])
                            ++ [request_with config sys2 messages2]))).
  { rewrite (tool_round_run _ _ _ (@scripted Input) config messages1
               (asks [second]) w2 sys2);
      rewrite tool_use_blocks_asks; cbn [sequential_outcomes];
      rewrite Hf2; subst w2; cbn [store env backend invoked sent fst snd map];
      rewrite <- surjective_pairing; [reflexivity | exact Hsys2]. }
  set (w3 := mkWorld (fst (snd out2)) _ _ _ _) in Hr2.
  assert (Hend : tool_loop (@scripted Input) (S (S fuel)) config
                           (api_tools config) messages0 (asks [first]) w1
                 = (Ok (messages2, final), w3)).
  { rewrite (tool_loop_step _ _ _ _ _ _ _ _ (asks [first]) _ _ _ eq_refl Hr1).
    cbn [fst snd].
    rewrite (tool_loop_step _ _ _ _ _ _ _ _ (asks [second]) _ _ _ eq_refl Hr2).
    cbn [fst snd]. now apply tool_loop_done. }
  unfold bind at 1. rewrite Hend. cbn [snd].
  unfold bind at 1. rewrite write_store_run.
  set (w4 := mkWorld _ _ _ _ _).
  assert (Hlog : invoked w4 = invoked w ++ [first; second]
                 /\ backend w4 = rest
                 /\ env w4 = snd (snd out2)
                 /\ turns (store w4)
                    = turns (fst (snd out2))
                      ++ [mkTurn sessionId
                            (mkMessage assistant (response_text final)
                                       (Some (cfg_role config)))
                            (clock (fst (snd out2)))]
                 /\ sent w4
                    = sent w ++ [request_with config sys0 messages0;
                                 request_with config sys1 messages1;
                                 request_with config sys2 messages2]).
  { subst w4 w3. cbn [invoked backend env store sent turns saveConversationMessage].
    rewrite <- !app_assoc. cbn [app]. repeat split; trivial. }
  destruct Hlog as (Hi4 & Hb4 & He4 & Ht4 & Hs4).
  destruct (memoriesToStore _) as [ms|].
  - destruct (store_memories_run _ _ _ ms w4)
      as (w5 & Hrun & Ht5 & _ & _ & He5 & Hb5 & Hi5 & Hs5).
    unfold bind, ret. rewrite Hrun. exists w5.
    rewrite Hb5, Hi5, Hs5, He5, Ht5. repeat split; trivial.
  - unfold bind, ret. exists w4. repeat split; trivial.
Qed.

(** C9 fails at a store that holds a preference whose category is the name
    of a property every plain object inherits, such as [constructor].
    Against the scripted backend that asks for a tool, asks for a tool
    again and then gives a final answer, the turn saves the user message
    and then throws the [TypeError] of [buildSystemPrompt] while it
    composes the first request: no tool is invoked, no request is sent, and
    no answer is returned. *)
Theorem chat_two_tools_abort_on_inherited_category
        (fuel : nat) (sessionId userMessage : jsstring) (e : Env)
        (first second : ToolUseBlock Input) (final : Response Input)
        (rest : list (Response Input))
        (done : list (ToolUseBlock Input)) (asked : list (Request Input))
        (n t : nat) (ms : list Memory)
        (before after : list UserPreference) (key value : jsstring)
        (ts : list Turn) :
  let s := mkStore n ms
             (before ++ mkPreference key value (lit "constructor") t :: after)
             ts in
  let script := asks [first] :: asks [second] :: final :: rest in
  chat (@scripted Input) fuel config sessionId userMessage
       (mkWorld s e script done asked)
  = (Throw push_TypeError,
     mkWorld (saveConversationMessage sessionId
                (mkMessage user userMessage None) s)
             e script done asked).
Proof.
  intros s script. unfold chat.
  unfold bind at 1. rewrite write_store_run.
  unfold bind at 1. unfold read_store at 1. cbn [store env backend invoked sent].
  unfold bind at 1. unfold request_for, bind, buildSystemPrompt. cbn [store].
  rewrite buildSystemPrompt_of_throws; [reflexivity|].
  subst s. cbn [saveConversationMessage preferences].
  rewrite existsb_app. cbn [existsb pref_category].
  apply orb_true_iff. right. reflexivity.
Qed.

End TwoScriptedTools.

Lemma chat_runs_two_scripted_tools_example :
  exists w',
    chat (@scripted unit) 2 sample_config (lit "s1") (lit "build it")
         (sample_world [asks [call "t1" "echo"]; asks [call "t2" "fail"];
                        answers unit (lit "Built. [REMEMBER:fact|it is built]")])
    = (Ok (mkAgentResponse (lit "Built.") None
             (Some [mkMemoryInput (lit "fact") (lit "it is built") [] (Some dev)])),
       w')
    /\ invoked w' = [call "t1" "echo"; call "t2" "fail"]
    /\ map (fun q => last (req_messages q)
                          (mkMessageParam user (text_content unit [])))
           (sent w')
       = [mkMessageParam user (text_content unit (lit "build it"));
          mkMessageParam user
            (tool_results unit [mkToolResult (lit "t1") (lit "ok") None]);
          mkMessageParam user
            (tool_results unit
               [mkToolResult (lit "t2") (lit "Error: boom") (Some true)])].
Proof. eexists. vm_compute. repeat split. Qed.

(** * Instances of the statements about a whole turn *)

Lemma chat_persists_response_text_witness :
  exists (requests : list (Request unit)) (earlier : list (Response unit))
         (final : Response unit) (text : jsstring),
    sent (snd (chat (@scripted unit) 1 sample_config (lit "s1") (lit "hi")
                    tools_then_answer))
    = sent tools_then_answer ++ requests
    /\ backend_replies (@scripted unit) requests (backend tools_then_answer)
       = (map inl (earlier ++ [final]),
          backend (snd (chat (@scripted unit) 1 sample_config (lit "s1")
                             (lit "hi") tools_then_answer)))
    /\ is_tool_use (stop_reason final) = false
    /\ first_text (resp_content final) text
    /\ getConversationHistory (lit "s1")
         (store (snd (chat (@scripted unit) 1 sample_config (lit "s1")
                           (lit "hi") tools_then_answer)))
       = getConversationHistory (lit "s1")
           (fst (after_tools sample_config earlier
                   (saveConversationMessage (lit "s1")
                      (mkMessage user (lit "hi") None)
                      (store tools_then_answer),
                    env tools_then_answer)))
         ++ [mkMessage assistant text (Some (cfg_role sample_config))]
    /\ parseResponse dev tools_then_answer_text
       = parseResponse (cfg_role sample_config) text.
Proof.
  apply (chat_persists_response_text unit unit (list (Response unit))
           (@scripted unit) sample_config 1 (lit "s1") (lit "hi")
           tools_then_answer
           (snd (chat (@scripted unit) 1 sample_config (lit "s1") (lit "hi")
                      tools_then_answer))
           (parseResponse dev tools_then_answer_text)).
  vm_compute. reflexivity.
Defined.



(** The turn of the instances above, run: two tools in one round, then the
    final answer, whose first text block is persisted as it came. *)
Example tools_then_answer_run :
  fst (chat (@scripted unit) 1 sample_config (lit "s1") (lit "hi")
            tools_then_answer)
  = Ok (mkAgentResponse (lit "Done.") (Some (lit "research"))
          (Some [mkMemoryInput (lit "fact") (lit "a") [] (Some dev);
                 mkMemoryInput (lit "task") (lit "b") [] (Some dev)]))
  /\ getConversationHistory (lit "s1")
       (store (snd (chat (@scripted unit) 1 sample_config (lit "s1") (lit "hi")
                         tools_then_answer)))
     = [mkMessage user (lit "hi") None;
        mkMessage assistant tools_then_answer_text (Some dev)]
  /\ map mem_fields
         (memories
            (store (snd (chat (@scripted unit) 1 sample_config (lit "s1")
                              (lit "hi") tools_then_answer))))
     = [mkMemoryInput (lit "fact") (lit "a") [] (Some dev);
        mkMemoryInput (lit "task") (lit "b") [] (Some dev)].
Proof. vm_compute. repeat split. Qed.

(** On [back], in whatever case, a pass of the team chat runs no agent and
    prints nothing. *)
Example chatWithTeam_back :
  chatWithTeam_turn (@scripted unit) sample_team ascii_toLowerCase 0
    (lit "s1") (lit "BaCk") (sample_world [answers unit (lit "never asked")])
  = (Ok None, sample_world [answers unit (lit "never asked")]).
Proof. reflexivity. Qed.
